(** * ChatGLM inference core (mindnlp/models/glm/chatglm.py)

    A shallow embedding of the parts of the ChatGLM model file that the
    specification talks about: the per-layer key/value cache, the decoder
    mask construction, the attention score pipeline, the decoder block
    wiring, the rotary tables, the invalid-score processor and the
    streaming generation loop.

    Conventions.
    - Sequence positions, lengths and bucket sizes are [nat].
    - Token ids are [Z].
    - A tensor axis is a [list]; the leading axis of a cache is the
      sequence axis, so a cache is a list of slots.
    - The attention scores are computed in an abstract arithmetic of the
      working dtype, with the reals and IEEE half precision ([SpecFloat])
      as instances; the rotary tables and the activation are carried out
      over [R]; the invalid-score processor, whose whole point is NaN/Inf,
      is carried out over IEEE floats ([PrimFloat]).
    - A Python exception is a [None] result, or a [Raise] where the kind
      of exception matters. *)

From Stdlib Require Import ZArith Lia List Bool Reals Lra.
From Stdlib Require PrimFloat SpecFloat.
From stdpp Require Import base option list.

(** ** Configuration *)

(** The fields of [ChatGLMConfig] read by the code below. *)
Record ChatGLMConfig := {
  max_sequence_length : nat;
  hidden_size : nat;
  num_attention_heads : nat;
  num_layers : nat;
  vocab_size : nat;
  layernorm_epsilon : R;
  inner_hidden_size : option nat;
  position_encoding_2d : bool;
  pre_seq_len : option nat;
  bos_token_id : Z;
  mask_token_id : Z;
  gmask_token_id : Z;
}.

(** ** The key/value cache of [SelfAttention] *)

Module KVCache.

Section Cache.

(** One cache slot is the [max_batch_size x heads x head_dim] slab stored
    at one sequence position; its contents are opaque here. [zero] is the
    slab [initializer('zeros', ...)] and [ops.zeros_like] produce. *)
Context {V : Type} (zero : V).

(** [ops.zeros_like(cache)]: same capacity, every slot zero. *)
Definition zeros_like (cache : list V) : list V :=
  replicate (length cache) zero.

(** [arange(seq_len)]. *)
Definition arange (n : nat) : list nat := seq 0 n.

(** [ops.scatter_update(cache, indices, updates)]: slot [indices[i]]
    receives [updates[i]]. The number of updates has to match the number
    of indices and every index has to address an existing slot; anything
    else is the fatal shape / capacity error of the specification. *)
Fixpoint scatter_update (cache : list V) (indices : list nat) (updates : list V)
  : option (list V) :=
  match indices, updates with
  | [], [] => Some cache
  | i :: indices', u :: updates' =>
      if decide (i < length cache)
      then scatter_update (<[i := u]> cache) indices' updates'
      else None
  | _, _ => None
  end.

(** The two buffers owned by one attention layer. *)
Record cache := { cache_k : list V; cache_v : list V }.

(** The cache-writing prefix of [SelfAttention.attention_fn]
    (lines 308-317). [seq_len] is [query_layer.shape[0]]. *)
Definition cache_write (c : cache) (seq_len start_pos : nat)
    (key_layer value_layer : list V) : option cache :=
  let '(indices, c0) :=
    if decide (1 < seq_len)
    then (arange seq_len,
          {| cache_k := zeros_like (cache_k c); cache_v := zeros_like (cache_v c) |})
    else ([start_pos], c)
  in
  k' ← scatter_update (cache_k c0) indices key_layer;
  v' ← scatter_update (cache_v c0) indices value_layer;
  Some {| cache_k := k'; cache_v := v' |}.

(** [self.cache_k[:bucket_size]], [self.cache_v[:bucket_size]]
    (lines 319-320). *)
Definition cache_read (c : cache) (bucket_size : nat) : list V * list V :=
  (take bucket_size (cache_k c), take bucket_size (cache_v c)).

(** A run of single-token calls: the [i]-th call carries one key and one
    value and is made with [start_pos = start + i]. *)
Fixpoint decode_steps (c : cache) (start : nat) (kvs : list (V * V)) : option cache :=
  match kvs with
  | [] => Some c
  | (k, v) :: kvs' =>
      c' ← cache_write c 1 start [k] [v];
      decode_steps c' (S start) kvs'
  end.

(** *** Facts about [scatter_update] *)

Lemma scatter_update_length cache indices updates cache' :
  scatter_update cache indices updates = Some cache' →
  length cache' = length cache.
Proof.
  revert cache updates.
  induction indices as [|i indices IH]; intros cache [|u updates] H;
    simpl in H; try discriminate.
  - by inversion H.
  - case_decide; [|discriminate].
    apply IH in H. by rewrite length_insert in H.
Qed.

(** Writing a block at [0, n) over a zeroed buffer. *)
Lemma scatter_update_prefill (cache updates : list V) :
  length updates ≤ length cache →
  scatter_update (zeros_like cache) (arange (length updates)) updates
  = Some (updates ++ replicate (length cache - length updates) zero).
Proof.
  intros Hle. unfold zeros_like, arange.
  replace (length cache) with (length updates + (length cache - length updates)) at 1 by lia.
  rewrite replicate_add.
  remember (replicate (length cache - length updates) zero) as tail.
  revert Heqtail. generalize (length cache - length updates). intros m Hm.
  assert (Hgen : ∀ (pre : list V) (n : nat) (ups : list V) (tl : list V),
    length ups = n →
    scatter_update (pre ++ replicate n zero ++ tl) (seq (length pre) n) ups
    = Some (pre ++ ups ++ tl)).
  { intros pre n. revert pre.
    induction n as [|n IH]; intros pre ups tl Hn.
    - destruct ups; [|discriminate]. done.
    - destruct ups as [|u ups]; [discriminate|].
      cbn [replicate app seq scatter_update].
      rewrite decide_True; last (rewrite length_app; simpl; lia).
      replace (<[length pre := u]> (pre ++ zero :: replicate n zero ++ tl))
        with ((pre ++ [u]) ++ replicate n zero ++ tl).
      2:{ rewrite insert_app_r_alt; [|lia]. rewrite Nat.sub_diag. simpl.
          by rewrite <- app_assoc. }
      replace (S (length pre)) with (length (pre ++ [u]))
        by (rewrite length_app; simpl; lia).
      rewrite IH; [|simpl in Hn; lia].
      by rewrite <- app_assoc. }
  apply (Hgen [] (length updates) updates tail eq_refl).
Qed.

Lemma cache_write_prefill (c : cache) (start_pos : nat) (ks vs : list V) :
  1 < length ks →
  length vs = length ks →
  length ks ≤ length (cache_k c) →
  length ks ≤ length (cache_v c) →
  cache_write c (length ks) start_pos ks vs
  = Some {| cache_k := ks ++ replicate (length (cache_k c) - length ks) zero;
            cache_v := vs ++ replicate (length (cache_v c) - length vs) zero |}.
Proof.
  intros Hlen Hvs Hk Hv. unfold cache_write.
  rewrite decide_True by done. cbn [cache_k cache_v].
  rewrite scatter_update_prefill by done. cbn [mbind option_bind].
  rewrite <- Hvs at 1.
  rewrite scatter_update_prefill by lia. done.
Qed.

Lemma cache_write_decode (c : cache) (start_pos : nat) (k v : V) :
  start_pos < length (cache_k c) →
  start_pos < length (cache_v c) →
  cache_write c 1 start_pos [k] [v]
  = Some {| cache_k := <[start_pos := k]> (cache_k c);
            cache_v := <[start_pos := v]> (cache_v c) |}.
Proof.
  intros Hk Hv. unfold cache_write.
  rewrite decide_False by lia. simpl.
  rewrite !decide_True by done. done.
Qed.

(** [k] single-token calls starting at [start] rewrite exactly the slots
    [start, start + k) and nothing else. *)
Lemma decode_steps_spec (kvs : list (V * V)) (c : cache) (start : nat) :
  start + length kvs ≤ length (cache_k c) →
  start + length kvs ≤ length (cache_v c) →
  decode_steps c start kvs
  = Some {| cache_k := take start (cache_k c) ++ kvs.*1
                         ++ drop (start + length kvs) (cache_k c);
            cache_v := take start (cache_v c) ++ kvs.*2
                         ++ drop (start + length kvs) (cache_v c) |}.
Proof.
  revert c start.
  induction kvs as [|[k v] kvs IH]; intros [ck cv] start Hk Hv;
    cbn [cache_k cache_v] in *.
  - simpl. rewrite Nat.add_0_r, !take_drop. done.
  - cbn [decode_steps length fmap list_fmap fst snd] in *.
    rewrite cache_write_decode by (cbn; lia). cbn [mbind option_bind].
    rewrite IH by (cbn; rewrite length_insert; lia).
    cbn [cache_k cache_v].
    assert (Hslot : ∀ (l : list V) (x : V), start < length l →
              take (S start) (<[start := x]> l) = take start l ++ [x]).
    { intros l x Hl. erewrite take_S_r by (by apply list_lookup_insert_eq).
      by rewrite take_insert_ge. }
    rewrite !Hslot by lia.
    rewrite !drop_insert_lt by lia.
    rewrite <- !app_assoc. cbn [app].
    by replace (S start + length kvs) with (start + S (length kvs)) by lia.
Qed.

(** A decode step made with [start_pos = L + 1] right after a prefill of
    length [L] leaves slot [L] at zero: nothing is ever stored there. *)
Lemma decode_after_prefill_gap (c : cache) (ks vs : list V) (k v : V) (sp : nat) :
  1 < length ks →
  length vs = length ks →
  S (length ks) < length (cache_k c) →
  S (length ks) < length (cache_v c) →
  ∃ c1 c2,
    cache_write c (length ks) sp ks vs = Some c1
    ∧ cache_write c1 1 (S (length ks)) [k] [v] = Some c2
    ∧ cache_k c2 !! length ks = Some zero
    ∧ cache_v c2 !! length ks = Some zero
    ∧ cache_k c2 !! S (length ks) = Some k.
Proof.
  intros HL Hvs Hk Hv. eexists _, _.
  split; [apply cache_write_prefill; lia|].
  split.
  { apply cache_write_decode; cbn [cache_k cache_v];
      rewrite length_app, length_replicate; lia. }
  cbn [cache_k cache_v].
  rewrite !list_lookup_insert_ne by lia.
  rewrite list_lookup_insert_eq by (rewrite length_app, length_replicate; lia).
  rewrite lookup_app_r by lia. rewrite Nat.sub_diag.
  rewrite <- Hvs at 2. rewrite lookup_app_r by lia. rewrite Nat.sub_diag.
  split; [|split; [|done]]; apply lookup_replicate_2; lia.
Qed.

(** C1. KV-cache write protocol. A call with more than one query position
    (prefill) zeroes both buffers and then stores the new keys and values
    at the positions [0, seq_len); a call with exactly one query position
    (decode) overwrites the single slot [start_pos] and leaves every other
    slot as it was; hence after a prefill of length [L] followed by [k]
    single-token calls made with [start_pos = L, L+1, ...], the prefix
    [0, L+k) read back from the cache is the sequence of keys and values
    written, in order. *)
Theorem cache_write_protocol
    (c : cache) (cap : nat) (ks vs : list V) (kvs : list (V * V)) (sp : nat) :
  length (cache_k c) = cap →
  length (cache_v c) = cap →
  1 < length ks →
  length vs = length ks →
  length ks + length kvs ≤ cap →
  (* prefill: zero, then scatter at [0, L) *)
  cache_write c (length ks) sp ks vs
    = Some {| cache_k := ks ++ replicate (cap - length ks) zero;
              cache_v := vs ++ replicate (cap - length ks) zero |}
  (* decode: one slot rewritten, the others untouched *)
  ∧ (∀ (c1 : cache) (p : nat) (k v : V),
       length (cache_k c1) = cap → length (cache_v c1) = cap → p < cap →
       ∃ c2, cache_write c1 1 p [k] [v] = Some c2
             ∧ cache_k c2 !! p = Some k ∧ cache_v c2 !! p = Some v
             ∧ ∀ j, j ≠ p →
                 cache_k c2 !! j = cache_k c1 !! j
                 ∧ cache_v c2 !! j = cache_v c1 !! j)
  (* prefill followed by k decode steps at L, L+1, ... *)
  ∧ ∃ c1 c2,
      cache_write c (length ks) sp ks vs = Some c1
      ∧ decode_steps c1 (length ks) kvs = Some c2
      ∧ cache_read c2 (length ks + length kvs) = (ks ++ kvs.*1, vs ++ kvs.*2).
Proof.
  intros Hck Hcv HL Hvs Hcap.
  assert (Hpre : cache_write c (length ks) sp ks vs
    = Some {| cache_k := ks ++ replicate (cap - length ks) zero;
              cache_v := vs ++ replicate (cap - length ks) zero |}).
  { rewrite cache_write_prefill by lia. by rewrite Hck, Hcv, Hvs. }
  split; [exact Hpre|]. split.
  - intros c1 p k v Hk1 Hv1 Hp.
    eexists. split; [apply cache_write_decode; lia|].
    cbn [cache_k cache_v].
    rewrite !list_lookup_insert_eq by lia.
    repeat split; by rewrite list_lookup_insert_ne.
  - eexists _, _. split; [exact Hpre|].
    split.
    + apply decode_steps_spec; cbn [cache_k cache_v];
        rewrite length_app, length_replicate; lia.
    + unfold cache_read. cbn [cache_k cache_v].
      rewrite take_app_length, (take_app_length' vs) by done.
      rewrite !app_assoc.
      f_equal; apply take_app_length'; rewrite length_app, !length_fmap; lia.
Qed.

End Cache.

(** The protocol at work on a four-slot cache of integer slabs: a prefill
    of two positions followed by two decode steps at positions 2 and 3. *)
Lemma cache_write_protocol_witness :
  let c := {| cache_k := [7; 7; 7; 7]; cache_v := [8; 8; 8; 8] |}%Z in
  ∃ c1 c2,
    cache_write 0%Z c 2 0 [1; 2]%Z [10; 20]%Z = Some c1
    ∧ decode_steps 0%Z c1 2 [(3, 30); (4, 40)]%Z = Some c2
    ∧ cache_read c2 4 = ([1; 2; 3; 4]%Z, [10; 20; 30; 40]%Z).
Proof.
  intros c.
  apply (cache_write_protocol 0%Z c 4 [1; 2]%Z [10; 20]%Z [(3, 30); (4, 40)]%Z 0);
    simpl; lia || reflexivity.
Defined.

End KVCache.

(** ** Mask construction in [ChatGLMModel.construct] *)

Module Mask.

(** A boolean mask of shape [(batch, 1, query, key)]; the singleton head
    axis is dropped, so a mask is batch x query rows x key columns. [true]
    marks a disallowed (masked) pair. *)
Definition mask : Type := list (list (list bool)).

(** [ops.ones((b, 1, r, w))] cast to bool, or compared with [< 0.5]:
    a constant tensor. *)
Definition full (b r w : nat) (x : bool) : mask :=
  replicate b (replicate r (replicate w x)).

(** [ops.concat((a, b), axis=3)] on one batch element: the rows are joined
    pairwise; differing row counts are a shape error. *)
Fixpoint concat_rows (a b : list (list bool)) : option (list (list bool)) :=
  match a, b with
  | [], [] => Some []
  | r :: a', s :: b' => rest ← concat_rows a' b'; Some ((r ++ s) :: rest)
  | _, _ => None
  end.

(** [ops.concat((a, b), axis=3)]: every axis but the last has to agree. *)
Fixpoint concat_last (a b : mask) : option mask :=
  match a, b with
  | [], [] => Some []
  | x :: a', y :: b' =>
      rows ← concat_rows x y; rest ← concat_last a' b'; Some (rows :: rest)
  | _, _ => None
  end.

(** [arange(bucket_size) > start_pos + seq_len]. *)
Definition decode_row (start_pos seq_len bucket_size : nat) : list bool :=
  (λ j, bool_decide (start_pos + seq_len < j)) <$> seq 0 bucket_size.

(** Lines 707-718 of [ChatGLMModel.construct]. [batch_size] and [seq_len]
    are [input_ids.shape]; [pre_seq_len] is the configured soft-prompt
    length, [None] when there is none. *)
Definition construct_mask (pre_seq_len : option nat) (batch_size seq_len : nat)
    (attention_mask : option mask) (start_pos bucket_size : nat) : option mask :=
  attention_mask ←
    match pre_seq_len, attention_mask with
    | Some p, Some m =>
        m' ← concat_last (full batch_size seq_len p false) m; Some (Some m')
    | _, _ => Some attention_mask
    end;
  if decide (1 < seq_len) then
    m ← attention_mask;
    if decide (seq_len ≤ bucket_size)
    then concat_last m (full 1 seq_len (bucket_size - seq_len) true)
    else None
  else Some [[decode_row start_pos seq_len bucket_size]].

Lemma decode_row_lookup (start_pos seq_len bucket_size j : nat) :
  j < bucket_size →
  decode_row start_pos seq_len bucket_size !! j
  = Some (bool_decide (start_pos + seq_len < j)).
Proof.
  intros Hj. unfold decode_row.
  rewrite list_lookup_fmap, lookup_seq_lt by done. done.
Qed.

Lemma concat_rows_replicate (rows : list (list bool)) (w : nat) (x : bool) :
  concat_rows rows (replicate (length rows) (replicate w x))
  = Some ((λ row, row ++ replicate w x) <$> rows).
Proof.
  induction rows as [|row rows IH]; [done|].
  simpl. rewrite IH. done.
Qed.

(** Without a soft prompt, a prefill pads every query row on the right. *)
Lemma construct_mask_prefill (rows : list (list bool)) (start_pos bucket_size : nat) :
  1 < length rows →
  length rows ≤ bucket_size →
  construct_mask None 1 (length rows) (Some [rows]) start_pos bucket_size
  = Some [(λ row, row ++ replicate (bucket_size - length rows) true) <$> rows].
Proof.
  intros Hlen Hle. unfold construct_mask. simpl.
  rewrite !decide_True by done. simpl.
  rewrite concat_rows_replicate. done.
Qed.

(** A decode step never looks at the supplied mask. *)
Lemma construct_mask_decode (pre_seq_len : option nat) (batch_size : nat)
    (attention_mask : option mask) (start_pos bucket_size : nat) (m : mask) :
  construct_mask pre_seq_len batch_size 1 attention_mask start_pos bucket_size = Some m →
  m = [[decode_row start_pos 1 bucket_size]].
Proof.
  unfold construct_mask.
  destruct pre_seq_len as [p|], attention_mask as [m0|]; simpl;
    try (intros [= <-]; done).
  destruct (concat_last _ m0); simpl; [|discriminate].
  by intros [= <-].
Qed.

Lemma concat_last_length (a b c : mask) :
  concat_last a b = Some c → length a = length b ∧ length c = length b.
Proof.
  revert b c. induction a as [|x a IH]; intros [|y b] c; simpl; try discriminate.
  - by intros [= <-].
  - destruct (concat_rows x y); [|discriminate]. simpl.
    destruct (concat_last a b) as [rest|] eqn:Hrest; [|discriminate]. simpl.
    intros [= <-]. destruct (IH b rest Hrest) as [Ha Hc]. simpl. lia.
Qed.

Lemma concat_rows_prefix (rows : list (list bool)) (w : nat) (x : bool) :
  concat_rows (replicate (length rows) (replicate w x)) rows
  = Some ((λ row, replicate w x ++ row) <$> rows).
Proof.
  induction rows as [|row rows IH]; [done|]. simpl. by rewrite IH.
Qed.

(** One row of a prefill mask as the forward call lays it out: [pre]
    allowed prefix columns, the supplied columns, the padding. *)
Definition padded_row (pre seq_len bucket_size : nat) (row : list bool) : list bool :=
  replicate pre false ++ row ++ replicate (bucket_size - seq_len) true.




(** With a soft prompt of length [p], the allowed prefix columns come
    first and the padding follows the supplied columns. *)
Lemma construct_mask_prefix (p : nat) (rows : list (list bool))
    (start_pos bucket_size : nat) :
  1 < length rows →
  length rows ≤ bucket_size →
  construct_mask (Some p) 1 (length rows) (Some [rows]) start_pos bucket_size
  = Some [(λ row, (replicate p false ++ row)
                    ++ replicate (bucket_size - length rows) true) <$> rows].
Proof.
  intros Hlen Hle. unfold construct_mask. simpl.
  assert (Hpre : concat_rows (replicate (length rows) (replicate p false)) rows
                 = Some ((λ row, replicate p false ++ row) <$> rows)).
  { clear. induction rows as [|row rows IH]; [done|]. simpl. by rewrite IH. }
  rewrite Hpre. simpl.
  rewrite !decide_True by done.
  pose proof (concat_rows_replicate ((λ row, replicate p false ++ row) <$> rows)
                (bucket_size - length rows) true) as Hpad.
  rewrite length_fmap in Hpad. rewrite Hpad. simpl.
  by rewrite <- list_fmap_compose.
Qed.

End Mask.

(** ** Attention scores in [SelfAttention.attention_fn] *)

Module Attention.

Local Open Scope R_scope.

(** The tensor arithmetic of the working dtype, [query_layer.dtype]
    (float16 for [ChatGLMModel], line 619). The scores are computed in it
    up to the cast of line 353; nothing below assumes a law of it, so the
    order of the operations is part of every statement. *)
Class Arith (F : Type) := {
  (** [ops.cast(n, dtype)], and the conversion of an integer-valued Python
      scalar operand to the dtype. *)
  cast : Z → F;
  (** [ops.sqrt]. *)
  fsqrt : F → F;
  (** [*] and [/] on tensors of the dtype. *)
  fmul : F → F → F;
  fdiv : F → F → F;
  (** The reduction over the head dimension that [ops.bmm] performs for
      one entry of its result. *)
  fdot : list F → list F → F;
  (** Lines 353-356 on one row: the cast to float32, [ops.softmax] over
      the last axis, the cast back. *)
  fsoftmax : list F → list F;
}.

(** [self.scaling_attention_score], set in [__init__] (line 178). *)
Definition scaling_attention_score : bool := true.

(** [t.shape[-1]] of a tensor given by its rows; a tensor without rows is
    given the width 0 (no score depends on it then). *)
Definition shape_last {A} (t : list (list A)) : nat :=
  match t with
  | [] => 0
  | row :: _ => length row
  end.

(** Broadcasting along one axis: equal lengths are paired up, a length of
    one is repeated, anything else is a shape error. *)
Definition broadcast {A B C} (f : A → B → option C) (a : list A) (b : list B)
  : option (list C) :=
  if decide (length a = length b) then mapM (λ xy, f xy.1 xy.2) (zip a b)
  else match a, b with
       | [x], _ => mapM (f x) b
       | _, [y] => mapM (λ x, f x y) a
       | _, _ => None
       end.

(** [scores.masked_fill(attention_mask, value)] (line 349) for one
    (batch, head) pair: the mask has to have the shape of the scores, or
    one that broadcasts with it. *)
Definition masked_fill {A} (scores : list (list A)) (attention_mask : list (list bool))
    (value : A) : option (list (list A)) :=
  broadcast (broadcast (λ s (m : bool), Some (if m then value else s)))
    scores attention_mask.

(** The reduction and the softmax over the reals, for statements in which
    rounding is left out. *)
Definition dot (u v : list R) : R := foldr Rplus 0 (zip_with Rmult u v).

(** [ops.softmax(row, axis=-1)]. *)
Definition softmax (row : list R) : list R :=
  let z := foldr Rplus 0 (exp <$> row) in (λ x, exp x / z) <$> row.

Section Scores.

(** One (batch, head) pair: the query is [sq x hn], the keys read back
    from the cache are [sk x hn], the mask is [sq x sk]. *)
Context {F : Type} `{!Arith F}.

(** [ops.cast(layer_id + 1, query_layer.dtype)] (line 325). *)
Definition query_key_layer_scaling_coeff (layer_id : nat) : F :=
  cast (Z.of_nat (layer_id + 1)).

(** [query_layer / (ops.sqrt(ops.cast(hidden_size, dtype)) *
    query_key_layer_scaling_coeff)] (line 328). *)
Definition scale_query (hidden_size layer_id : nat) (query_layer : list (list F))
  : list (list F) :=
  fmap (M := list)
    (fmap (M := list)
       (λ x, fdiv x (fmul (fsqrt (cast (Z.of_nat hidden_size)))
                          (query_key_layer_scaling_coeff layer_id))))
    query_layer.

(** [ops.bmm(query, key^T)] for one (batch, head) pair (lines 342-345);
    the head dimensions have to agree. *)
Definition bmm (query_layer key_layer : list (list F)) : option (list (list F)) :=
  mapM (λ q, mapM (λ k, if decide (length q = length k) then Some (fdot q k) else None)
               key_layer)
    query_layer.

(** Lines 323-351: the scores handed to the cast and the softmax. The
    fill value is the Python scalar [-10000.0]. *)
Definition attention_scores (layer_id : nat) (query_layer key_layer : list (list F))
    (attention_mask : list (list bool)) : option (list (list F)) :=
  let hidden_size := shape_last key_layer in
  let coeff := query_key_layer_scaling_coeff layer_id in
  let query_layer :=
    if scaling_attention_score then scale_query hidden_size layer_id query_layer
    else query_layer in
  matmul_result ← bmm query_layer key_layer;
  filled ← masked_fill matmul_result attention_mask (cast (-10000));
  Some (fmap (M := list) (fmap (M := list) (λ s : F, fmul s coeff)) filled).

(** Lines 353-356. *)
Definition attention_probs (layer_id : nat) (query_layer key_layer : list (list F))
    (attention_mask : list (list bool)) : option (list (list F)) :=
  scores ← attention_scores layer_id query_layer key_layer attention_mask;
  Some (fmap (M := list) fsoftmax scores).

End Scores.

Lemma mapM_total {A B} (f : A → option B) (g : A → B) (l : list A) :
  Forall (λ x, f x = Some (g x)) l → mapM f l = Some (g <$> l).
Proof.
  intros Hl. apply mapM_Some, Forall2_fmap_r, Forall_Forall2_diag. exact Hl.
Qed.

Lemma broadcast_same {A B C} (f : A → B → option C) (g : A → B → C)
    (a : list A) (b : list B) :
  length a = length b →
  (∀ i x y, a !! i = Some x → b !! i = Some y → f x y = Some (g x y)) →
  broadcast f a b = Some (zip_with g a b).
Proof.
  intros Hlen Hf. unfold broadcast. rewrite decide_True by done.
  clear Hlen. revert b Hf.
  induction a as [|x a IH]; intros [|y b] Hf; try done.
  cbn [zip zip_with mapM fst snd]. rewrite (Hf 0%nat x y) by done.
  cbn [mbind option_bind]. rewrite (IH b); [done|].
  intros i x' y' Hx' Hy'. by apply (Hf (S i)).
Qed.

Lemma masked_fill_same {A} (scores : list (list A)) (attention_mask : list (list bool))
    (value : A) :
  length scores = length attention_mask →
  (∀ i row mrow, scores !! i = Some row → attention_mask !! i = Some mrow →
     length row = length mrow) →
  masked_fill scores attention_mask value
  = Some (zip_with (zip_with (λ s (m : bool), if m then value else s))
            scores attention_mask).
Proof.
  intros Hlen Hrows. unfold masked_fill. apply broadcast_same; [done|].
  intros i row mrow Hrow Hmrow. apply broadcast_same; [by eapply Hrows|done].
Qed.

Section ScoreFacts.

Context {F : Type} `{!Arith F}.

Lemma bmm_rectangular (hn : nat) (query_layer key_layer : list (list F)) :
  Forall (λ q, length q = hn) query_layer →
  Forall (λ k, length k = hn) key_layer →
  bmm query_layer key_layer
  = Some ((λ q, (λ k, fdot q k) <$> key_layer) <$> query_layer).
Proof.
  intros Hq Hk. unfold bmm. apply mapM_total.
  eapply Forall_impl; [exact Hq|]. intros q Hlq. cbn.
  apply mapM_total. eapply Forall_impl; [exact Hk|]. intros k Hlk. cbn.
  by rewrite decide_True by congruence.
Qed.

(** The scores of well-shaped operands, as one expression. *)
Lemma attention_scores_value (layer_id hn : nat)
    (query_layer key_layer : list (list F)) (attention_mask : list (list bool)) :
  Forall (λ q, length q = hn) query_layer →
  Forall (λ k, length k = hn) key_layer →
  length attention_mask = length query_layer →
  Forall (λ mrow, length mrow = length key_layer) attention_mask →
  attention_scores layer_id query_layer key_layer attention_mask
  = Some (fmap (M := list)
            (fmap (M := list) (λ s, fmul s (query_key_layer_scaling_coeff layer_id)))
            (zip_with (zip_with (λ s (m : bool), if m then cast (-10000) else s))
               ((λ q, (λ k, fdot q k) <$> key_layer)
                  <$> scale_query (shape_last key_layer) layer_id query_layer)
               attention_mask)).
Proof.
  intros Hq Hk Hmlen Hmrows.
  set (scaled := scale_query (shape_last key_layer) layer_id query_layer).
  assert (Hscaled : Forall (λ q, length q = hn) scaled).
  { unfold scaled, scale_query. apply Forall_fmap. eapply Forall_impl; [exact Hq|].
    intros q Hlq. cbn. by rewrite length_fmap. }
  set (raw := (λ q, (λ k, fdot q k) <$> key_layer) <$> scaled).
  unfold attention_scores. cbn [scaling_attention_score]. fold scaled.
  rewrite (bmm_rectangular hn) by done. fold raw. cbn [mbind option_bind].
  rewrite masked_fill_same; [reflexivity| |].
  - unfold raw, scaled, scale_query. by rewrite !length_fmap.
  - intros i row mrow Hrow Hmrow. unfold raw in Hrow.
    rewrite list_lookup_fmap in Hrow.
    destruct (scaled !! i); [|discriminate]. injection Hrow as <-.
    rewrite length_fmap. symmetry.
    by eapply (Forall_lookup_1 _ _ _ _ Hmrows).
Qed.

(** C3. Attention score scaling policy. For a query of [sq] rows and keys
    of [sk] rows over a head dimension [hn], and a mask of the shape
    [sq x sk] of the scores, the scores exist, have that shape, and are
    handed to the softmax; their entry for query [i] and key [j] is
    computed, in the arithmetic of the working dtype and in this order, by
    dividing the query by [sqrt(hn) * (layer_id + 1)], taking the dot
    product with the key, replacing the result by the sentinel [-10000]
    where the mask is set, and multiplying by [layer_id + 1]. *)
Theorem attention_score_scaling (layer_id hn : nat)
    (query_layer key_layer : list (list F)) (attention_mask : list (list bool)) :
  Forall (λ q, length q = hn) query_layer →
  Forall (λ k, length k = hn) key_layer →
  length attention_mask = length query_layer →
  Forall (λ mrow, length mrow = length key_layer) attention_mask →
  let coeff := cast (Z.of_nat (layer_id + 1)) in
  let divided q := (λ x, fdiv x (fmul (fsqrt (cast (Z.of_nat hn))) coeff)) <$> q in
  ∃ scores,
    attention_scores layer_id query_layer key_layer attention_mask = Some scores
    ∧ attention_probs layer_id query_layer key_layer attention_mask
      = Some (fsoftmax <$> scores)
    ∧ length scores = length query_layer
    ∧ Forall (λ row, length row = length key_layer) scores
    ∧ ∀ i j q k mrow (m : bool),
        query_layer !! i = Some q →
        key_layer !! j = Some k →
        attention_mask !! i = Some mrow →
        mrow !! j = Some m →
        scores !! i ≫= (.!! j)
        = Some (fmul (if m then cast (-10000) else fdot (divided q) k) coeff).
Proof.
  intros Hq Hk Hmlen Hmrows coeff divided.
  pose proof (attention_scores_value layer_id hn _ _ _ Hq Hk Hmlen Hmrows) as Hscores.
  eexists. split; [exact Hscores|]. split; [|split; [|split]].
  - unfold attention_probs. by rewrite Hscores.
  - rewrite length_fmap, length_zip_with. unfold scale_query.
    rewrite !length_fmap. lia.
  - apply Forall_fmap, Forall_forall. intros row Hrow. cbn. rewrite length_fmap.
    apply list_elem_of_lookup in Hrow as [i Hi].
    apply lookup_zip_with_Some in Hi as (r & mrow & -> & Hr & Hmrow).
    rewrite length_zip_with. rewrite list_lookup_fmap in Hr.
    destruct (scale_query _ _ _ !! i); [|discriminate]. injection Hr as <-.
    rewrite length_fmap.
    pose proof (Forall_lookup_1 _ _ _ _ Hmrows Hmrow) as Hw. cbn in Hw. lia.
  - intros i j q k mrow m Hqi Hkj Hmi Hmj.
    assert (Hhs : shape_last key_layer = hn).
    { destruct key_layer as [|k0 ks]; [by rewrite lookup_nil in Hkj|].
      by apply Forall_cons in Hk as [Hk0 _]. }
    unfold scale_query, query_key_layer_scaling_coeff.
    rewrite Hhs. fold coeff.
    rewrite list_lookup_fmap, lookup_zip_with, !list_lookup_fmap, Hqi, Hmi.
    cbn [fmap option_fmap option_map mbind option_bind].
    rewrite list_lookup_fmap, lookup_zip_with, list_lookup_fmap, Hkj, Hmj.
    reflexivity.
Qed.

End ScoreFacts.

#[global] Instance R_arith : Arith R := {|
  cast := IZR;
  fsqrt := sqrt;
  fmul := Rmult;
  fdiv := Rdiv;
  fdot := dot;
  fsoftmax := softmax;
|}.

(** Over the reals: layer 1 (so the coefficient is 2), [hn = 4], one query
    against a visible and a masked key. The masked entry reaches the
    softmax as [-10000 * 2], the visible one as
    [dot (q / (sqrt 4 * 2)) k * 2]. *)
Lemma attention_score_scaling_witness :
  ∃ scores,
    attention_scores (F := R) 1 [[2; 0; 0; 0]] [[3; 0; 0; 0]; [1; 1; 1; 1]]
      [[false; true]] = Some scores
    ∧ scores !! 0%nat ≫= (.!! 1%nat) = Some (-10000 * 2)
    ∧ scores !! 0%nat ≫= (.!! 0%nat)
      = Some (dot ((λ x, x / (sqrt 4 * 2)) <$> [2; 0; 0; 0]) [3; 0; 0; 0] * 2).
Proof.
  destruct (attention_score_scaling (F := R) 1 4 [[2; 0; 0; 0]]
              [[3; 0; 0; 0]; [1; 1; 1; 1]] [[false; true]])
    as (scores & Hscores & _ & _ & _ & Hentry);
    [repeat constructor .. | reflexivity | repeat constructor |].
  exists scores. split; [exact Hscores|]. split.
  - apply (Hentry 0%nat 1%nat [2; 0; 0; 0] [1; 1; 1; 1] [false; true] true);
      reflexivity.
  - apply (Hentry 0%nat 0%nat [2; 0; 0; 0] [3; 0; 0; 0] [false; true] false);
      reflexivity.
Defined.

End Attention.

(** ** The decoder block: [GLMBlock] and [ChatGLMModel.__init__] *)

Module Block.

Local Open Scope R_scope.

(** An activation tensor, flattened; working precision idealised to [R]. *)
Abbreviation tensor := (list R).

(** [t * alpha] and [a + b], elementwise. *)
Definition scale (t : tensor) (alpha : R) : tensor := (λ x, x * alpha) <$> t.
Definition add (a b : tensor) : tensor := zip_with Rplus a b.

Section Cells.

(** The sub-cells, whose weights are not part of this development:
    [nn.LayerNorm([hidden_size], epsilon)], [SelfAttention(...)] called at a
    given layer index (its remaining arguments, the positions, the mask and
    the cache state, are fixed for the call under study), and [GLU(...)]. *)
Variable LayerNorm : nat → R → tensor → tensor.
Variable SelfAttention : ChatGLMConfig → nat → tensor → tensor.
Variable GLU : nat → option nat → nat → tensor → tensor.

(** A constructed [GLMBlock]: the attributes set by [__init__]. *)
Record GLMBlock := {
  layer_id : nat;
  input_layernorm : tensor → tensor;
  attention : tensor → tensor;
  post_attention_layernorm : tensor → tensor;
  block_num_layers : nat;
  mlp : tensor → tensor;
}.

(** [GLMBlock.__init__]. A keyword parameter with a default value is an
    [option]: [None] when the caller leaves it out. The signature reads
    [num_layers=28]. *)
Definition GLMBlock_init (config : ChatGLMConfig)
    (hidden_size num_attention_heads : nat) (layernorm_epsilon : R) (layer_id : nat)
    (inner_hidden_size : option nat) (num_layers : option nat) : GLMBlock :=
  {| layer_id := layer_id;
     input_layernorm := LayerNorm hidden_size layernorm_epsilon;
     attention := SelfAttention config layer_id;
     post_attention_layernorm := LayerNorm hidden_size layernorm_epsilon;
     block_num_layers := default 28%nat num_layers;
     mlp := GLU hidden_size inner_hidden_size layer_id |}.

(** [alpha = (2 * self.num_layers) ** 0.5] (line 526). *)
Definition alpha (b : GLMBlock) : R := sqrt (2 * INR (block_num_layers b)).

(** [GLMBlock.construct] (lines 506-539), first output. *)
Definition GLMBlock_construct (b : GLMBlock) (hidden_states : tensor) : tensor :=
  let attention_input := input_layernorm b hidden_states in
  let attention_output := attention b attention_input in
  let hidden_states := add (scale attention_input (alpha b)) attention_output in
  let mlp_input := post_attention_layernorm b hidden_states in
  let mlp_output := mlp b mlp_input in
  add (scale mlp_input (alpha b)) mlp_output.

(** [get_layer] inside [ChatGLMModel.__init__] (lines 637-649): the call
    passes [config], the sizes, [layer_id], [inner_hidden_size],
    [hidden_size_per_attention_head], [use_bias], [params_dtype] and
    [position_encoding_2d]; it does not pass [num_layers]. *)
Definition get_layer (config : ChatGLMConfig) (layer_id : nat) : GLMBlock :=
  GLMBlock_init config (hidden_size config) (num_attention_heads config)
    (layernorm_epsilon config) layer_id (inner_hidden_size config) None.

(** [self.layers = nn.CellList([get_layer(i) for i in range(self.num_layers)])]. *)
Definition layers (config : ChatGLMConfig) : list GLMBlock :=
  get_layer config <$> seq 0 (num_layers config).

(** The wiring of one block, whatever its [alpha]. *)
Lemma GLMBlock_construct_wiring (b : GLMBlock) (x : tensor) :
  let norm1 := input_layernorm b x in
  let attn_out := attention b norm1 in
  let norm2 := post_attention_layernorm b (add (scale norm1 (alpha b)) attn_out) in
  let mlp_out := mlp b norm2 in
  GLMBlock_construct b x = add (scale norm2 (alpha b)) mlp_out.
Proof. reflexivity. Qed.

(** Every block of the stack carries the default layer count. *)
Lemma layers_block_num_layers (config : ChatGLMConfig) (b : GLMBlock) :
  b ∈ layers config → block_num_layers b = 28%nat.
Proof.
  unfold layers. intros (i & -> & _)%list_elem_of_fmap. reflexivity.
Qed.

Lemma layers_alpha (config : ChatGLMConfig) (b : GLMBlock) :
  b ∈ layers config → alpha b = sqrt 56.
Proof.
  intros Hb. unfold alpha. rewrite (layers_block_num_layers config b Hb).
  f_equal. simpl. lra.
Qed.

(** A configuration with a single layer. *)
Definition single_layer_config : ChatGLMConfig :=
  {| max_sequence_length := 8; hidden_size := 4; num_attention_heads := 2;
     num_layers := 1; vocab_size := 16; layernorm_epsilon := 1 / 100000;
     inner_hidden_size := None; position_encoding_2d := true;
     pre_seq_len := None; bos_token_id := 4; mask_token_id := 0;
     gmask_token_id := 1 |}.

(** C4. Scaled residual wiring, evaluated on a single-layer model. The
    block computes [norm2 * alpha + mlp_out] with
    [norm2 = LayerNorm(norm1 * alpha + attn_out)] as claimed, but its
    [alpha] is [sqrt(2 * 28)], the default of the constructor, and not
    [sqrt(2 * num_layers)] of the configuration: for [num_layers = 1] the
    block scales by [sqrt 56], not by [sqrt 2]. *)
Theorem single_layer_alpha :
  ∃ b, layers single_layer_config = [b]
       ∧ (∀ x, GLMBlock_construct b x
               = add (scale (post_attention_layernorm b
                               (add (scale (input_layernorm b x) (sqrt 56))
                                    (attention b (input_layernorm b x))))
                            (sqrt 56))
                     (mlp b (post_attention_layernorm b
                               (add (scale (input_layernorm b x) (sqrt 56))
                                    (attention b (input_layernorm b x))))))
       ∧ alpha b = sqrt 56
       ∧ alpha b ≠ sqrt (2 * INR (num_layers single_layer_config)).
Proof.
  eexists. split; [reflexivity|].
  assert (Ha : alpha (get_layer single_layer_config 0) = sqrt 56).
  { apply (layers_alpha single_layer_config). unfold layers. simpl.
    apply list_elem_of_singleton. reflexivity. }
  split; [|split].
  - intros x. rewrite GLMBlock_construct_wiring. cbv zeta. by rewrite Ha.
  - exact Ha.
  - rewrite Ha. simpl. intros H. apply sqrt_inj in H; lra.
Qed.

End Cells.

End Block.

(** ** Rotary position embedding *)

Module Rotary.

Local Open Scope R_scope.

(** [np.arange(0, dim, 2)]: the even numbers below [dim]. *)
Definition arange_step2 (dim : nat) : list nat :=
  (λ i, 2 * i)%nat <$> seq 0 (Nat.div2 (dim + 1)).

(** [inv_freq = 1. / (base ** (np.arange(0, dim, 2) / dim))] (line 135),
    for a positive [base]: [Rpower] is the power of the reals there, and
    the statements below are made for positive bases only (the one call
    site passes 10000). *)
Definition inv_freq (base : R) (dim : nat) : list R :=
  (λ e, 1 / Rpower base (INR e / INR dim)) <$> arange_step2 dim.

(** [freqs = np.outer(t, inv_freq)] with [t = np.arange(max_seq_len)]. *)
Definition freqs (base : R) (dim max_seq_len : nat) : list (list R) :=
  (λ t, (λ f, INR t * f) <$> inv_freq base dim) <$> seq 0 max_seq_len.

(** [emb = np.concatenate((freqs, freqs), axis=-1)]. *)
Definition emb (base : R) (dim max_seq_len : nat) : list (list R) :=
  (λ row, row ++ row) <$> freqs base dim max_seq_len.

(** [cos_cached] and [sin_cached], without the broadcast axis inserted by
    [np.expand_dims(_, 1)] and removed again by [squeeze(1)], and without
    the rounding to the storage precision. *)
Definition cos_cached (base : R) (dim max_seq_len : nat) : list (list R) :=
  fmap (M := list) (fmap (M := list) cos) (emb base dim max_seq_len).
Definition sin_cached (base : R) (dim max_seq_len : nat) : list (list R) :=
  fmap (M := list) (fmap (M := list) sin) (emb base dim max_seq_len).

(** [chunk(x, 2, -1)]: two chunks, the first of [ceil(n / 2)] entries. *)
Definition chunk2 (x : list R) : list R * list R :=
  let h := Nat.div2 (length x + 1) in (take h x, drop h x).

(** [rotate_half] (lines 147-150). *)
Definition rotate_half (x : list R) : list R :=
  let '(x1, x2) := chunk2 x in (Ropp <$> x2) ++ x1.

(** Entrywise product and sum of vectors of one width. *)
Definition mul (a b : list R) : list R := zip_with Rmult a b.
Definition add (a b : list R) : list R := zip_with Rplus a b.

(** [a * b] and [a + b] on the last axis of two tensors: the widths have
    to be equal or to broadcast. *)
Definition tensor_mul (a b : list R) : option (list R) :=
  Attention.broadcast (λ x y, Some (x * y)) a b.
Definition tensor_add (a b : list R) : option (list R) :=
  Attention.broadcast (λ x y, Some (x + y)) a b.

(** [apply_rotary_pos_emb_index] (lines 152-159) on the query and key
    vector of one head at one sequence position; [cos[position_id]] raises
    when the position lies outside the table. *)
Definition apply_rotary_pos_emb_index (q k : list R) (cos sin : list (list R))
    (position_id : nat) : option (list R * list R) :=
  cos ← cos !! position_id;
  sin ← sin !! position_id;
  q_cos ← tensor_mul q cos;
  q_sin ← tensor_mul (rotate_half q) sin;
  q' ← tensor_add q_cos q_sin;
  k_cos ← tensor_mul k cos;
  k_sin ← tensor_mul (rotate_half k) sin;
  k' ← tensor_add k_cos k_sin;
  Some (q', k').

(** The rotation frequency [theta_i = base^(-2i/dim)]. *)
Definition theta (base : R) (dim i : nat) : R :=
  Rpower base (- (2 * INR i / INR dim)).

Lemma div2_double_succ (h : nat) : Nat.div2 (2 * h + 1) = h.
Proof.
  replace (2 * h + 1)%nat with (S (2 * h)) by lia. apply Nat.div2_succ_double.
Qed.

Lemma inv_freq_theta (base : R) (h : nat) :
  inv_freq base (2 * h) = theta base (2 * h) <$> seq 0 h.
Proof.
  unfold inv_freq, arange_step2, theta.
  rewrite div2_double_succ, <- list_fmap_compose.
  apply list_fmap_ext. intros _ i _. simpl.
  rewrite Rpower_Ropp. unfold Rdiv at 1. rewrite Rmult_1_l.
  do 2 f_equal. unfold Rdiv. f_equal. rewrite !plus_INR. simpl. lra.
Qed.

Lemma emb_lookup (base : R) (h max_seq_len p : nat) :
  (p < max_seq_len)%nat →
  emb base (2 * h) max_seq_len !! p
  = Some (((λ i, INR p * theta base (2 * h) i) <$> seq 0 h)
          ++ ((λ i, INR p * theta base (2 * h) i) <$> seq 0 h)).
Proof.
  intros Hp. unfold emb, freqs.
  rewrite !list_lookup_fmap, lookup_seq_lt by done.
  cbn [fmap option_fmap option_map Nat.add].
  rewrite inv_freq_theta, <- list_fmap_compose. reflexivity.
Qed.

Lemma rotate_half_app (x1 x2 : list R) :
  length x1 = length x2 → rotate_half (x1 ++ x2) = (Ropp <$> x2) ++ x1.
Proof.
  intros Hlen. unfold rotate_half, chunk2.
  rewrite length_app, <- Hlen.
  replace (length x1 + length x1 + 1)%nat with (2 * length x1 + 1)%nat by lia.
  rewrite div2_double_succ, take_app_length, drop_app_length. reflexivity.
Qed.

Lemma rotate_half_length (x : list R) : length (rotate_half x) = length x.
Proof.
  unfold rotate_half, chunk2. rewrite length_app, length_fmap, length_drop, length_take.
  lia.
Qed.

Lemma tensor_mul_same (a b : list R) :
  length a = length b → tensor_mul a b = Some (mul a b).
Proof. intros Hlen. by apply Attention.broadcast_same. Qed.

Lemma tensor_add_same (a b : list R) :
  length a = length b → tensor_add a b = Some (add a b).
Proof. intros Hlen. by apply Attention.broadcast_same. Qed.

(** The rotation of vectors as wide as the table rows. *)
Lemma apply_rotary_same_width (q k : list R) (cos sin : list (list R))
    (position_id : nat) (c s : list R) :
  cos !! position_id = Some c →
  sin !! position_id = Some s →
  length s = length c →
  length q = length c →
  length k = length c →
  apply_rotary_pos_emb_index q k cos sin position_id
  = Some (add (mul q c) (mul (rotate_half q) s),
          add (mul k c) (mul (rotate_half k) s)).
Proof.
  intros Hc Hs Hsc Hq Hk. unfold apply_rotary_pos_emb_index.
  rewrite Hc, Hs. cbn [mbind option_bind].
  rewrite !tensor_mul_same by (rewrite ?rotate_half_length; congruence).
  cbn [mbind option_bind].
  rewrite !tensor_add_same
    by (unfold mul; rewrite !length_zip_with, ?rotate_half_length; lia).
  reflexivity.
Qed.

(** C9. Rotary embedding definition. For an even [dim], a positive [base]
    and a position [p] inside the table, [cos_cached[p]] is
    [cos(p*theta_0), ..., cos(p*theta_{dim/2-1})] twice over (likewise
    [sin_cached[p]]), where the frequencies [1 / base^(2i/dim)] the tables
    are built from are [theta_i = base^(-2i/dim)]; [rotate_half] sends
    [x1 ++ x2] with equal halves to [-x2 ++ x1]; and both the query and the
    key at position [p] are replaced by [x * cos(p) + rotate_half(x) *
    sin(p)], which mixes entry [i] of the first half with entry [i] of the
    second half by the angle [p * theta_i]. *)
Theorem rotary_embedding (base : R) (h max_seq_len p : nat) (q1 q2 k1 k2 : list R) :
  0 < base →
  (p < max_seq_len)%nat →
  length q1 = h → length q2 = h →
  length k1 = h → length k2 = h →
  let dim := (2 * h)%nat in
  let cos_p := (λ i, cos (INR p * theta base dim i)) <$> seq 0 h in
  let sin_p := (λ i, sin (INR p * theta base dim i)) <$> seq 0 h in
  let cos_t := cos_cached base dim max_seq_len in
  let sin_t := sin_cached base dim max_seq_len in
  let rotated x := add (mul x (cos_p ++ cos_p)) (mul (rotate_half x) (sin_p ++ sin_p)) in
  inv_freq base dim = (λ i, Rpower base (- (2 * INR i / INR dim))) <$> seq 0 h
  ∧ cos_t !! p = Some (cos_p ++ cos_p)
  ∧ sin_t !! p = Some (sin_p ++ sin_p)
  ∧ rotate_half (q1 ++ q2) = (Ropp <$> q2) ++ q1
  ∧ rotate_half (k1 ++ k2) = (Ropp <$> k2) ++ k1
  ∧ apply_rotary_pos_emb_index (q1 ++ q2) (k1 ++ k2) cos_t sin_t p
    = Some (rotated (q1 ++ q2), rotated (k1 ++ k2))
  ∧ ∀ x1 x2 i a b,
      length x1 = h → length x2 = h →
      x1 !! i = Some a → x2 !! i = Some b →
      rotated (x1 ++ x2) !! i
      = Some (a * cos (INR p * theta base dim i) - b * sin (INR p * theta base dim i))
      ∧ rotated (x1 ++ x2) !! (h + i)%nat
        = Some (b * cos (INR p * theta base dim i) + a * sin (INR p * theta base dim i)).
Proof.
  intros Hbase Hp Hq1 Hq2 Hk1 Hk2 dim cos_p sin_p cos_t sin_t rotated.
  assert (Hcos : cos_t !! p = Some (cos_p ++ cos_p)).
  { unfold cos_t, cos_cached, dim. rewrite list_lookup_fmap, emb_lookup by done.
    cbn [fmap option_fmap option_map].
    rewrite fmap_app, <- list_fmap_compose. reflexivity. }
  assert (Hsin : sin_t !! p = Some (sin_p ++ sin_p)).
  { unfold sin_t, sin_cached, dim. rewrite list_lookup_fmap, emb_lookup by done.
    cbn [fmap option_fmap option_map].
    rewrite fmap_app, <- list_fmap_compose. reflexivity. }
  split; [apply inv_freq_theta|].
  split; [exact Hcos|]. split; [exact Hsin|].
  split; [apply rotate_half_app; congruence|].
  split; [apply rotate_half_app; congruence|].
  split.
  { assert (Hlc : length (cos_p ++ cos_p) = (2 * h)%nat)
      by (unfold cos_p; rewrite length_app, !length_fmap, length_seq; lia).
    assert (Hls : length (sin_p ++ sin_p) = (2 * h)%nat)
      by (unfold sin_p; rewrite length_app, !length_fmap, length_seq; lia).
    apply apply_rotary_same_width;
      [exact Hcos | exact Hsin | lia
       | rewrite length_app; lia | rewrite length_app; lia]. }
  intros x1 x2 i a b Hx1 Hx2 Ha Hb.
  assert (Hi : (i < h)%nat) by (apply lookup_lt_Some in Ha; lia).
  assert (Hlc : length cos_p = h) by (unfold cos_p; by rewrite length_fmap, length_seq).
  assert (Hls : length sin_p = h) by (unfold sin_p; by rewrite length_fmap, length_seq).
  assert (Hci : cos_p !! i = Some (cos (INR p * theta base dim i))).
  { unfold cos_p. rewrite list_lookup_fmap, lookup_seq_lt by done. reflexivity. }
  assert (Hsi : sin_p !! i = Some (sin (INR p * theta base dim i))).
  { unfold sin_p. rewrite list_lookup_fmap, lookup_seq_lt by done. reflexivity. }
  unfold rotated. rewrite rotate_half_app by congruence. unfold add, mul. split.
  - rewrite !lookup_zip_with.
    rewrite !lookup_app_l by (rewrite ?length_fmap; lia).
    rewrite list_lookup_fmap, Ha, Hb, Hci, Hsi. simpl. f_equal; lra.
  - rewrite !lookup_zip_with.
    rewrite !lookup_app_r by (rewrite ?length_fmap; lia).
    rewrite ?length_fmap, Hx1, Hx2, Hlc, Hls.
    replace (h + i - h)%nat with i by lia.
    rewrite Ha, Hb, Hci, Hsi. simpl. f_equal; lra.
Qed.

(** [dim = 2], position 1: the table row, and the query [(1, 0)] and the
    key [(0, 1)] rotated by it. *)
Lemma rotary_embedding_witness :
  cos_cached 10000 2 4 !! 1%nat
    = Some [cos (INR 1 * theta 10000 2 0); cos (INR 1 * theta 10000 2 0)]
  ∧ apply_rotary_pos_emb_index [1; 0] [0; 1] (cos_cached 10000 2 4)
      (sin_cached 10000 2 4) 1
    = Some (add (mul [1; 0] [cos (INR 1 * theta 10000 2 0); cos (INR 1 * theta 10000 2 0)])
                (mul [- 0; 1] [sin (INR 1 * theta 10000 2 0); sin (INR 1 * theta 10000 2 0)]),
            add (mul [0; 1] [cos (INR 1 * theta 10000 2 0); cos (INR 1 * theta 10000 2 0)])
                (mul [- 1; 0] [sin (INR 1 * theta 10000 2 0); sin (INR 1 * theta 10000 2 0)])).
Proof.
  destruct (rotary_embedding 10000 1 4 1 [1] [0] [0] [1])
    as (_ & Hc & _ & _ & _ & Happ & _);
    [lra | lia | reflexivity | reflexivity | reflexivity | reflexivity |].
  split; [exact Hc | exact Happ].
Defined.

End Rotary.

(** ** The invalid-score processor *)

Module InvalidScore.

Import PrimFloat.

(** A score tensor is batch x vocabulary. IEEE binary64 stands in for the
    working precision: what matters below is NaN, the infinities, zero and
    one large finite number. *)
Abbreviation scores_t := (list (list float)).

(** [ops.isnan(scores).any()] and [ops.isinf(scores).any()]. *)
Definition isnan_any (scores : scores_t) : bool := existsb (existsb is_nan) scores.
Definition isinf_any (scores : scores_t) : bool := existsb (existsb is_infinity) scores.

(** [ops.zeros_like(scores)]. *)
Definition zeros_like (scores : scores_t) : scores_t :=
  (λ row, replicate (length row) 0%float) <$> scores.

(** [scores[..., i] = v]: an [IndexError] when the last axis has no
    index [i]. *)
Definition set_last_axis (i : nat) (v : float) (scores : scores_t) : option scores_t :=
  mapM (λ row, if decide (i < length row) then Some (<[i := v]> row) else None) scores.

(** [InvalidScoreLogitsProcessor.__call__] (lines 91-95). *)
Definition InvalidScoreLogitsProcessor (input_ids : list (list Z)) (scores : scores_t)
  : option scores_t :=
  if isnan_any scores || isinf_any scores
  then set_last_axis 5 5e4%float (zeros_like scores)
  else Some scores.

(** The row the processor substitutes: zero everywhere, [5e4] at index 5. *)
Definition fallback_row (n : nat) : list float :=
  <[5 := 5e4%float]> (replicate n 0%float).

(** The distribution with all mass on token 5. *)
Definition one_hot_5 (n : nat) : list float :=
  <[5 := 1%float]> (replicate n 0%float).

Definition fsum (row : list float) : float := foldr add 0%float row.

Definition finite (x : float) : bool := negb (is_nan x) && negb (is_infinity x).

Section Softmax.

(** The exponential of the tensor backend. Only two facts about it are
    used: [exp 0 = 1], and [exp (-5e4) = 0], the underflow of every IEEE
    format up to binary64 ([e^-50000] is below [10^-21714]). *)
Variable fexp : float → float.
Hypothesis fexp_0 : fexp 0%float = 1%float.
Hypothesis fexp_underflow : fexp (-5e4)%float = 0%float.

Definition fmax (row : list float) : float :=
  foldr (λ x m, if (m <? x)%float then x else m) neg_infinity row.

(** [ops.softmax(row, axis=-1)] in its overflow-safe form: the row maximum
    is subtracted before exponentiating. *)
Definition softmax (row : list float) : list float :=
  let m := fmax row in
  let e := (λ x, fexp (x - m)%float) <$> row in
  let z := fsum e in
  (λ y, (y / z)%float) <$> e.

Lemma fallback_row_split (n : nat) :
  5 < n →
  fallback_row n
  = replicate 5 0%float ++ 5e4%float :: replicate (n - 6) 0%float.
Proof.
  intros Hn. unfold fallback_row.
  replace n with (5 + S (n - 6)) at 1 by lia.
  rewrite replicate_add. reflexivity.
Qed.

Lemma one_hot_5_split (n : nat) :
  5 < n →
  one_hot_5 n = replicate 5 0%float ++ 1%float :: replicate (n - 6) 0%float.
Proof.
  intros Hn. unfold one_hot_5.
  replace n with (5 + S (n - 6)) at 1 by lia.
  rewrite replicate_add. reflexivity.
Qed.

Lemma fmax_cons (x : float) (row : list float) :
  fmax (x :: row) = if (fmax row <? x)%float then x else fmax row.
Proof. reflexivity. Qed.

Lemma fmax_zeros (m : nat) :
  fmax (replicate m 0%float) = 0%float ∨ fmax (replicate m 0%float) = neg_infinity.
Proof.
  induction m as [|m [IH|IH]]; [by right | left ..];
    cbn [replicate]; rewrite fmax_cons, IH; reflexivity.
Qed.

Lemma fmax_fallback (n : nat) : 5 < n → fmax (fallback_row n) = 5e4%float.
Proof.
  intros Hn. rewrite fallback_row_split by done.
  cbn [replicate app]. rewrite !fmax_cons.
  destruct (fmax_zeros (n - 6)) as [-> | ->]; reflexivity.
Qed.

Lemma fsum_zeros (m : nat) : fsum (replicate m 0%float) = 0%float.
Proof.
  induction m as [|m IH]; [reflexivity|].
  cbn [replicate]. unfold fsum in *. cbn [foldr]. rewrite IH. reflexivity.
Qed.

Lemma fsum_one_hot_5 (n : nat) : 5 < n → fsum (one_hot_5 n) = 1%float.
Proof.
  intros Hn. rewrite one_hot_5_split by done.
  pose proof (fsum_zeros (n - 6)) as Hz.
  unfold fsum in *. cbn [replicate app foldr]. rewrite Hz. reflexivity.
Qed.

(** The softmax of the substituted row puts all mass on token 5. *)
Lemma softmax_fallback (n : nat) : 5 < n → softmax (fallback_row n) = one_hot_5 n.
Proof.
  intros Hn. unfold softmax. rewrite fmax_fallback by done.
  assert (He : (λ x, fexp (x - 5e4)%float) <$> fallback_row n = one_hot_5 n).
  { rewrite fallback_row_split, one_hot_5_split by done.
    rewrite fmap_app, fmap_cons, !fmap_replicate.
    change (0 - 5e4)%float with (-5e4)%float.
    change (5e4 - 5e4)%float with 0%float.
    by rewrite fexp_0, fexp_underflow. }
  rewrite He, fsum_one_hot_5 by done.
  rewrite one_hot_5_split by done.
  rewrite fmap_app, fmap_cons, !fmap_replicate. reflexivity.
Qed.

Lemma one_hot_5_finite (n : nat) : Forall (λ p, finite p = true) (one_hot_5 n).
Proof.
  unfold one_hot_5. apply Forall_insert; [|reflexivity].
  apply Forall_replicate. reflexivity.
Qed.

End Softmax.

Lemma set_last_axis_zeros (scores : scores_t) :
  Forall (λ row, 5 < length row) scores →
  set_last_axis 5 5e4%float (zeros_like scores)
  = Some ((λ row, fallback_row (length row)) <$> scores).
Proof.
  intros Hw. unfold set_last_axis, zeros_like.
  apply mapM_Some. apply Forall2_fmap_l, Forall2_fmap_r.
  apply Forall_Forall2_diag.
  eapply Forall_impl; [exact Hw|]. intros row Hrow. unfold compose.
  rewrite length_replicate, decide_True by done. reflexivity.
Qed.

Lemma fallback_row_lookup (n j : nat) (x : float) :
  fallback_row n !! j = Some x →
  x = if decide (j = 5) then 5e4%float else 0%float.
Proof.
  unfold fallback_row. intros H.
  apply list_lookup_insert_Some in H as [(Hj & Hx & _) | (Hne & H)].
  - rewrite decide_True by congruence. congruence.
  - apply lookup_replicate in H as [-> _].
    rewrite decide_False by congruence. reflexivity.
Qed.

Lemma one_hot_5_lookup (n j : nat) :
  5 < n → j < n →
  one_hot_5 n !! j = Some (if decide (j = 5) then 1%float else 0%float).
Proof.
  intros Hn Hj. unfold one_hot_5. case_decide as Hj5.
  - subst j. apply list_lookup_insert_eq. by rewrite length_replicate.
  - rewrite list_lookup_insert_ne by congruence. by apply lookup_replicate_2.
Qed.

(** C8. Degenerate-score guard. On a score tensor with at least one NaN or
    Inf entry (and a vocabulary that contains token id 5) the processor
    returns, without raising, the tensor in which every row has the large
    finite score [5e4] at token id 5 and zero everywhere else; the softmax
    of such a row is free of NaN and Inf, sums to one and has all its mass
    on token id 5. *)
Theorem degenerate_score_guard (fexp : float → float)
    (input_ids : list (list Z)) (scores : scores_t) :
  fexp 0%float = 1%float →
  fexp (-5e4)%float = 0%float →
  isnan_any scores || isinf_any scores = true →
  Forall (λ row, 5 < length row) scores →
  ∃ out,
    InvalidScoreLogitsProcessor input_ids scores = Some out
    ∧ out = (λ row, fallback_row (length row)) <$> scores
    ∧ finite 5e4%float = true
    ∧ Forall (λ row,
        (∀ j x, row !! j = Some x →
                x = if decide (j = 5) then 5e4%float else 0%float)
        ∧ softmax fexp row = one_hot_5 (length row)
        ∧ (∀ j, j < length row →
             softmax fexp row !! j
             = Some (if decide (j = 5) then 1%float else 0%float))
        ∧ fsum (softmax fexp row) = 1%float
        ∧ Forall (λ p, finite p = true) (softmax fexp row)) out.
Proof.
  intros H0 Hu Hbad Hw.
  eexists. split; [|split; [reflexivity|split; [reflexivity|]]].
  { unfold InvalidScoreLogitsProcessor. rewrite Hbad.
    by apply set_last_axis_zeros. }
  apply Forall_fmap. eapply Forall_impl; [exact Hw|].
  intros row Hrow. unfold compose.
  assert (Hlen : length (fallback_row (length row)) = length row).
  { unfold fallback_row. by rewrite length_insert, length_replicate. }
  rewrite Hlen.
  assert (Hsm : softmax fexp (fallback_row (length row)) = one_hot_5 (length row))
    by (by apply softmax_fallback).
  split; [|split; [exact Hsm|split; [|split]]].
  - intros j x. apply fallback_row_lookup.
  - intros j Hj. rewrite Hsm. by apply one_hot_5_lookup.
  - rewrite Hsm. by apply fsum_one_hot_5.
  - rewrite Hsm. apply one_hot_5_finite.
Qed.

(** An exponential on binary64 in the usual shape: cut-offs for underflow
    and overflow, and in between a Taylor polynomial of the argument scaled
    down by [2^10], squared ten times. *)
Definition exp_poly (x : float) : float :=
  (1 + x * (1 + x / 2 * (1 + x / 3 * (1 + x / 4 * (1 + x / 5 * (1 + x / 6
     * (1 + x / 7 * (1 + x / 8))))))))%float.

Fixpoint square_times (n : nat) (y : float) : float :=
  match n with
  | O => y
  | S n' => square_times n' (y * y)%float
  end.

Definition exp_binary64 (x : float) : float :=
  if is_nan x then nan
  else if (x <? -746)%float then 0%float
  else if (710 <? x)%float then infinity
  else square_times 10 (exp_poly (x / 1024)%float).

(** A batch of one row over eight tokens whose logits contain a NaN and an
    infinity. *)
Lemma degenerate_score_guard_witness :
  ∃ out,
    InvalidScoreLogitsProcessor [[1; 2; 3]%Z]
      [[1%float; nan; 3%float; infinity; 0%float; 2%float; 7%float; 1%float]]
    = Some out
    ∧ out = [[0; 0; 0; 0; 0; 5e4; 0; 0]%float]
    ∧ softmax exp_binary64 <$> out = [[0; 0; 0; 0; 0; 1; 0; 0]%float].
Proof.
  destruct (degenerate_score_guard exp_binary64 [[1; 2; 3]%Z]
              [[1%float; nan; 3%float; infinity; 0%float; 2%float; 7%float; 1%float]])
    as (out & Hcall & Hout & _ & Hrows);
    [reflexivity | reflexivity | reflexivity | repeat constructor; simpl; lia |].
  exists out. split; [exact Hcall|]. split; [exact Hout|].
  rewrite Hout in Hrows |- *.
  apply Forall_cons in Hrows as [(_ & Hsm & _) _].
  cbn [fmap list_fmap]. rewrite Hsm. reflexivity.
Defined.

End InvalidScore.

(** ** The generation driver *)

Module Generation.

(** *** Exceptions *)

Inductive exn := ValueError | IndexError | ZeroDivisionError.

Inductive result (A : Type) : Type :=
| Ok (a : A)
| Raise (e : exn).
Arguments Ok {A} a.
Arguments Raise {A} e.

#[global] Instance result_ret : MRet result := λ A a, Ok a.
#[global] Instance result_bind : MBind result := λ A B f m,
  match m with
  | Ok a => f a
  | Raise e => Raise e
  end.
#[global] Instance result_fmap : FMap result := λ A B f m,
  match m with
  | Ok a => Ok (f a)
  | Raise e => Raise e
  end.

(** *** Inputs of a forward call *)

(** Position ids: [(batch, seq)] in 1-D mode, [(batch, 2, seq)] in 2-D
    mode, the two rows being the token positions and the block
    positions. *)
Inductive position_ids_t :=
| Pos1D (ids : list (list nat))
| Pos2D (ids : list (list nat * list nat)).

(** An attention mask argument: a boolean mask, or an array of another
    dtype, whose contents the code never reads. The dtype tests of the
    source are taken to agree with one another. *)
Inductive mask_arg :=
| BoolMask (m : Mask.mask)
| OtherMask.

(** The keyword state threaded through the loop; a key that is absent
    from the dictionary is [None]. *)
Record model_kwargs := {
  kw_attention_mask : option mask_arg;
  kw_position_ids : option position_ids_t;
  kw_start_pos : option nat;
  kw_bucket_size : option nat;
}.

(** [(input_ids, position_ids, attention_mask, start_pos, bucket_size)]. *)
Record model_inputs := {
  mi_input_ids : list (list Z);
  mi_position_ids : position_ids_t;
  mi_attention_mask : Mask.mask;
  mi_start_pos : nat;
  mi_bucket_size : nat;
}.

(** [seq.index(x)]: the first position of [x], or a [ValueError]. *)
Fixpoint index (x : Z) (seq : list Z) : result nat :=
  match seq with
  | [] => Raise ValueError
  | y :: seq' => if decide (y = x) then Ok 0 else S <$> index x seq'
  end.

(** [_, seq_length = input_ids.shape]; a batch without rows is given the
    width 0. *)
Definition seq_length (input_ids : list (list Z)) : nat :=
  match input_ids with
  | [] => 0
  | row :: _ => length row
  end.

(** [x[..., -1:]] on one row. *)
Definition last_slice {A} (row : list A) : list A := drop (length row - 1) row.

Section Prepare.

Variable config : ChatGLMConfig.

(** [ChatGLMPreTrainedModel.get_masks] (lines 559-569): lower triangular,
    with the context columns opened, then inverted by [< 0.5]. *)
Definition get_masks (input_ids : list (list Z)) : result Mask.mask :=
  let seq_length := seq_length input_ids in
  context_lengths ← mapM (index (bos_token_id config)) input_ids;
  Ok ((λ context_length,
         (λ r, (λ c, negb (bool_decide (c ≤ r) || bool_decide (c < context_length)))
                 <$> seq 0 seq_length)
           <$> seq 0 seq_length)
        <$> context_lengths).

(** [ChatGLMPreTrainedModel.get_position_ids] (lines 571-595). *)
Definition get_position_ids (input_ids : list (list Z))
    (mask_positions : list nat) (use_gmasks : list bool) : result position_ids_t :=
  let seq_length := seq_length input_ids in
  context_lengths ← mapM (index (bos_token_id config)) input_ids;
  if position_encoding_2d config then
    Ok (Pos2D
          (zip_with
             (λ context_length mask_position,
                ((λ j, if decide (j < context_length) then j else mask_position)
                   <$> seq 0 seq_length,
                 replicate context_length 0
                   ++ (S <$> seq 0 (seq_length - context_length))))
             context_lengths mask_positions))
  else
    Ok (Pos1D
          (zip_with
             (λ context_length '(mask_position, use_gmask),
                (λ j, if decide (j < context_length) then j
                      else if (use_gmask : bool) then j else mask_position)
                  <$> seq 0 seq_length)
             context_lengths (zip mask_positions use_gmasks))).

(** The loop of lines 825-829 on one sequence. *)
Definition scan_mask_token (seq : list Z) : result (nat * bool) :=
  let mask_token :=
    if bool_decide (gmask_token_id config ∈ seq)
    then gmask_token_id config else mask_token_id config in
  let use_gmask := bool_decide (mask_token = gmask_token_id config) in
  mask_position ← index mask_token seq;
  Ok (mask_position, use_gmask).

(** [prepare_inputs_for_generation] (lines 812-869). *)
Definition prepare_inputs_for_generation (input_ids : list (list Z))
    (kw : model_kwargs) : result model_inputs :=
  let seq_length := seq_length input_ids in
  scans ← mapM scan_mask_token input_ids;
  let mask_positions := scans.*1 in
  let use_gmasks := scans.*2 in
  let bucket_size := default 512 (kw_bucket_size kw) in
  if decide (bucket_size = 0) then Raise ZeroDivisionError else
  let bucket_size := (seq_length `div` bucket_size + 1) * bucket_size in
  match kw_start_pos kw with
  | Some start_pos =>
      last_token ←
        mapM (λ row, match last row with
                     | Some t => Ok [t]
                     | None => Raise IndexError
                     end) input_ids;
      let attention_mask :=
        match kw_attention_mask kw with
        | Some (BoolMask m) => last_slice <$> m
        | _ => [[[false]]]
        end in
      position_ids ←
        match kw_position_ids kw with
        | Some (Pos1D ids) => Ok (Pos1D (last_slice <$> ids))
        | Some (Pos2D ids) => Ok (Pos2D ((λ '(p, b), (last_slice p, last_slice b)) <$> ids))
        | None =>
            context_lengths ← mapM (index (bos_token_id config)) input_ids;
            if position_encoding_2d config then
              Ok (Pos2D (zip_with
                           (λ mask_position context_length,
                              ([mask_position], [seq_length - context_length]))
                           mask_positions context_lengths))
            else
              Ok (Pos1D ((λ mask_position, [mask_position]) <$> mask_positions))
        end;
      Ok {| mi_input_ids := last_token; mi_position_ids := position_ids;
            mi_attention_mask := attention_mask; mi_start_pos := start_pos;
            mi_bucket_size := bucket_size |}
  | None =>
      attention_mask ←
        match kw_attention_mask kw with
        | Some (BoolMask m) => Ok m
        | _ => get_masks input_ids
        end;
      position_ids ←
        match kw_position_ids kw with
        | Some ids => Ok ids
        | None => get_position_ids input_ids mask_positions use_gmasks
        end;
      Ok {| mi_input_ids := input_ids; mi_position_ids := position_ids;
            mi_attention_mask := attention_mask; mi_start_pos := 0;
            mi_bucket_size := bucket_size |}
  end.

End Prepare.

(** [_update_model_kwargs_for_generation] (lines 778-810). The slice
    [position_ids[..., -1:]] is a fresh tensor; in 1-D mode the index
    [[:, 1, :]] has one index too many. *)
Definition update_attention_mask (m : Mask.mask) : Mask.mask :=
  (λ rows,
     let rows := (λ r, r ++ [true]) <$> rows in
     let new_rows := (λ r, <[length r - 1 := false]> r) <$> last_slice rows in
     rows ++ new_rows) <$> m.

Definition update_position_ids (ids : position_ids_t) : result position_ids_t :=
  match ids with
  | Pos1D _ => Raise IndexError
  | Pos2D ids =>
      Ok (Pos2D ((λ '(p, b), (p ++ last_slice p, b ++ (S <$> last_slice b))) <$> ids))
  end.

Definition _update_model_kwargs_for_generation (start_pos : nat) (kw : model_kwargs)
  : result model_kwargs :=
  let attention_mask :=
    match kw_attention_mask kw with
    | Some (BoolMask m) => Some (BoolMask (update_attention_mask m))
    | other => other
    end in
  position_ids ←
    match kw_position_ids kw with
    | Some ids => Some <$> update_position_ids ids
    | None => Ok None
    end;
  Ok {| kw_attention_mask := attention_mask; kw_position_ids := position_ids;
        kw_start_pos := Some start_pos; kw_bucket_size := kw_bucket_size kw |}.

(** *** End-of-sequence bookkeeping *)

(** [generation_config.eos_token_id]: one id or a list of ids. *)
Inductive eos_setting :=
| EosInt (i : Z)
| EosList (ids : list Z).

(** Lines 1022-1023. *)
Definition eos_ids (e : eos_setting) : list Z :=
  match e with
  | EosInt i => [i]
  | EosList ids => ids
  end.

(** 64-bit two's complement, the dtype produced by [.long()]. *)
Definition wrap64 (z : Z) : Z := ((z + 2 ^ 63) `mod` 2 ^ 64 - 2 ^ 63)%Z.

(** [sum(next_tokens != i for i in eos_token_id)] for one batch element. *)
Definition ne_count (next_token : Z) (eos_token_id : list Z) : Z :=
  foldr (λ i acc, ((if decide (next_token ≠ i) then 1 else 0) + acc)%Z) 0%Z eos_token_id.

(** Line 1101. *)
Definition update_unfinished (unfinished_sequences next_tokens : list Z)
    (eos_token_id : list Z) : list Z :=
  zip_with (λ u t, wrap64 (u * ne_count t eos_token_id))
    unfinished_sequences next_tokens.

(** [unfinished_sequences.max()]; an empty tensor has no maximum. *)
Definition tensor_max (t : list Z) : result Z :=
  match t with
  | [] => Raise ValueError
  | x :: t' => Ok (foldr Z.max x t')
  end.

(** Modelled from the spec: the stopping criterion consulted at line 1104
    is built by [_get_stopping_criteria], which is not part of this file;
    the max-length check of the specification stops once the sequence
    length has reached the configured maximum. *)
Definition MaxLengthCriteria (max_length : nat) (input_ids : list (list Z)) : bool :=
  bool_decide (max_length ≤ seq_length input_ids).

(** *** The loop of [stream_generate] *)

Section Driver.

(** The model object: weights, the per-layer caches, the sampler. *)
Context {Model : Type}.

Variable config : ChatGLMConfig.

(** [eos_token_id] after line 1023. *)
Variable eos_token_id : list Z.

(** [stopping_criteria(input_ids, scores)]; [scores] is always [None]. *)
Variable stopping_criteria : list (list Z) → bool.

(** Lines 1076-1093: the forward pass on the prepared inputs ([construct]
    in the first iteration, its compiled form [compile_and_run] afterwards),
    the logits processors and warpers (which also see [input_ids]), the
    softmax and the choice of the next token of every batch element, by
    arg-max or by sampling. The first component is the model after the
    pass. *)
Variable run_model : Model → model_inputs → list (list Z) → Model * (nat → Z).

(** The variables of the loop; [forward_calls] is a ghost counter of the
    forward passes made so far. *)
Record state := {
  model : Model;
  input_ids : list (list Z);
  kwargs : model_kwargs;
  unfinished_sequences : list Z;
  forward_calls : nat;
}.

(** One iteration ends at the [yield], at the [break], or in an
    exception, which leaves behind the model and the ghost counter. *)
Inductive outcome :=
| Yield (st : state)
| Break (st : state)
| Fail (e : exn) (m : Model) (calls : nat).

(** [ops.concat([input_ids, next_tokens[:, None]], axis=-1)] (line 1096). *)
Definition append_tokens (input_ids : list (list Z)) (next_tokens : list Z)
  : list (list Z) :=
  zip_with (λ row t, row ++ [t]) input_ids next_tokens.

(** Lines 1069-1071. *)
Definition init_state (m : Model) (input_ids : list (list Z)) (kw : model_kwargs) : state :=
  {| model := m; input_ids := input_ids; kwargs := kw;
     unfinished_sequences := replicate (length input_ids) 1%Z;
     forward_calls := 0 |}.

(** The body of [while True] (lines 1074-1106), for a forward pass that
    returns; [checked_step] below adds the shape checks of the pass. *)
Definition step (st : state) : outcome :=
  match prepare_inputs_for_generation config (input_ids st) (kwargs st) with
  | Raise e => Fail e (model st) (forward_calls st)
  | Ok model_inputs =>
      let '(model', pick) := run_model (model st) model_inputs (input_ids st) in
      let calls := S (forward_calls st) in
      let next_tokens := pick <$> seq 0 (length (input_ids st)) in
      let input_ids' := append_tokens (input_ids st) next_tokens in
      let start_pos := seq_length input_ids' in
      match _update_model_kwargs_for_generation start_pos (kwargs st) with
      | Raise e => Fail e model' calls
      | Ok kwargs' =>
          let unfinished :=
            update_unfinished (unfinished_sequences st) next_tokens eos_token_id in
          match tensor_max unfinished with
          | Raise e => Fail e model' calls
          | Ok mx =>
              let st' := {| model := model'; input_ids := input_ids';
                            kwargs := kwargs'; unfinished_sequences := unfinished;
                            forward_calls := calls |} in
              if bool_decide (mx = 0%Z) || stopping_criteria input_ids'
              then Break st' else Yield st'
          end
      end
  end.

(** How a run of the generator ends. *)
Inductive ending :=
| Finished (st : state)
| Raised (e : exn) (m : Model) (calls : nat).

(** The generator, run for at most [fuel] iterations: the sequences it
    yields, in order, and how it ended ([None]: still running). *)
Fixpoint stream_generate_loop (fuel : nat) (st : state)
  : list (list (list Z)) * option ending :=
  match fuel with
  | O => ([], None)
  | S fuel' =>
      match step st with
      | Yield st' =>
          let '(yielded, e) := stream_generate_loop fuel' st' in
          (input_ids st' :: yielded, e)
      | Break st' => ([], Some (Finished st'))
      | Fail e m calls => ([], Some (Raised e m calls))
      end
  end.

Definition stream_generate (fuel : nat) (m : Model) (input_ids : list (list Z))
    (kw : model_kwargs) : list (list (list Z)) * option ending :=
  stream_generate_loop fuel (init_state m input_ids kw).

End Driver.

(** *** Facts about the end-of-sequence bookkeeping *)

Lemma wrap64_small (z : Z) : (- 2 ^ 63 ≤ z < 2 ^ 63)%Z → wrap64 z = z.
Proof.
  intros Hz. unfold wrap64. rewrite Z.mod_small by lia. lia.
Qed.

Lemma ne_count_single (t e : Z) :
  ne_count t [e] = if decide (t = e) then 0%Z else 1%Z.
Proof.
  unfold ne_count. simpl. repeat case_decide; congruence || lia.
Qed.

(** When no configured id is matched the factor is the number of ids. *)
Lemma ne_count_no_match (t : Z) (eos_token_id : list Z) :
  t ∉ eos_token_id → ne_count t eos_token_id = Z.of_nat (length eos_token_id).
Proof.
  induction eos_token_id as [|e eos IH]; [reflexivity|].
  intros Hnot. apply not_elem_of_cons in Hnot as [Hne Hnot].
  unfold ne_count in *. cbn [foldr length]. rewrite IH by done.
  rewrite decide_True by done. lia.
Qed.

(** With one configured id a flag in [{0, 1}] is cleared exactly by that
    id. *)
Lemma update_unfinished_single (u t e : Z) :
  u = 0%Z ∨ u = 1%Z →
  update_unfinished [u] [t] (eos_ids (EosInt e))
  = [if decide (t = e) then 0%Z else u].
Proof.
  intros Hu. unfold update_unfinished. cbn [eos_ids zip_with].
  rewrite ne_count_single. f_equal.
  case_decide; destruct Hu as [-> | ->]; reflexivity.
Qed.

(** A cleared flag stays cleared, whatever is produced later. *)
Lemma update_unfinished_finished (t : Z) (eos_token_id : list Z) :
  update_unfinished [0%Z] [t] eos_token_id = [0%Z].
Proof. reflexivity. Qed.

(** C5. EOS marking, evaluated with two configured end-of-sequence ids
    [2] and [3]: a batch element that produces the id [2] (or the id [3])
    keeps its unfinished flag, because the factor is the number of ids the
    token differs from, which is [1] and not [0]; and a token that matches
    neither id doubles the flag. With the single id [2] the flag is
    cleared by the token [2]. *)
Theorem eos_marking_two_ids :
  eos_ids (EosList [2; 3]%Z) = [2; 3]%Z
  ∧ update_unfinished [1%Z] [2%Z] (eos_ids (EosList [2; 3]%Z)) = [1%Z]
  ∧ update_unfinished [1%Z] [3%Z] (eos_ids (EosList [2; 3]%Z)) = [1%Z]
  ∧ update_unfinished [1%Z] [7%Z] (eos_ids (EosList [2; 3]%Z)) = [2%Z]
  ∧ update_unfinished [1%Z] [2%Z] (eos_ids (EosInt 2%Z)) = [0%Z].
Proof. repeat split; reflexivity. Qed.

(** With two configured ids and no match the flag doubles at every step;
    in 64-bit arithmetic it is zero after 64 steps. *)
Lemma two_ids_flag_wraps :
  Nat.iter 63 (λ u, update_unfinished u [7%Z] [2; 3]%Z) [1%Z] = [(- 2 ^ 63)%Z]
  ∧ Nat.iter 64 (λ u, update_unfinished u [7%Z] [2; 3]%Z) [1%Z] = [0%Z].
Proof. split; vm_compute; reflexivity. Qed.

(** *** Facts about [index] and the exception monad *)

Lemma index_not_elem (x : Z) (seq : list Z) :
  x ∉ seq → index x seq = Raise ValueError.
Proof.
  induction seq as [|y seq IH]; [reflexivity|].
  intros Hnot. apply not_elem_of_cons in Hnot as [Hne Hnot].
  simpl. rewrite decide_False by congruence. by rewrite IH.
Qed.

Lemma index_elem (x : Z) (seq : list Z) :
  x ∈ seq → ∃ n, index x seq = Ok n ∧ seq !! n = Some x.
Proof.
  induction seq as [|y seq IH]; [by intros ?%elem_of_nil|].
  intros Hin. simpl. case_decide as Hy.
  - exists 0. by subst.
  - apply elem_of_cons in Hin as [-> | Hin]; [done|].
    destruct (IH Hin) as (n & -> & Hn). by exists (S n).
Qed.

Lemma index_cases (x : Z) (seq : list Z) :
  index x seq = Raise ValueError ∨ ∃ n, index x seq = Ok n.
Proof.
  destruct (decide (x ∈ seq)) as [Hin | Hnot].
  - right. destruct (index_elem x seq Hin) as (n & Hn & _). eauto.
  - left. by apply index_not_elem.
Qed.

(** [mapM] raises as soon as one element raises, provided no element
    before it raises something else. *)
Lemma mapM_raise {A B} (f : A → result B) (l : list A) (e : exn) :
  Exists (λ x, f x = Raise e) l →
  Forall (λ x, f x = Raise e ∨ ∃ y, f x = Ok y) l →
  mapM f l = Raise e.
Proof.
  induction l as [|x l IH]; [by intros ?%Exists_nil|].
  intros Hex Hall. apply Forall_cons in Hall as [Hx Hall].
  cbn [mapM]. destruct Hx as [-> | [y Hy]]; [reflexivity|].
  rewrite Hy. cbn [mbind result_bind].
  apply Exists_cons in Hex as [Hex | Hex]; [congruence|].
  by rewrite IH.
Qed.

Lemma mapM_ok {A B} (f : A → result B) (l : list A) :
  Forall (λ x, ∃ y, f x = Ok y) l →
  ∃ ys, mapM f l = Ok ys ∧ Forall2 (λ x y, f x = Ok y) l ys.
Proof.
  induction l as [|x l IH]; [by exists []|].
  intros Hall. apply Forall_cons in Hall as [[y Hy] Hall].
  destruct (IH Hall) as (ys & Hys & Hlen).
  exists (y :: ys). cbn [mapM]. rewrite Hy, Hys. split; [done|].
  by constructor.
Qed.

(** *** The tokens a prompt has to contain *)

(** A sequence without [gMASK] and without [MASK]. *)
Definition lacks_mask_token (config : ChatGLMConfig) (seq : list Z) : Prop :=
  (gmask_token_id config ∉ seq) ∧ (mask_token_id config ∉ seq).

Definition lacks_bos (config : ChatGLMConfig) (seq : list Z) : Prop :=
  bos_token_id config ∉ seq.

Definition is_bool_mask (a : option mask_arg) : bool :=
  match a with
  | Some (BoolMask _) => true
  | _ => false
  end.

Definition absent {A} (o : option A) : bool :=
  match o with
  | None => true
  | Some _ => false
  end.

(** The calls that look the [bos] token up: a decode call without
    position ids, and a prefill call that has to build the mask (no
    boolean mask was supplied) or the position ids. *)
Definition needs_bos (kw : model_kwargs) : bool :=
  match kw_start_pos kw with
  | Some _ => absent (kw_position_ids kw)
  | None => negb (is_bool_mask (kw_attention_mask kw)) || absent (kw_position_ids kw)
  end.

Lemma scan_mask_token_cases (config : ChatGLMConfig) (seq : list Z) :
  (lacks_mask_token config seq ∧ scan_mask_token config seq = Raise ValueError)
  ∨ (¬ lacks_mask_token config seq ∧ seq ≠ []
     ∧ ∃ r, scan_mask_token config seq = Ok r).
Proof.
  unfold scan_mask_token, lacks_mask_token.
  destruct (decide (gmask_token_id config ∈ seq)) as [Hg | Hg].
  - rewrite (bool_decide_eq_true_2 (gmask_token_id config ∈ seq)) by done.
    right. split; [by intros [? ?]|].
    split; [intros ->; by apply elem_of_nil in Hg|].
    destruct (index_elem _ _ Hg) as (n & -> & _). cbn. eauto.
  - rewrite (bool_decide_eq_false_2 (gmask_token_id config ∈ seq)) by done.
    destruct (decide (mask_token_id config ∈ seq)) as [Hm | Hm].
    + right. split; [by intros [? ?]|].
      split; [intros ->; by apply elem_of_nil in Hm|].
      destruct (index_elem _ _ Hm) as (n & -> & _). cbn. eauto.
    + left. split; [done|]. by rewrite index_not_elem.
Qed.

Lemma scan_all_raise (config : ChatGLMConfig) (input_ids : list (list Z)) :
  Exists (lacks_mask_token config) input_ids →
  mapM (scan_mask_token config) input_ids = Raise ValueError.
Proof.
  intros Hex. apply mapM_raise.
  - eapply Exists_impl; [exact Hex|]. intros seq Hseq.
    destruct (scan_mask_token_cases config seq) as [[_ H] | [H _]]; tauto.
  - apply Forall_forall. intros seq _.
    destruct (scan_mask_token_cases config seq) as [[_ H] | (_ & _ & H)]; eauto.
Qed.

Lemma scan_all_ok (config : ChatGLMConfig) (input_ids : list (list Z)) :
  Forall (λ seq, ¬ lacks_mask_token config seq) input_ids →
  ∃ scans, mapM (scan_mask_token config) input_ids = Ok scans
           ∧ length scans = length input_ids.
Proof.
  intros Hall.
  cut (∃ scans, mapM (scan_mask_token config) input_ids = Ok scans
                ∧ Forall2 (λ x y, scan_mask_token config x = Ok y) input_ids scans).
  { intros (scans & H & Hlen%Forall2_length). eauto. }
  apply mapM_ok.
  eapply Forall_impl; [exact Hall|]. intros seq Hseq.
  destruct (scan_mask_token_cases config seq) as [[H _] | (_ & _ & H)];
    [done | exact H].
Qed.

Lemma bos_all_raise (config : ChatGLMConfig) (input_ids : list (list Z)) :
  Exists (lacks_bos config) input_ids →
  mapM (index (bos_token_id config)) input_ids = Raise ValueError.
Proof.
  intros Hex. apply mapM_raise.
  - eapply Exists_impl; [exact Hex|]. intros seq Hseq. by apply index_not_elem.
  - apply Forall_forall. intros seq _. apply index_cases.
Qed.

Lemma bos_all_ok (config : ChatGLMConfig) (input_ids : list (list Z)) :
  Forall (λ seq, ¬ lacks_bos config seq) input_ids →
  ∃ context_lengths, mapM (index (bos_token_id config)) input_ids = Ok context_lengths.
Proof.
  intros Hall.
  destruct (mapM_ok (index (bos_token_id config)) input_ids) as (cls & H & _); [|eauto].
  eapply Forall_impl; [exact Hall|]. intros seq Hseq. unfold lacks_bos in Hseq.
  destruct (index_cases (bos_token_id config) seq) as [Hraise | H]; [|exact H].
  destruct (decide (bos_token_id config ∈ seq)) as [Hin | Hnot]; [|done].
  destruct (index_elem _ _ Hin) as (n & Hn & _). eauto.
Qed.

Lemma last_token_ok (input_ids : list (list Z)) :
  Forall (λ seq, seq ≠ []) input_ids →
  ∃ toks, mapM (λ row, match last row with
                       | Some t => Ok [t]
                       | None => Raise IndexError
                       end) input_ids = Ok toks
          ∧ length toks = length input_ids
          ∧ Forall (λ row, length row = 1) toks.
Proof.
  intros Hall.
  destruct (mapM_ok (λ row, match last row with
                            | Some t => Ok [t]
                            | None => Raise IndexError
                            end) input_ids) as (toks & H & H2).
  { eapply Forall_impl; [exact Hall|]. intros seq Hseq. cbn beta.
    destruct (last seq) eqn:Hlast; [eauto|]. by apply last_None in Hlast. }
  exists toks. split; [exact H|]. split; [by apply Forall2_length in H2|].
  clear H Hall. induction H2 as [|seq row l k Hrow _ IH]; [constructor|].
  constructor; [|exact IH].
  destruct (last seq); by inversion Hrow.
Qed.

Lemma has_mask_token_nonempty (config : ChatGLMConfig) (input_ids : list (list Z)) :
  Forall (λ seq, ¬ lacks_mask_token config seq) input_ids →
  Forall (λ seq, seq ≠ []) input_ids.
Proof.
  intros Hall. eapply Forall_impl; [exact Hall|]. intros seq Hseq.
  destruct (scan_mask_token_cases config seq) as [[H _] | (_ & H & _)]; done.
Qed.

#[global] Instance lacks_mask_token_dec config seq : Decision (lacks_mask_token config seq).
Proof. unfold lacks_mask_token. apply _. Defined.

#[global] Instance lacks_bos_dec config seq : Decision (lacks_bos config seq).
Proof. unfold lacks_bos. apply _. Defined.

(** A missing token makes the generator raise in its first iteration,
    before the model is run. *)
Lemma stream_generate_raise {Model : Type} (config : ChatGLMConfig)
    (eos_token_id : list Z) (stopping_criteria : list (list Z) → bool)
    (run_model : Model → model_inputs → list (list Z) → Model * (nat → Z))
    (fuel : nat) (m : Model) (ids : list (list Z)) (kw : model_kwargs) (e : exn) :
  prepare_inputs_for_generation config ids kw = Raise e →
  stream_generate config eos_token_id stopping_criteria run_model (S fuel) m ids kw
  = ([], Some (Raised e m 0)).
Proof.
  intros Hprep. unfold stream_generate. cbn [stream_generate_loop].
  unfold step. cbn [init_state input_ids kwargs model forward_calls].
  by rewrite Hprep.
Qed.

(** C10. Prompt-content precondition. Every input sequence has to contain
    the gmask or the mask token, and, in the calls that build the mask or
    the position ids (a prefill without a boolean attention mask or without
    position ids, a decode call without position ids), the bos token: when
    a required token is absent from some sequence, preparing the inputs
    raises [ValueError], and the generator raises it in its first
    iteration without having run a forward pass. *)
Theorem prompt_precondition (config : ChatGLMConfig)
    (input_ids : list (list Z)) (kw : model_kwargs) :
  Exists (lacks_mask_token config) input_ids
  ∨ (default 512 (kw_bucket_size kw) ≠ 0
     ∧ needs_bos kw = true
     ∧ Exists (lacks_bos config) input_ids) →
  prepare_inputs_for_generation config input_ids kw = Raise ValueError
  ∧ ∀ (Model : Type) (eos_token_id : list Z)
      (stopping_criteria : list (list Z) → bool)
      (run_model : Model → model_inputs → list (list Z) → Model * (nat → Z))
      (fuel : nat) (m : Model),
      stream_generate config eos_token_id stopping_criteria run_model
        (S fuel) m input_ids kw
      = ([], Some (Raised ValueError m 0)).
Proof.
  intros Hmissing.
  assert (Hprep : prepare_inputs_for_generation config input_ids kw = Raise ValueError).
  { unfold prepare_inputs_for_generation.
    destruct (decide (Exists (lacks_mask_token config) input_ids)) as [Hm | Hm].
    { by rewrite scan_all_raise. }
    destruct Hmissing as [? | (Hbucket & Hneeds & Hbos)]; [done|].
    apply not_Exists_Forall in Hm; [|apply _].
    destruct (scan_all_ok config input_ids Hm) as (scans & -> & _).
    cbn [mbind result_bind]. rewrite decide_False by done.
    unfold needs_bos in Hneeds.
    destruct (kw_start_pos kw) as [start_pos|].
    - destruct (last_token_ok input_ids) as (toks & -> & _);
        [by eapply has_mask_token_nonempty|].
      cbn [mbind result_bind].
      destruct (kw_position_ids kw); [discriminate|].
      by rewrite bos_all_raise.
    - destruct (is_bool_mask (kw_attention_mask kw)) eqn:Hmask.
      + destruct (kw_attention_mask kw) as [[mask|]|]; try discriminate.
        cbn [mbind result_bind].
        destruct (kw_position_ids kw); [discriminate|].
        unfold get_position_ids. by rewrite bos_all_raise.
      + assert (Hget : get_masks config input_ids = Raise ValueError).
        { unfold get_masks. by rewrite bos_all_raise. }
        destruct (kw_attention_mask kw) as [[mask|]|]; try discriminate;
          by rewrite Hget. }
  split; [exact Hprep|].
  intros Model eos_token_id stopping_criteria run_model fuel m.
  by apply stream_generate_raise.
Qed.

(** A small configuration; the last three token ids of its vocabulary
    are [MASK], [gMASK] and [bos]. *)
Definition example_config : ChatGLMConfig :=
  {| max_sequence_length := 16; hidden_size := 8; num_attention_heads := 2;
     num_layers := 2; vocab_size := 32; layernorm_epsilon := (1 / 100000)%R;
     inner_hidden_size := None; position_encoding_2d := true;
     pre_seq_len := None; bos_token_id := 30; mask_token_id := 28;
     gmask_token_id := 29 |}.

(** A call that passes nothing but the prompt. *)
Definition no_kwargs : model_kwargs :=
  {| kw_attention_mask := None; kw_position_ids := None;
     kw_start_pos := None; kw_bucket_size := None |}.

(** Closes a goal [x ∉ l] on a literal list. *)
Ltac not_in_literal :=
  let H := fresh in
  intros H;
  repeat (apply elem_of_cons in H as [H | H]; [discriminate H|]);
  by apply elem_of_nil in H.

(** Closes a goal [x ∈ l] on a literal list. *)
Ltac in_literal :=
  cbn; repeat first [apply list_elem_of_here | apply list_elem_of_further].

(** A prompt that ends in [bos] but carries neither mask token. *)
Lemma prompt_precondition_witness :
  prepare_inputs_for_generation example_config [[5; 6; 30]%Z] no_kwargs
  = Raise ValueError.
Proof.
  apply (prompt_precondition example_config [[5; 6; 30]%Z] no_kwargs).
  left. apply Exists_cons_hd. split; not_in_literal.
Defined.

(** *** When the inputs can be prepared *)

Lemma prepare_inputs_ok (config : ChatGLMConfig) (ids : list (list Z))
    (kw : model_kwargs) :
  Forall (λ seq, ¬ lacks_mask_token config seq) ids →
  (needs_bos kw = true → Forall (λ seq, ¬ lacks_bos config seq) ids) →
  default 512 (kw_bucket_size kw) ≠ 0 →
  ∃ mi, prepare_inputs_for_generation config ids kw = Ok mi
        ∧ mi_start_pos mi = default 0 (kw_start_pos kw)
        ∧ match kw_start_pos kw with
          | None => mi_input_ids mi = ids
          | Some _ => length (mi_input_ids mi) = length ids
                      ∧ Forall (λ row, length row = 1) (mi_input_ids mi)
          end.
Proof.
  intros Hmask Hbos Hbucket. unfold prepare_inputs_for_generation.
  destruct (scan_all_ok config ids Hmask) as (scans & -> & _).
  cbn [mbind result_bind]. rewrite decide_False by done.
  unfold needs_bos in Hbos.
  destruct (kw_start_pos kw) as [start_pos|].
  - destruct (last_token_ok ids) as (toks & -> & Hlen & Hone);
      [by eapply has_mask_token_nonempty|].
    cbn [mbind result_bind].
    destruct (kw_position_ids kw) as [[ids1 | ids2]|];
      cbn [mbind result_bind]; [by eauto | by eauto |].
    destruct (bos_all_ok config ids (Hbos eq_refl)) as (cls & ->).
    cbn [mbind result_bind].
    destruct (position_encoding_2d config); cbn [mbind result_bind]; by eauto.
  - assert (Hmasks : ∃ m, match kw_attention_mask kw with
                          | Some (BoolMask m) => Ok m
                          | _ => get_masks config ids
                          end = Ok m).
    { destruct (kw_attention_mask kw) as [[m|]|]; [by eauto | |];
        (destruct (bos_all_ok config ids (Hbos eq_refl)) as (cls & Hcls);
         unfold get_masks; rewrite Hcls; cbn [mbind result_bind]; by eauto). }
    destruct Hmasks as (m & ->). cbn [mbind result_bind].
    destruct (kw_position_ids kw) as [pids|]; cbn [mbind result_bind]; [by eauto|].
    assert (Hall : Forall (λ seq, ¬ lacks_bos config seq) ids).
    { apply Hbos. by rewrite orb_true_r. }
    destruct (bos_all_ok config ids Hall) as (cls & Hcls).
    unfold get_position_ids. rewrite Hcls. cbn [mbind result_bind].
    destruct (position_encoding_2d config); cbn [mbind result_bind]; by eauto.
Qed.

(** *** Appending the new tokens *)

Lemma append_tokens_length (ids : list (list Z)) (toks : list Z) :
  length toks = length ids → length (append_tokens ids toks) = length ids.
Proof.
  intros Hlen. unfold append_tokens. rewrite length_zip_with. lia.
Qed.

(** A property of rows that survives appending a token survives
    [append_tokens]. *)
Lemma append_tokens_Forall (P Q : list Z → Prop) (ids : list (list Z)) (toks : list Z) :
  (∀ row t, P row → Q (row ++ [t])) →
  Forall P ids → Forall Q (append_tokens ids toks).
Proof.
  intros Hstep Hall. revert toks.
  induction Hall as [|row ids Hrow _ IH]; intros [|t toks]; cbn; constructor; auto.
Qed.

Lemma append_tokens_row_length (n : nat) (ids : list (list Z)) (toks : list Z) :
  Forall (λ row, length row = n) ids →
  Forall (λ row, length row = S n) (append_tokens ids toks).
Proof.
  apply append_tokens_Forall. intros row t <-. rewrite length_app. simpl. lia.
Qed.

Lemma seq_length_rect (n : nat) (ids : list (list Z)) :
  ids ≠ [] → Forall (λ row, length row = n) ids → seq_length ids = n.
Proof.
  intros Hne Hall. destruct ids as [|row ids]; [done|].
  by apply Forall_cons in Hall as [? _].
Qed.

(** Every row of [ids] starts with the corresponding row of [prompt]. *)
Definition extends (prompt ids : list (list Z)) : Prop :=
  Forall2 (λ p row, p `prefix_of` row) prompt ids.

Lemma extends_refl (prompt : list (list Z)) : extends prompt prompt.
Proof. apply Forall2_same_length_lookup_2; [done|]. intros i x y ? ?. by simplify_eq. Qed.

Lemma extends_append (prompt ids : list (list Z)) (toks : list Z) :
  length toks = length ids →
  extends prompt ids → extends prompt (append_tokens ids toks).
Proof.
  intros Hlen Hext. revert toks Hlen.
  induction Hext as [|p row prompt ids Hp _ IH]; intros [|t toks] Hlen;
    try discriminate; cbn; constructor.
  - by apply prefix_app_r.
  - apply IH. by injection Hlen.
Qed.

Lemma has_mask_token_app (config : ChatGLMConfig) (row : list Z) (t : Z) :
  ¬ lacks_mask_token config row → ¬ lacks_mask_token config (row ++ [t]).
Proof.
  unfold lacks_mask_token. intros Hrow [Hg Hm]. apply Hrow.
  split; intros Hin; [apply Hg | apply Hm]; apply elem_of_app; by left.
Qed.

Lemma has_bos_app (config : ChatGLMConfig) (row : list Z) (t : Z) :
  ¬ lacks_bos config row → ¬ lacks_bos config (row ++ [t]).
Proof.
  unfold lacks_bos. intros Hrow Hb. apply Hrow.
  intros Hin. apply Hb. apply elem_of_app. by left.
Qed.

(** *** The unfinished flags when nothing matches *)

Lemma wrap64_odd (z : Z) : Z.odd (wrap64 z) = Z.odd z.
Proof.
  unfold wrap64.
  pose proof (Z.div_mod (z + 2 ^ 63) (2 ^ 64) ltac:(lia)) as Hdm.
  replace ((z + 2 ^ 63) `mod` 2 ^ 64 - 2 ^ 63)%Z
    with (z + 2 * (- 2 ^ 63 * ((z + 2 ^ 63) `div` 2 ^ 64)))%Z by lia.
  by rewrite Z.odd_add_mul_2.
Qed.

Lemma update_unfinished_odd (unfinished next_tokens eos_token_id : list Z) :
  Z.odd (Z.of_nat (length eos_token_id)) = true →
  Forall (λ t, t ∉ eos_token_id) next_tokens →
  Forall (λ u, Z.odd u = true) unfinished →
  Forall (λ u, Z.odd u = true)
    (update_unfinished unfinished next_tokens eos_token_id).
Proof.
  intros Hodd Htoks Hunf. revert next_tokens Htoks. unfold update_unfinished.
  induction Hunf as [|u unfinished Hu _ IH]; intros [|t toks] Htoks;
    cbn; constructor.
  - apply Forall_cons in Htoks as [Ht _].
    rewrite wrap64_odd, Z.odd_mul, Hu, ne_count_no_match by done. by rewrite Hodd.
  - apply IH. by apply Forall_cons in Htoks as [_ ?].
Qed.

Lemma tensor_max_odd (t : list Z) :
  t ≠ [] → Forall (λ u, Z.odd u = true) t →
  ∃ mx, tensor_max t = Ok mx ∧ mx ≠ 0%Z.
Proof.
  intros Hne Hall. destruct t as [|x t]; [done|].
  eexists. split; [reflexivity|].
  assert (Hodd : Z.odd (foldr Z.max x t) = true).
  { apply Forall_cons in Hall as [Hx Hall]. clear Hne.
    induction Hall as [|y t Hy _ IH]; [exact Hx|].
    cbn [foldr]. destruct (Z.max_spec y (foldr Z.max x t)) as [[_ ->] | [_ ->]]; done. }
  intros Hz. by rewrite Hz in Hodd.
Qed.

Lemma tensor_max_nonempty (t : list Z) : t ≠ [] → ∃ mx, tensor_max t = Ok mx.
Proof. destruct t; [done|]. cbn. eauto. Qed.

(** *** Updating the keyword state *)

Lemma update_kwargs_ok (start_pos : nat) (kw : model_kwargs) :
  (∀ ids, kw_position_ids kw ≠ Some (Pos1D ids)) →
  ∃ kw', _update_model_kwargs_for_generation start_pos kw = Ok kw'
         ∧ kw_start_pos kw' = Some start_pos
         ∧ kw_bucket_size kw' = kw_bucket_size kw
         ∧ absent (kw_position_ids kw') = absent (kw_position_ids kw)
         ∧ (∀ ids, kw_position_ids kw' ≠ Some (Pos1D ids)).
Proof.
  intros Hpos. unfold _update_model_kwargs_for_generation.
  destruct (kw_position_ids kw) as [[ids1 | ids2]|] eqn:Hp.
  - by destruct (Hpos ids1).
  - cbn. eexists. repeat split; cbn; try reflexivity. by intros ids.
  - cbn. eexists. repeat split; cbn; try reflexivity. by intros ids.
Qed.

Lemma needs_bos_absent (kw : model_kwargs) :
  absent (kw_position_ids kw) = true → needs_bos kw = true.
Proof.
  intros Habs. unfold needs_bos. rewrite Habs.
  destruct (kw_start_pos kw); [done|]. by rewrite orb_true_r.
Qed.

(** *** One iteration of the loop *)

Section DriverFacts.

Context {Model : Type}.
Variable config : ChatGLMConfig.
Variable eos_token_id : list Z.
Variable stopping_criteria : list (list Z) → bool.
Variable run_model : Model → model_inputs → list (list Z) → Model * (nat → Z).

(** What holds of the loop variables after [k] completed iterations on a
    prompt of length [P]. *)
Record invariant (P : nat) (prompt : list (list Z)) (k : nat)
    (st : state (Model := Model)) : Prop := {
  inv_nonempty : input_ids st ≠ [];
  inv_rect : Forall (λ row, length row = P + k) (input_ids st);
  inv_extends : extends prompt (input_ids st);
  inv_flags : length (unfinished_sequences st) = length (input_ids st);
  inv_mask : Forall (λ seq, ¬ lacks_mask_token config seq) (input_ids st);
  inv_bos : needs_bos (kwargs st) = true →
            Forall (λ seq, ¬ lacks_bos config seq) (input_ids st);
  inv_bucket : default 512 (kw_bucket_size (kwargs st)) ≠ 0;
  inv_pos : ∀ ids, kw_position_ids (kwargs st) ≠ Some (Pos1D ids);
  inv_calls : forward_calls st = k;
  inv_start : kw_start_pos (kwargs st)
              = match k with O => None | S _ => Some (P + k) end;
}.

Lemma invariant_init (P : nat) (m : Model) (prompt : list (list Z)) (kw : model_kwargs) :
  prompt ≠ [] →
  Forall (λ row, length row = P) prompt →
  Forall (λ seq, ¬ lacks_mask_token config seq) prompt →
  (needs_bos kw = true → Forall (λ seq, ¬ lacks_bos config seq) prompt) →
  default 512 (kw_bucket_size kw) ≠ 0 →
  kw_start_pos kw = None →
  (∀ ids, kw_position_ids kw ≠ Some (Pos1D ids)) →
  invariant P prompt 0 (init_state m prompt kw).
Proof.
  intros Hne Hrect Hmask Hbos Hbucket Hstart Hpos.
  constructor; cbn; try done.
  - by rewrite Nat.add_0_r.
  - apply extends_refl.
  - by rewrite length_replicate.
Qed.

Lemma step_invariant (P : nat) (prompt : list (list Z)) (k : nat) (st : state) :
  invariant P prompt k st →
  ∃ mi st' mx,
    prepare_inputs_for_generation config (input_ids st) (kwargs st) = Ok mi
    ∧ mi_start_pos mi = default 0 (kw_start_pos (kwargs st))
    ∧ invariant P prompt (S k) st'
    ∧ unfinished_sequences st'
      = update_unfinished (unfinished_sequences st)
          ((run_model (model st) mi (input_ids st)).2
             <$> seq 0 (length (input_ids st)))
          eos_token_id
    ∧ tensor_max (unfinished_sequences st') = Ok mx
    ∧ step config eos_token_id stopping_criteria run_model st
      = if bool_decide (mx = 0%Z) || stopping_criteria (input_ids st')
        then Break st' else Yield st'.
Proof.
  intros [Hne Hrect Hext Hflags Hmask Hbos Hbucket Hpos Hcalls Hstart].
  destruct (prepare_inputs_ok config (input_ids st) (kwargs st) Hmask Hbos Hbucket)
    as (mi & Hprep & Hsp & _).
  destruct (run_model (model st) mi (input_ids st)) as [model' pick] eqn:Hrun.
  set (toks := pick <$> seq 0 (length (input_ids st))).
  assert (Htoks : length toks = length (input_ids st))
    by (unfold toks; by rewrite length_fmap, length_seq).
  set (ids' := append_tokens (input_ids st) toks).
  assert (Hlen' : length ids' = length (input_ids st))
    by (by apply append_tokens_length).
  assert (Hne' : ids' ≠ []).
  { intros Hnil. rewrite Hnil in Hlen'. destruct (input_ids st); done. }
  assert (Hrect' : Forall (λ row, length row = P + S k) ids').
  { replace (P + S k) with (S (P + k)) by lia. by apply append_tokens_row_length. }
  destruct (update_kwargs_ok (seq_length ids') (kwargs st) Hpos)
    as (kw' & Hupd & Hkstart & Hkbucket & Hkabs & Hkpos).
  set (unf' := update_unfinished (unfinished_sequences st) toks eos_token_id).
  assert (Hunf' : length unf' = length ids').
  { unfold unf', update_unfinished. rewrite length_zip_with. lia. }
  destruct (tensor_max_nonempty unf') as (mx & Hmx).
  { intros Hnil. rewrite Hnil in Hunf'. destruct ids'; done. }
  exists mi,
    {| model := model'; input_ids := ids'; kwargs := kw';
       unfinished_sequences := unf'; forward_calls := S (forward_calls st) |},
    mx.
  split; [exact Hprep|]. split; [exact Hsp|]. split; [|split; [|split]].
  - constructor; cbn; try done.
    + by apply extends_append.
    + eapply append_tokens_Forall; [|exact Hmask]. apply has_mask_token_app.
    + intros Hneeds. eapply append_tokens_Forall; [apply has_bos_app|].
      apply Hbos. apply needs_bos_absent. rewrite <- Hkabs.
      unfold needs_bos in Hneeds. by rewrite Hkstart in Hneeds.
    + by rewrite Hkbucket.
    + by rewrite Hcalls.
    + rewrite Hkstart. f_equal. by apply seq_length_rect.
  - cbn [unfinished_sequences]. by rewrite Hrun.
  - exact Hmx.
  - unfold step. rewrite Hprep, Hrun. fold toks. fold ids'.
    rewrite Hupd. fold unf'. rewrite Hmx. reflexivity.
Qed.

(** C6. Prefill-to-decode transition, evaluated on a prompt of length [P].
    The first forward pass is the prefill over the whole prompt, run with
    [start_pos = 0]; the loop then appends the new token and only
    afterwards reads the sequence length, so the state handed to the first
    decode step carries [start_pos = P + 1], not [P], and that decode step
    is called on one token with [start_pos = P + 1]. *)
Theorem prefill_to_decode_start_pos (P : nat) (m : Model)
    (prompt : list (list Z)) (kw : model_kwargs) :
  prompt ≠ [] →
  Forall (λ row, length row = P) prompt →
  Forall (λ seq, ¬ lacks_mask_token config seq) prompt →
  (needs_bos kw = true → Forall (λ seq, ¬ lacks_bos config seq) prompt) →
  default 512 (kw_bucket_size kw) ≠ 0 →
  kw_start_pos kw = None →
  (∀ ids, kw_position_ids kw ≠ Some (Pos1D ids)) →
  ∃ mi st',
    prepare_inputs_for_generation config prompt kw = Ok mi
    ∧ mi_start_pos mi = 0
    ∧ (step config eos_token_id stopping_criteria run_model (init_state m prompt kw)
         = Yield st'
       ∨ step config eos_token_id stopping_criteria run_model (init_state m prompt kw)
         = Break st')
    ∧ forward_calls st' = 1
    ∧ seq_length (input_ids st') = P + 1
    ∧ kw_start_pos (kwargs st') = Some (P + 1)
    ∧ kw_start_pos (kwargs st') ≠ Some P
    ∧ ∃ mi',
        prepare_inputs_for_generation config (input_ids st') (kwargs st') = Ok mi'
        ∧ Forall (λ row, length row = 1) (mi_input_ids mi')
        ∧ mi_start_pos mi' = P + 1.
Proof.
  intros Hne Hrect Hmask Hbos Hbucket Hstart Hpos.
  pose proof (invariant_init P m prompt kw Hne Hrect Hmask Hbos Hbucket Hstart Hpos)
    as Hinv.
  destruct (step_invariant P prompt 0 _ Hinv)
    as (mi & st' & mx & Hprep & Hsp & Hinv' & _ & _ & Hstep).
  cbn [init_state input_ids kwargs] in Hprep, Hsp. rewrite Hstart in Hsp.
  exists mi, st'. split; [exact Hprep|]. split; [exact Hsp|].
  split; [rewrite Hstep; destruct (_ || _); auto|].
  destruct Hinv' as [Hne' Hrect' _ _ Hmask' Hbos' Hbucket' _ Hcalls' Hstart'].
  split; [exact Hcalls'|].
  split; [by apply seq_length_rect|].
  split; [exact Hstart'|].
  split; [rewrite Hstart'; intros [= H]; lia|].
  destruct (prepare_inputs_ok config (input_ids st') (kwargs st') Hmask' Hbos' Hbucket')
    as (mi' & Hprep' & Hsp' & Hshape).
  rewrite Hstart' in Hsp', Hshape.
  exists mi'. split; [exact Hprep'|]. split; [apply Hshape | exact Hsp'].
Qed.

End DriverFacts.

(** *** The run with the shape checks of the forward pass *)

Section Checked.

Context {Model : Type}.
Variable config : ChatGLMConfig.

(** [getattr(config, 'max_batch_size', 1)] (line 201), the batch axis of
    every cache. *)
Variable max_batch_size : nat.

Variable eos_token_id : list Z.
Variable stopping_criteria : list (list Z) → bool.

(** The forward pass on inputs whose shapes it accepts. *)
Variable run_model : Model → model_inputs → list (list Z) → Model * (nat → Z).

(** The cache of one layer, its slabs left out: [max_sequence_length]
    slots (lines 202-210). *)
Definition blank_cache : @KVCache.cache () :=
  {| KVCache.cache_k := replicate (max_sequence_length config) ();
     KVCache.cache_v := replicate (max_sequence_length config) () |}.

(** What [construct] asks of the shapes of its inputs, in the order in
    which it asks: the mask construction (lines 707-718); in every layer
    the cache write, whose updates must have the batch axis of the cache
    (lines 308-317), and the fill of the scores, [seq_len] rows over the
    keys read back from the cache, with the mask (lines 319-349). *)
Definition forward_shapes (mi : model_inputs) : option () :=
  let batch_size := length (mi_input_ids mi) in
  let seq_len := seq_length (mi_input_ids mi) in
  attention_mask ←
    Mask.construct_mask (pre_seq_len config) batch_size seq_len
      (Some (mi_attention_mask mi)) (mi_start_pos mi) (mi_bucket_size mi);
  if decide (batch_size = max_batch_size) then
    c ← KVCache.cache_write () blank_cache seq_len (mi_start_pos mi)
          (replicate seq_len ()) (replicate seq_len ());
    let key_layer := (KVCache.cache_read c (mi_bucket_size mi)).1 in
    let scores :=
      replicate batch_size (replicate seq_len (replicate (length key_layer) ())) in
    _ ← Attention.broadcast (λ s m, Attention.masked_fill s m ()) scores attention_mask;
    Some ()
  else None.

(** The exceptions of one iteration: those of the preparation and of the
    bookkeeping, a forward pass that rejects its shapes, and line 1101 on
    an empty list of ids, where [sum] returns the integer 0, which has no
    [long]. *)
Inductive checked_exn :=
| Python (e : exn)
| ShapeError
| AttributeError.

Inductive checked_outcome :=
| CYield (st : state (Model := Model))
| CBreak (st : state (Model := Model))
| CFail (e : checked_exn).

(** The body of [while True] (lines 1074-1106), with a forward pass that
    raises on shapes it does not accept. *)
Definition checked_step (st : state) : checked_outcome :=
  match prepare_inputs_for_generation config (input_ids st) (kwargs st) with
  | Raise e => CFail (Python e)
  | Ok model_inputs =>
      match forward_shapes model_inputs with
      | None => CFail ShapeError
      | Some _ =>
          let '(model', pick) := run_model (model st) model_inputs (input_ids st) in
          let calls := S (forward_calls st) in
          let next_tokens := pick <$> seq 0 (length (input_ids st)) in
          let input_ids' := append_tokens (input_ids st) next_tokens in
          let start_pos := seq_length input_ids' in
          match _update_model_kwargs_for_generation start_pos (kwargs st) with
          | Raise e => CFail (Python e)
          | Ok kwargs' =>
              match eos_token_id with
              | [] => CFail AttributeError
              | _ :: _ =>
                  let unfinished :=
                    update_unfinished (unfinished_sequences st) next_tokens
                      eos_token_id in
                  match tensor_max unfinished with
                  | Raise e => CFail (Python e)
                  | Ok mx =>
                      let st' := {| model := model'; input_ids := input_ids';
                                    kwargs := kwargs';
                                    unfinished_sequences := unfinished;
                                    forward_calls := calls |} in
                      if bool_decide (mx = 0%Z) || stopping_criteria input_ids'
                      then CBreak st' else CYield st'
                  end
              end
          end
      end
  end.

Inductive checked_ending :=
| CFinished (st : state (Model := Model))
| CRaised (e : checked_exn).

(** The generator, run for at most [fuel] iterations. *)
Fixpoint checked_loop (fuel : nat) (st : state)
  : list (list (list Z)) * option checked_ending :=
  match fuel with
  | O => ([], None)
  | S fuel' =>
      match checked_step st with
      | CYield st' =>
          let '(yielded, e) := checked_loop fuel' st' in
          (input_ids st' :: yielded, e)
      | CBreak st' => ([], Some (CFinished st'))
      | CFail e => ([], Some (CRaised e))
      end
  end.

Definition stream_generate_checked (fuel : nat) (m : Model) (input_ids : list (list Z))
    (kw : model_kwargs) : list (list (list Z)) * option checked_ending :=
  checked_loop fuel (init_state m input_ids kw).

(** [step] is the iteration for a forward pass that returns and a list of
    ids that is not empty. *)
Definition lift (o : outcome (Model := Model)) : checked_outcome :=
  match o with
  | Yield st => CYield st
  | Break st => CBreak st
  | Fail e _ _ => CFail (Python e)
  end.

Lemma checked_step_ok (st : state) (mi : model_inputs) :
  prepare_inputs_for_generation config (input_ids st) (kwargs st) = Ok mi →
  forward_shapes mi = Some () →
  eos_token_id ≠ [] →
  checked_step st = lift (step config eos_token_id stopping_criteria run_model st).
Proof.
  intros Hprep Hshapes Heos. unfold checked_step, step. rewrite Hprep, Hshapes.
  destruct (run_model (model st) mi (input_ids st)) as [model' pick].
  destruct (_update_model_kwargs_for_generation _ _) as [kw'|]; [|done].
  destruct eos_token_id as [|e eos]; [done|].
  destruct (tensor_max _) as [mx|]; [|done].
  by destruct (_ || _).
Qed.

(** The bucket of a sequence length under the granule [g] (line 831). *)
Definition bucket_of (g seq_length : nat) : nat := (seq_length `div` g + 1) * g.

Lemma bucket_of_mono (g a b : nat) : a ≤ b → bucket_of g a ≤ bucket_of g b.
Proof.
  intros Hab. unfold bucket_of.
  pose proof (Nat.Div0.div_le_mono a b g Hab). nia.
Qed.

Lemma bucket_of_above (g a : nat) : g ≠ 0 → a < bucket_of g a.
Proof.
  intros Hg. unfold bucket_of.
  pose proof (Nat.div_mod a g Hg). pose proof (Nat.mod_upper_bound a g Hg). nia.
Qed.

Lemma prepare_inputs_bucket (ids : list (list Z)) (kw : model_kwargs)
    (mi : model_inputs) :
  prepare_inputs_for_generation config ids kw = Ok mi →
  mi_bucket_size mi = bucket_of (default 512 (kw_bucket_size kw)) (seq_length ids).
Proof.
  unfold prepare_inputs_for_generation. intros H.
  destruct (mapM (scan_mask_token config) ids) as [scans|]; [|discriminate].
  cbn [mbind result_bind] in H.
  destruct (decide (default 512 (kw_bucket_size kw) = 0)); [discriminate|].
  destruct (kw_start_pos kw) as [start_pos|];
    repeat match type of H with
           | context [mbind _ ?m] =>
               destruct m; cbn [mbind result_bind] in H; try discriminate H
           end;
    by injection H as <-.
Qed.

Lemma get_masks_single (row : list Z) (m : Mask.mask) :
  get_masks config [row] = Ok m →
  ∃ rows, m = [rows] ∧ length rows = length row
          ∧ Forall (λ r, length r = length row) rows.
Proof.
  unfold get_masks. cbn [mapM seq_length].
  destruct (index (bos_token_id config) row) as [cl|]; [|discriminate].
  cbn [mbind result_bind mret result_ret fmap list_fmap]. intros [= <-].
  eexists. split; [reflexivity|]. split.
  - by rewrite length_fmap, length_seq.
  - apply Forall_fmap, Forall_forall. intros r _. cbn.
    by rewrite length_fmap, length_seq.
Qed.

(** The fill of [sq x sk] scores with a mask of the same shape goes
    through, for one batch element. *)
Lemma fill_shapes_ok (sq sk : nat) (rows : list (list bool)) :
  length rows = sq →
  Forall (λ r, length r = sk) rows →
  is_Some (Attention.broadcast (λ s m, Attention.masked_fill s m ())
             (replicate 1 (replicate sq (replicate sk ()))) [rows]).
Proof.
  intros Hrows Hwidth.
  erewrite Attention.broadcast_same; [done|done|].
  intros i s m Hs Hm. destruct i as [|i]; [|done].
  injection Hs as <-. injection Hm as <-.
  apply Attention.masked_fill_same.
  - by rewrite length_replicate.
  - intros i row mrow Hrow Hmrow.
    apply lookup_replicate in Hrow as [-> _]. rewrite length_replicate.
    symmetry. by eapply (Forall_lookup_1 _ _ _ _ Hwidth).
Qed.

(** A prepared call on one sequence, without a supplied mask, to a model
    without soft prompt and with caches for one batch element, has shapes
    the forward pass accepts as soon as the bucket fits the cache. *)
Lemma forward_shapes_ok (row : list Z) (kw : model_kwargs) (mi : model_inputs) :
  pre_seq_len config = None →
  max_batch_size = 1 →
  kw_attention_mask kw = None →
  prepare_inputs_for_generation config [row] kw = Ok mi →
  mi_bucket_size mi ≤ max_sequence_length config →
  (∀ sp, kw_start_pos kw = Some sp → sp < mi_bucket_size mi) →
  forward_shapes mi = Some ().
Proof.
  intros Hpre Hbatch Hmask Hprep Hcap Hsp.
  pose proof (prepare_inputs_bucket _ _ _ Hprep) as Hbucket.
  cbn [seq_length] in Hbucket.
  unfold prepare_inputs_for_generation in Hprep.
  destruct (mapM (scan_mask_token config) [row]) as [scans|] eqn:Hscan;
    [|discriminate].
  cbn [mbind result_bind] in Hprep.
  destruct (decide (default 512 (kw_bucket_size kw) = 0)) as [|Hg]; [discriminate|].
  assert (Hrow : 0 < length row).
  { destruct row as [|t row]; [|cbn; lia].
    cbn in Hscan. discriminate. }
  pose proof (bucket_of_above _ (length row) Hg) as Habove.
  rewrite <- Hbucket in Habove.
  assert (Hread : ∀ c : @KVCache.cache (),
            length (KVCache.cache_k c) = max_sequence_length config →
            length (KVCache.cache_read c (mi_bucket_size mi)).1 = mi_bucket_size mi).
  { intros c Hc. unfold KVCache.cache_read. cbn [fst].
    rewrite length_take. lia. }
  assert (Hdecode : ∀ (sp : nat) (ids : list (list Z)) (rows : list (list bool)),
            mi_input_ids mi = ids → length ids = 1 → seq_length ids = 1 →
            mi_attention_mask mi = [rows] → mi_start_pos mi = sp →
            sp < mi_bucket_size mi →
            forward_shapes mi = Some ()).
  { intros sp ids rows Hids Hlen Hseq Hm Hstart Hlt. unfold forward_shapes.
    rewrite Hids, Hlen, Hseq, Hm, Hstart, Hpre, Hbatch.
    unfold Mask.construct_mask.
    cbn [mbind option_bind]. rewrite decide_False by lia.
    cbn [mbind option_bind]. rewrite decide_True by done.
    change (replicate 1 ()) with [()].
    rewrite (KVCache.cache_write_decode () blank_cache sp () ())
      by (unfold blank_cache; cbn; rewrite length_replicate; lia).
    cbn [mbind option_bind].
    rewrite Hread
      by (cbn [KVCache.cache_k]; unfold blank_cache; cbn;
          by rewrite length_insert, length_replicate).
    destruct (fill_shapes_ok 1 (mi_bucket_size mi)
                [Mask.decode_row sp 1 (mi_bucket_size mi)]) as [x ->]; [done| |done].
    repeat constructor. unfold Mask.decode_row. by rewrite length_fmap, length_seq. }
  destruct (kw_start_pos kw) as [sp|] eqn:Hstart.
  - rewrite Hmask in Hprep.
    cbn [mapM] in Hprep. destruct (last row) as [t|]; [|discriminate].
    cbn [mbind result_bind mret result_ret fmap list_fmap] in Hprep.
    destruct (match kw_position_ids kw with Some _ => _ | None => _ end)
      as [pos|]; [|discriminate].
    cbn [mbind result_bind] in Hprep.
    apply (Hdecode sp [[t]] [[false]]);
      try (by injection Hprep as <-). by apply Hsp.
  - rewrite Hmask in Hprep.
    destruct (get_masks config [row]) as [m|] eqn:Hm; [|discriminate].
    cbn [mbind result_bind] in Hprep.
    destruct (match kw_position_ids kw with Some _ => _ | None => _ end)
      as [pos|]; [|discriminate].
    cbn [mbind result_bind] in Hprep.
    destruct (get_masks_single row m Hm) as (rows & -> & Hrows & Hwidth).
    destruct (decide (1 < length row)) as [Hlong|Hshort].
    + assert (Hmi : mi_input_ids mi = [row] ∧ mi_attention_mask mi = [rows]
                    ∧ mi_start_pos mi = 0) by (by injection Hprep as <-).
      destruct Hmi as (Hids & Hmm & Hsp0).
      unfold forward_shapes. rewrite Hids, Hmm, Hsp0, Hpre, Hbatch.
      cbn [seq_length length]. rewrite <- Hrows.
      rewrite Mask.construct_mask_prefill by lia.
      cbn [mbind option_bind]. rewrite decide_True by done.
      rewrite <- (length_replicate (length rows) ()) at 1.
      rewrite (KVCache.cache_write_prefill () blank_cache 0
                 (replicate (length rows) ()) (replicate (length rows) ()));
        [|rewrite length_replicate; lia|done
         |unfold blank_cache; cbn; rewrite !length_replicate; lia
         |unfold blank_cache; cbn; rewrite !length_replicate; lia].
      cbn [mbind option_bind].
      rewrite Hread
        by (cbn [KVCache.cache_k]; unfold blank_cache; cbn;
            rewrite length_app, !length_replicate; lia).
      destruct (fill_shapes_ok (length rows) (mi_bucket_size mi)
                  ((λ r, r ++ replicate (mi_bucket_size mi - length rows) true)
                     <$> rows)) as [x ->]; [by rewrite length_fmap| |done].
      apply Forall_fmap. eapply Forall_impl; [exact Hwidth|].
      intros r Hr. cbn in Hr |- *. rewrite length_app, length_replicate. lia.
    + apply (Hdecode 0 [row] rows); try (by injection Hprep as <-).
      * cbn. lia.
      * lia.
Qed.

End Checked.

(** *** Runs of the checked generator on one prompt *)

Lemma update_kwargs_keeps (start_pos : nat) (kw kw' : model_kwargs) :
  _update_model_kwargs_for_generation start_pos kw = Ok kw' →
  kw_attention_mask kw = None →
  kw_attention_mask kw' = None ∧ kw_bucket_size kw' = kw_bucket_size kw.
Proof.
  unfold _update_model_kwargs_for_generation. intros H Hmask.
  destruct (match kw_position_ids kw with Some _ => _ | None => _ end)
    as [pos|]; [|discriminate].
  cbn [mbind result_bind] in H. injection H as <-. cbn. by rewrite Hmask.
Qed.

Section CheckedFacts.

Context {Model : Type}.
Variable config : ChatGLMConfig.
Variable max_batch_size : nat.
Variable eos_token_id : list Z.
Variable stopping_criteria : list (list Z) → bool.
Variable run_model : Model → model_inputs → list (list Z) → Model * (nat → Z).

(** The loop variables after [k] iterations on the single prompt [row0]
    of length [P], called without a mask and with the granule [g]. *)
Record fits (P : nat) (row0 : list Z) (g k : nat)
    (st : state (Model := Model)) : Prop := {
  fits_inv : invariant config P [row0] k st;
  fits_mask : kw_attention_mask (kwargs st) = None;
  fits_granule : default 512 (kw_bucket_size (kwargs st)) = g;
}.

Lemma checked_step_invariant (P : nat) (row0 : list Z) (g k : nat) (st : state) :
  pre_seq_len config = None →
  max_batch_size = 1 →
  eos_token_id ≠ [] →
  fits P row0 g k st →
  bucket_of g (P + k) ≤ max_sequence_length config →
  ∃ mi st' mx,
    fits P row0 g (S k) st'
    ∧ unfinished_sequences st'
      = update_unfinished (unfinished_sequences st)
          ((run_model (model st) mi (input_ids st)).2
             <$> seq 0 (length (input_ids st)))
          eos_token_id
    ∧ tensor_max (unfinished_sequences st') = Ok mx
    ∧ checked_step config max_batch_size eos_token_id stopping_criteria run_model st
      = if bool_decide (mx = 0%Z) || stopping_criteria (input_ids st')
        then CBreak st' else CYield st'.
Proof.
  intros Hprefix Hbatch Heos [Hinv Hmask Hg] Hcap.
  destruct (step_invariant config eos_token_id stopping_criteria run_model
              P [row0] k st Hinv)
    as (mi & st' & mx & Hprep & _ & Hinv' & Hunf & Hmx & Hstep).
  assert (Hkw : kw_attention_mask (kwargs st') = None
                ∧ kw_bucket_size (kwargs st') = kw_bucket_size (kwargs st)).
  { unfold step in Hstep. rewrite Hprep in Hstep.
    destruct (run_model (model st) mi (input_ids st)) as [model' pick].
    destruct (_update_model_kwargs_for_generation _ (kwargs st)) as [kw'|] eqn:Hupd;
      [|by destruct (_ || _)].
    destruct (tensor_max (update_unfinished _ _ _)) as [mx'|];
      [|by destruct (_ || _)].
    assert (Hst' : kwargs st' = kw').
    { match type of Hstep with
      | (if ?a then _ else _) = (if ?b then _ else _) => destruct a, b
      end; try discriminate; by injection Hstep as <-. }
    rewrite Hst'. by eapply update_kwargs_keeps. }
  destruct Hkw as [Hmask' Hbucket'].
  exists mi, st', mx. split; [|split; [exact Hunf|split; [exact Hmx|]]].
  { constructor; [exact Hinv'|exact Hmask'|by rewrite Hbucket']. }
  pose proof (inv_extends _ _ _ _ _ Hinv) as Hext.
  pose proof (inv_rect _ _ _ _ _ Hinv) as Hrect.
  destruct (input_ids st) as [|row [|row' ids]] eqn:Hids;
    [by apply Forall2_length in Hext | | by apply Forall2_length in Hext].
  apply Forall_cons in Hrect as [Hrow _].
  pose proof (prepare_inputs_bucket config _ _ _ Hprep) as Hb.
  cbn [seq_length] in Hb. rewrite Hg, Hrow in Hb.
  rewrite (checked_step_ok config max_batch_size eos_token_id stopping_criteria
             run_model st mi); [| by rewrite Hids | | exact Heos].
  - rewrite Hstep. by destruct (_ || _).
  - apply (forward_shapes_ok config max_batch_size row (kwargs st));
      [done | done | done | done | by rewrite Hb |].
    intros sp Hsp. rewrite Hb.
    pose proof (inv_start _ _ _ _ _ Hinv) as Hstart. rewrite Hsp in Hstart.
    destruct k as [|k]; [discriminate|]. injection Hstart as ->.
    apply bucket_of_above. rewrite <- Hg. apply (inv_bucket _ _ _ _ _ Hinv).
Qed.

Lemma fits_init (P : nat) (m : Model) (row : list Z) (kw : model_kwargs) :
  length row = P →
  ¬ lacks_mask_token config row →
  (needs_bos kw = true → ¬ lacks_bos config row) →
  kw_attention_mask kw = None →
  (∀ ids, kw_position_ids kw ≠ Some (Pos1D ids)) →
  kw_start_pos kw = None →
  default 512 (kw_bucket_size kw) ≠ 0 →
  fits P row (default 512 (kw_bucket_size kw)) 0 (init_state m [row] kw).
Proof.
  intros Hlen Hmask Hbos Hnomask Hpos Hstart Hg. constructor; [|done|done].
  apply invariant_init; try done.
  - by repeat constructor.
  - by repeat constructor.
  - intros Hneeds. repeat constructor. by apply Hbos.
Qed.

Lemma checked_loop_spec (P L : nat) (row0 : list Z) (g : nat) :
  pre_seq_len config = None →
  max_batch_size = 1 →
  Z.odd (Z.of_nat (length eos_token_id)) = true →
  (∀ m mi ids b, (run_model m mi ids).2 b ∉ eos_token_id) →
  (∀ ids, stopping_criteria ids = MaxLengthCriteria L ids) →
  bucket_of g (L - 1) ≤ max_sequence_length config →
  ∀ (n k : nat) (st : state) (fuel : nat),
    fits P row0 g k st →
    Forall (λ u, Z.odd u = true) (unfinished_sequences st) →
    P + k + 1 + n = L →
    n < fuel →
    ∃ yielded final,
      checked_loop config max_batch_size eos_token_id stopping_criteria run_model
        fuel st
        = (yielded, Some (CFinished final))
      ∧ length yielded = n
      ∧ invariant config P [row0] (k + n + 1) final
      ∧ ∀ i ids, yielded !! i = Some ids →
          Forall (λ row, length row = P + k + 1 + i) ids ∧ extends [row0] ids.
Proof.
  intros Hprefix Hbatch Hodd Hnever Hstop Hcap n.
  assert (Heos : eos_token_id ≠ []) by (intros Hnil; by rewrite Hnil in Hodd).
  induction n as [|n IH]; intros k st fuel Hfits Hflags HL Hfuel;
    (destruct fuel as [|fuel]; [lia|]);
    (destruct (checked_step_invariant P row0 g k st Hprefix Hbatch Heos Hfits)
      as (mi & st' & mx & Hfits' & Hunf & Hmx & Hstep);
      [etrans; [apply (bucket_of_mono g (P + k) (L - 1)); lia | exact Hcap]|]);
    pose proof (fits_inv _ _ _ _ _ Hfits') as Hinv';
    assert (Hflags' : Forall (λ u, Z.odd u = true) (unfinished_sequences st'))
      by (rewrite Hunf; apply update_unfinished_odd; [done| |done];
          apply Forall_fmap, Forall_forall; intros b _; apply Hnever);
    assert (Hmx0 : bool_decide (mx = 0%Z) = false)
      by (destruct (tensor_max_odd (unfinished_sequences st')) as (mx' & Hmx' & Hnz);
          [ intros Hnil; pose proof (inv_flags _ _ _ _ _ Hinv') as Hl;
            rewrite Hnil in Hl; pose proof (inv_nonempty _ _ _ _ _ Hinv');
            destruct (input_ids st'); done
          | done
          | rewrite Hmx in Hmx'; injection Hmx' as <-; by apply bool_decide_eq_false ]);
    assert (Hlen' : seq_length (input_ids st') = P + S k)
      by (apply seq_length_rect; [apply (inv_nonempty _ _ _ _ _ Hinv')
                                 | apply (inv_rect _ _ _ _ _ Hinv')]);
    rewrite Hmx0, Hstop in Hstep; unfold MaxLengthCriteria in Hstep;
    rewrite Hlen' in Hstep; cbn [orb] in Hstep;
    cbn [checked_loop]; rewrite Hstep.
  - rewrite bool_decide_eq_true_2 by lia.
    exists [], st'. split; [done|]. split; [done|].
    split; [by replace (k + 0 + 1) with (S k) by lia|].
    intros i ids Hi. by rewrite lookup_nil in Hi.
  - rewrite bool_decide_eq_false_2 by lia.
    destruct (IH (S k) st' fuel Hfits' Hflags') as (ys & final & Hloop & Hys & Hfin & Hrows);
      [lia | lia |].
    rewrite Hloop. exists (input_ids st' :: ys), final.
    split; [done|]. split; [cbn; by rewrite Hys|].
    split; [by replace (k + S n + 1) with (S k + n + 1) by lia|].
    intros [|i] ids Hi.
    + injection Hi as <-. split; [|apply (inv_extends _ _ _ _ _ Hinv')].
      replace (P + k + 1 + 0) with (P + S k) by lia.
      apply (inv_rect _ _ _ _ _ Hinv').
    + destruct (Hrows i ids Hi) as [Hr He]. split; [|exact He].
      by replace (P + k + 1 + S i) with (P + S k + 1 + i) by lia.
Qed.

Lemma checked_loop_safe (P : nat) (row0 : list Z) (g : nat) :
  pre_seq_len config = None →
  max_batch_size = 1 →
  eos_token_id ≠ [] →
  ∀ (fuel k : nat) (st : state) (yielded : list (list (list Z)))
    (e : option checked_ending),
    fits P row0 g k st →
    bucket_of g (P + k + fuel - 1) ≤ max_sequence_length config →
    checked_loop config max_batch_size eos_token_id stopping_criteria run_model
      fuel st = (yielded, e) →
    (∀ i ids, yielded !! i = Some ids →
       Forall (λ row, length row = P + k + 1 + i) ids ∧ extends [row0] ids)
    ∧ match e with
      | Some (CRaised _) => False
      | Some (CFinished final) =>
          invariant config P [row0] (k + length yielded + 1) final
      | None => length yielded = fuel
      end.
Proof.
  intros Hprefix Hbatch Heos fuel.
  induction fuel as [|fuel IH]; intros k st yielded e Hfits Hcap Hrun.
  { cbn in Hrun. injection Hrun as <- <-. split; [|done].
    intros i ids Hi. by rewrite lookup_nil in Hi. }
  cbn [checked_loop] in Hrun.
  destruct (checked_step_invariant P row0 g k st Hprefix Hbatch Heos Hfits)
    as (mi & st' & mx & Hfits' & _ & _ & Hstep);
    [etrans; [apply (bucket_of_mono g (P + k) (P + k + S fuel - 1)); lia
             | exact Hcap]|].
  pose proof (fits_inv _ _ _ _ _ Hfits') as Hinv'.
  rewrite Hstep in Hrun.
  destruct (bool_decide (mx = 0%Z) || stopping_criteria (input_ids st')).
  - injection Hrun as <- <-. split.
    + intros i ids Hi. by rewrite lookup_nil in Hi.
    + cbn [length]. by replace (k + 0 + 1) with (S k) by lia.
  - destruct (checked_loop config max_batch_size eos_token_id stopping_criteria
                run_model fuel st') as [ys e'] eqn:Hloop.
    injection Hrun as <- <-.
    destruct (IH (S k) st' ys e' Hfits') as [Hrows Hend]; [|done|].
    { by replace (P + S k + fuel - 1) with (P + k + S fuel - 1) by lia. }
    split.
    + intros [|i] ids Hi.
      * injection Hi as <-. split; [|apply (inv_extends _ _ _ _ _ Hinv')].
        replace (P + k + 1 + 0) with (P + S k) by lia.
        apply (inv_rect _ _ _ _ _ Hinv').
      * destruct (Hrows i ids Hi) as [Hr He]. split; [|exact He].
        by replace (P + k + 1 + S i) with (P + S k + 1 + i) by lia.
    + destruct e' as [[final | err]|]; [|done|cbn; lia].
      cbn [length]. by replace (k + S (length ys) + 1) with (S k + length ys + 1) by lia.
Qed.


End CheckedFacts.

(** *** Concrete runs *)

(** A model without state that always picks the token [t]. *)
Definition constant_model (t : Z)
  : unit → model_inputs → list (list Z) → unit * (nat → Z) :=
  λ m _ _, (m, λ _, t).

(** A configuration whose caches hold 2048 positions, so that the default
    bucket of 512 fits. *)
Definition serving_config : ChatGLMConfig :=
  {| max_sequence_length := 2048; hidden_size := 8; num_attention_heads := 2;
     num_layers := 2; vocab_size := 32; layernorm_epsilon := (1 / 100000)%R;
     inner_hidden_size := None; position_encoding_2d := true;
     pre_seq_len := None; bos_token_id := 30; mask_token_id := 28;
     gmask_token_id := 29 |}.



Lemma prefill_to_decode_start_pos_witness :
  ∃ st',
    step example_config (eos_ids (EosInt 2)) (MaxLengthCriteria 5)
      (constant_model 7) (init_state tt [[5; 29; 30]%Z] no_kwargs)
    = Yield st'
    ∧ input_ids st' = [[5; 29; 30; 7]%Z]
    ∧ kw_start_pos (kwargs st') = Some 4.
Proof.
  destruct (prefill_to_decode_start_pos example_config (eos_ids (EosInt 2))
              (MaxLengthCriteria 5) (constant_model 7) 3 tt [[5; 29; 30]%Z] no_kwargs)
    as (mi & st' & _ & _ & Hstep & _ & _ & Hstart & _).
  - discriminate.
  - repeat constructor.
  - repeat constructor. intros [Hg _]. apply Hg. in_literal.
  - intros _. repeat constructor. intros Hb. apply Hb. in_literal.
  - cbn. lia.
  - reflexivity.
  - intros ids. discriminate.
  - eexists. split; [vm_compute; reflexivity|]. split; reflexivity.
Defined.

End Generation.

(** * Further properties *)

(** ** The key/value cache: capacity, isolation, locality *)

Module CacheFacts.

Import KVCache.

Section Cache.

Context {V : Type} (zero : V).

(** What a successful decode write is. *)
Lemma cache_write_decode_inv (c c' : cache) (p : nat) (k v : V) :
  cache_write zero c 1 p [k] [v] = Some c' →
  p < length (cache_k c) ∧ p < length (cache_v c)
  ∧ c' = {| cache_k := <[p := k]> (cache_k c); cache_v := <[p := v]> (cache_v c) |}.
Proof.
  unfold cache_write. rewrite decide_False by lia. simpl.
  destruct (decide (p < length (cache_k c))) as [Hk|]; [|discriminate]. simpl.
  destruct (decide (p < length (cache_v c))) as [Hv|]; [|discriminate]. simpl.
  by intros [= <-].
Qed.

(** The buffers are never resized: a write that goes through leaves both
    capacities as they were, prefill or decode. *)
Lemma cache_write_capacity (c c' : cache) (seq_len start_pos : nat) (ks vs : list V) :
  cache_write zero c seq_len start_pos ks vs = Some c' →
  length (cache_k c') = length (cache_k c)
  ∧ length (cache_v c') = length (cache_v c).
Proof.
  unfold cache_write.
  destruct (decide (1 < seq_len)); cbn [cache_k cache_v];
    (destruct (scatter_update _ _ ks) as [k'|] eqn:Hk; [|discriminate]);
    (destruct (scatter_update _ _ vs) as [v'|] eqn:Hv; [|discriminate]);
    cbn; intros [= <-]; cbn [cache_k cache_v];
    apply scatter_update_length in Hk, Hv; rewrite Hk, Hv;
    unfold zeros_like; by rewrite ?length_replicate.
Qed.

(** A prefill forgets whatever the cache held: its outcome depends on the
    capacities and on the new keys and values only. *)
Lemma prefill_forgets (c1 c2 : cache) (sp1 sp2 : nat) (ks vs : list V) :
  1 < length ks →
  length (cache_k c1) = length (cache_k c2) →
  length (cache_v c1) = length (cache_v c2) →
  cache_write zero c1 (length ks) sp1 ks vs
  = cache_write zero c2 (length ks) sp2 ks vs.
Proof.
  intros HL Hk Hv. unfold cache_write.
  rewrite !decide_True by done. cbn [cache_k cache_v].
  unfold zeros_like. by rewrite Hk, Hv.
Qed.

(** A second decode write to the same slot replaces the first. *)
Lemma decode_overwrites (c c1 : cache) (p : nat) (k1 v1 k2 v2 : V) :
  cache_write zero c 1 p [k1] [v1] = Some c1 →
  cache_write zero c1 1 p [k2] [v2] = cache_write zero c 1 p [k2] [v2].
Proof.
  intros (Hk & Hv & ->)%cache_write_decode_inv.
  rewrite !cache_write_decode; cbn [cache_k cache_v];
    rewrite ?length_insert; try done.
  by rewrite !list_insert_insert_eq.
Qed.

(** Decode writes to different slots can be made in either order. *)
Lemma decode_writes_commute (c : cache) (p q : nat) (k1 v1 k2 v2 : V) :
  p ≠ q →
  (c1 ← cache_write zero c 1 p [k1] [v1]; cache_write zero c1 1 q [k2] [v2])
  = (c2 ← cache_write zero c 1 q [k2] [v2]; cache_write zero c2 1 p [k1] [v1]).
Proof.
  intros Hpq.
  assert (Hdec : ∀ (c0 : cache) (i : nat) (k v : V),
            cache_write zero c0 1 i [k] [v]
            = if decide (i < length (cache_k c0) ∧ i < length (cache_v c0))
              then Some {| cache_k := <[i := k]> (cache_k c0);
                           cache_v := <[i := v]> (cache_v c0) |}
              else None).
  { intros c0 i k v. unfold cache_write. rewrite decide_False by lia. simpl.
    destruct (decide (i < length (cache_k c0))); simpl;
      [destruct (decide (i < length (cache_v c0))); simpl|];
      [rewrite decide_True by done | rewrite decide_False by tauto
       | rewrite decide_False by tauto]; done. }
  rewrite !Hdec.
  destruct (decide (p < length (cache_k c) ∧ p < length (cache_v c))) as [[Hp1 Hp2]|Hp];
    destruct (decide (q < length (cache_k c) ∧ q < length (cache_v c))) as [[Hq1 Hq2]|Hq];
    cbn [mbind option_bind]; rewrite ?Hdec; cbn [cache_k cache_v];
    rewrite ?length_insert.
  - rewrite !decide_True by done.
    by rewrite (list_insert_insert_ne _ p q), (list_insert_insert_ne _ p q).
  - by rewrite decide_False.
  - by rewrite decide_False.
  - done.
Qed.

(** A decode write at or beyond the bucket is not seen by a read of the
    bucket. *)
Lemma decode_outside_bucket (c c' : cache) (p bucket_size : nat) (k v : V) :
  cache_write zero c 1 p [k] [v] = Some c' →
  bucket_size ≤ p →
  cache_read c' bucket_size = cache_read c bucket_size.
Proof.
  intros (_ & _ & ->)%cache_write_decode_inv Hle.
  unfold cache_read. cbn [cache_k cache_v].
  by rewrite !take_insert_ge.
Qed.

End Cache.

Lemma cache_write_capacity_witness :
  ∃ c', cache_write 0%Z {| cache_k := [7; 7; 7]; cache_v := [8; 8; 8] |}%Z
          2 0 [1; 2]%Z [3; 4]%Z = Some c'
        ∧ length (cache_k c') = 3 ∧ length (cache_v c') = 3.
Proof.
  eexists. split; [reflexivity|].
  apply (cache_write_capacity 0%Z
           {| cache_k := [7; 7; 7]; cache_v := [8; 8; 8] |}%Z _ 2 0 [1; 2]%Z [3; 4]%Z).
  reflexivity.
Defined.

Lemma prefill_forgets_witness :
  cache_write 0%Z {| cache_k := [7; 7; 7]; cache_v := [8; 8; 8] |}%Z 2 0 [1; 2]%Z [3; 4]%Z
  = cache_write 0%Z {| cache_k := [0; 5; 9]; cache_v := [6; 6; 1] |}%Z 2 1 [1; 2]%Z [3; 4]%Z.
Proof.
  apply (prefill_forgets 0%Z {| cache_k := [7; 7; 7]; cache_v := [8; 8; 8] |}%Z
           {| cache_k := [0; 5; 9]; cache_v := [6; 6; 1] |}%Z 0 1 [1; 2]%Z [3; 4]%Z);
    simpl; lia || reflexivity.
Defined.

Lemma decode_overwrites_witness :
  cache_write 0%Z {| cache_k := [7; 1; 7]; cache_v := [8; 2; 8] |}%Z 1 1 [5%Z] [6%Z]
  = cache_write 0%Z {| cache_k := [7; 7; 7]; cache_v := [8; 8; 8] |}%Z 1 1 [5%Z] [6%Z].
Proof.
  apply (decode_overwrites 0%Z {| cache_k := [7; 7; 7]; cache_v := [8; 8; 8] |}%Z
           {| cache_k := [7; 1; 7]; cache_v := [8; 2; 8] |}%Z 1 1%Z 2%Z 5%Z 6%Z).
  reflexivity.
Defined.

Lemma decode_writes_commute_witness :
  (c1 ← cache_write 0%Z {| cache_k := [7; 7; 7]; cache_v := [8; 8; 8] |}%Z 1 0 [1%Z] [2%Z];
   cache_write 0%Z c1 1 2 [3%Z] [4%Z])
  = (c2 ← cache_write 0%Z {| cache_k := [7; 7; 7]; cache_v := [8; 8; 8] |}%Z 1 2 [3%Z] [4%Z];
     cache_write 0%Z c2 1 0 [1%Z] [2%Z]).
Proof.
  apply (decode_writes_commute 0%Z {| cache_k := [7; 7; 7]; cache_v := [8; 8; 8] |}%Z
           0 2 1%Z 2%Z 3%Z 4%Z).
  lia.
Defined.

Lemma decode_outside_bucket_witness :
  cache_read {| cache_k := [7; 7; 5]; cache_v := [8; 8; 6] |}%Z 2
  = cache_read {| cache_k := [7; 7; 7]; cache_v := [8; 8; 8] |}%Z 2.
Proof.
  apply (decode_outside_bucket 0%Z {| cache_k := [7; 7; 7]; cache_v := [8; 8; 8] |}%Z
           {| cache_k := [7; 7; 5]; cache_v := [8; 8; 6] |}%Z 2 2 5%Z 6%Z);
    [reflexivity | lia].
Defined.

End CacheFacts.

(** ** Mask construction: failures, and the soft-prompt layout at work *)

Module MaskFacts.

Import Mask.

(** A prefill cannot be run without a mask, nor into a bucket shorter
    than the sequence: the concatenation of line 714 has nothing to pad,
    or a negative number of columns to add. *)
Lemma prefill_mask_errors (pre_seq_len : option nat) (batch_size seq_len : nat)
    (attention_mask : option mask) (start_pos bucket_size : nat) :
  1 < seq_len →
  attention_mask = None ∨ bucket_size < seq_len →
  construct_mask pre_seq_len batch_size seq_len attention_mask start_pos bucket_size
  = None.
Proof.
  intros Hlen Hbad. unfold construct_mask.
  destruct Hbad as [-> | Hbucket].
  - destruct pre_seq_len; simpl; by rewrite decide_True.
  - destruct pre_seq_len as [p|], attention_mask as [m|]; simpl;
      try destruct (concat_last _ m); simpl;
      rewrite ?decide_True by done; try done;
      by rewrite decide_False by lia.
Qed.

Lemma prefill_mask_errors_witness :
  construct_mask None 1 3 None 0 8 = None.
Proof.
  apply (prefill_mask_errors None 1 3 None 0 8); [lia | by left].
Defined.

(** One allowed prefix column, the supplied 2 x 2 mask, two padded
    columns. *)
Lemma construct_mask_prefix_witness :
  construct_mask (Some 1) 1 2 (Some [[[false; true]; [false; false]]]) 0 4
  = Some [[[false; false; true; true; true]; [false; false; false; true; true]]].
Proof.
  apply (construct_mask_prefix 1 [[false; true]; [false; false]] 0 4); simpl; lia.
Defined.

(** A decode step under a soft prompt: the row is synthesized all the
    same. *)
Lemma construct_mask_decode_witness :
  construct_mask (Some 2) 1 1 (Some [[[true]]]) 3 6
  = Some [[[false; false; false; false; false; true]]].
Proof.
  assert (H : ∃ m, construct_mask (Some 2) 1 1 (Some [[[true]]]) 3 6 = Some m)
    by (eexists; reflexivity).
  destruct H as [m Hm]. rewrite Hm. f_equal.
  apply (construct_mask_decode (Some 2) 1 (Some [[[true]]]) 3 6 m Hm).
Defined.

End MaskFacts.

(** ** Attention probabilities *)

Module AttentionFacts.

Import Attention.

Local Open Scope R_scope.

Definition total (row : list R) : R := foldr Rplus 0 row.

Lemma total_div (f : R → R) (z : R) (row : list R) :
  total ((λ x, f x / z) <$> row) = total (f <$> row) / z.
Proof.
  unfold total. induction row as [|x row IH]; csimpl; [unfold Rdiv; lra|].
  rewrite IH. unfold Rdiv. lra.
Qed.

Lemma total_exp_pos (row : list R) : row ≠ [] → 0 < total (exp <$> row).
Proof.
  intros Hne. destruct row as [|x row]; [done|]. clear Hne.
  unfold total. csimpl.
  assert (H : 0 <= foldr Rplus 0 (exp <$> row)).
  { induction row as [|y row IH]; csimpl; [lra|]. pose proof (exp_pos y). lra. }
  pose proof (exp_pos x). lra.
Qed.

(** A softmax over at least one score is a probability distribution. *)
Lemma softmax_distribution (row : list R) :
  row ≠ [] →
  total (softmax row) = 1
  ∧ Forall (λ p, 0 < p <= 1) (softmax row).
Proof.
  intros Hne. pose proof (total_exp_pos row Hne) as Hz. unfold softmax.
  split.
  - rewrite total_div. fold (total (exp <$> row)). field. lra.
  - fold (total (exp <$> row)). apply Forall_fmap, Forall_forall.
    intros x Hx. cbn.
    assert (Hle : exp x <= total (exp <$> row)).
    { clear Hne Hz. unfold total.
      induction row as [|y row IH]; [by apply elem_of_nil in Hx|].
      apply elem_of_cons in Hx as [-> | Hx]; csimpl.
      - assert (0 <= foldr Rplus 0 (exp <$> row)).
        { clear. induction row as [|z row IH]; csimpl; [lra|].
          pose proof (exp_pos z). lra. }
        lra.
      - pose proof (exp_pos y). specialize (IH Hx). lra. }
    pose proof (exp_pos x) as Hx0. split.
    + by apply Rdiv_lt_0_compat.
    + apply (Rmult_le_reg_r (total (exp <$> row))); [lra|].
      unfold Rdiv. rewrite Rmult_assoc, Rinv_l by lra. lra.
Qed.

(** Over the reals, every query row of the attention probabilities that
    has at least one key sums to one. *)
Lemma attention_probs_row_total (layer_id : nat)
    (query_layer key_layer : list (list R)) (attention_mask : list (list bool))
    (probs : list (list R)) (i : nat) (row : list R) :
  attention_probs layer_id query_layer key_layer attention_mask = Some probs →
  probs !! i = Some row →
  row ≠ [] →
  total row = 1.
Proof.
  unfold attention_probs.
  destruct (attention_scores _ _ _ _) as [scores|]; [|discriminate].
  cbn [mbind option_bind fsoftmax R_arith]. intros [= <-].
  rewrite list_lookup_fmap.
  destruct (scores !! i) as [srow|]; [|discriminate].
  intros [= <-] Hne. apply softmax_distribution.
  intros ->. by apply Hne.
Qed.

Lemma softmax_distribution_witness :
  total (softmax [0; 1]) = 1.
Proof.
  apply (softmax_distribution [0; 1]). discriminate.
Defined.

Lemma attention_probs_row_total_witness :
  ∃ probs row,
    attention_probs 0 [[1]] [[1]; [2]] [[false; true]] = Some probs
    ∧ probs !! 0%nat = Some row
    ∧ total row = 1.
Proof.
  eexists _, _. split; [reflexivity|]. split; [reflexivity|].
  eapply (attention_probs_row_total 0 [[1]] [[1]; [2]] [[false; true]] _ 0);
    [reflexivity | reflexivity | discriminate].
Defined.

End AttentionFacts.

(** ** The sentinel in half precision *)

Module HalfPrecision.

Import SpecFloat.
Import Attention.

(** IEEE binary16: 11 bits of precision, exponents up to 16; the
    operations of [SpecFloat] round to nearest, ties to even. *)
Definition prec : Z := 11.
Definition emax : Z := 16.

Definition cast16 (z : Z) : spec_float := binary_normalize prec emax z 0 false.

(** Half-precision scores. The reduction of the batched product and the
    softmax (which the code runs in float32) are the backend's. *)
Definition half_arith (fdot16 : list spec_float → list spec_float → spec_float)
    (fsoftmax16 : list spec_float → list spec_float) : Arith spec_float := {|
  cast := cast16;
  fsqrt := SFsqrt prec emax;
  fmul := SFmul prec emax;
  fdiv := SFdiv prec emax;
  fdot := fdot16;
  fsoftmax := fsoftmax16;
|}.

(** A reduction that accumulates from left to right, for concrete runs. *)
Definition dot16 (u v : list spec_float) : spec_float :=
  foldl (SFadd prec emax) (S754_zero false) (zip_with (SFmul prec emax) u v).

Definition is_finite_negative (x : spec_float) : bool :=
  match x with
  | S754_finite true _ _ => true
  | _ => false
  end.

Definition is_negative_infinity (x : spec_float) : bool :=
  match x with
  | S754_infinity true => true
  | _ => false
  end.

(** The sentinel times the layer coefficient, layer by layer. *)
Lemma sentinel_product (layer_id : nat) :
  (layer_id ≤ 5 →
   is_finite_negative
     (SFmul prec emax (cast16 (-10000)) (cast16 (Z.of_nat (layer_id + 1)))) = true)
  ∧ (6 ≤ layer_id < 2000 →
     SFmul prec emax (cast16 (-10000)) (cast16 (Z.of_nat (layer_id + 1)))
     = S754_infinity true).
Proof.
  assert (Hlow : forallb (λ l, is_finite_negative
                    (SFmul prec emax (cast16 (-10000)) (cast16 (Z.of_nat (l + 1)))))
                   (seq 0 6) = true) by (vm_compute; reflexivity).
  assert (Hhigh : forallb (λ l, is_negative_infinity
                     (SFmul prec emax (cast16 (-10000)) (cast16 (Z.of_nat (l + 1)))))
                    (seq 6 1994) = true) by (vm_compute; reflexivity).
  rewrite forallb_forall in Hlow, Hhigh. split.
  - intros Hl. apply Hlow, in_seq. lia.
  - intros Hl. specialize (Hhigh layer_id). rewrite in_seq in Hhigh.
    specialize (Hhigh ltac:(lia)).
    by destruct (SFmul _ _ _ _) as [| [|] | |].
Qed.

(** In half precision the sentinel [-10000] is finite, but a masked score
    is only finite up to layer 5: from layer 6 on the product with
    [layer_id + 1] overflows, and the masked entry reaches the softmax as
    minus infinity. *)
Lemma masked_score_overflows
    (fdot16 : list spec_float → list spec_float → spec_float)
    (fsoftmax16 : list spec_float → list spec_float)
    (layer_id hn : nat) (query_layer key_layer : list (list spec_float))
    (attention_mask : list (list bool)) (i j : nat) (mrow : list bool) :
  Forall (λ q, length q = hn) query_layer →
  Forall (λ k, length k = hn) key_layer →
  length attention_mask = length query_layer →
  Forall (λ mrow, length mrow = length key_layer) attention_mask →
  attention_mask !! i = Some mrow →
  mrow !! j = Some true →
  ∃ scores,
    attention_scores (Arith0 := half_arith fdot16 fsoftmax16)
      layer_id query_layer key_layer attention_mask = Some scores
    ∧ cast16 (-10000) = S754_finite true 1250 3
    ∧ (layer_id ≤ 5 →
       ∃ x, scores !! i ≫= (.!! j) = Some x ∧ is_finite_negative x = true)
    ∧ (6 ≤ layer_id < 2000 →
       scores !! i ≫= (.!! j) = Some (S754_infinity true)).
Proof.
  intros Hq Hk Hmlen Hmrows Hmi Hmj.
  pose proof (attention_scores_value (Arith0 := half_arith fdot16 fsoftmax16)
                layer_id hn _ _ _ Hq Hk Hmlen Hmrows) as Hscores.
  eexists. split; [exact Hscores|]. split; [reflexivity|].
  assert (Hi : i < length query_layer)
    by (rewrite <- Hmlen; by eapply lookup_lt_Some).
  assert (Hj : j < length key_layer).
  { pose proof (Forall_lookup_1 _ _ _ _ Hmrows Hmi) as Hw. cbn in Hw.
    rewrite <- Hw. by eapply lookup_lt_Some. }
  destruct (lookup_lt_is_Some_2 _ _ Hi) as [q Hqi].
  destruct (lookup_lt_is_Some_2 _ _ Hj) as [k Hkj].
  match type of Hscores with
  | _ = Some ?v =>
      assert (Hentry : v !! i ≫= (.!! j)
                = Some (SFmul prec emax (cast16 (-10000))
                          (cast16 (Z.of_nat (layer_id + 1)))))
  end.
  { unfold scale_query.
    rewrite list_lookup_fmap, lookup_zip_with, !list_lookup_fmap, Hqi, Hmi.
    cbn [fmap option_fmap option_map mbind option_bind].
    rewrite list_lookup_fmap, lookup_zip_with, list_lookup_fmap, Hkj, Hmj.
    reflexivity. }
  destruct (sentinel_product layer_id) as [Hlow Hhigh]. split.
  - intros Hl. eexists. split; [exact Hentry|]. by apply Hlow.
  - intros Hl. rewrite Hentry. f_equal. by apply Hhigh.
Qed.

(** Layer 6, one query against one masked key. *)
Lemma masked_score_overflows_witness :
  ∃ scores,
    attention_scores (Arith0 := half_arith dot16 (λ row, row)) 6
      [[cast16 1; cast16 2]] [[cast16 3; cast16 4]] [[true]] = Some scores
    ∧ scores !! 0 ≫= (.!! 0) = Some (S754_infinity true).
Proof.
  destruct (masked_score_overflows dot16 (λ row, row) 6 2
              [[cast16 1; cast16 2]] [[cast16 3; cast16 4]] [[true]] 0 0 [true])
    as (scores & Hscores & _ & _ & Hhigh);
    [repeat constructor | repeat constructor | reflexivity | repeat constructor
     | reflexivity | reflexivity |].
  exists scores. split; [exact Hscores|]. apply Hhigh. lia.
Defined.

End HalfPrecision.

(** ** Rotary embedding: table shape, identity, invariance of the score *)

Module RotaryFacts.

Import Rotary.

Local Open Scope R_scope.

Lemma emb_shape (base : R) (dim max_seq_len : nat) :
  length (emb base dim max_seq_len) = max_seq_len
  ∧ Forall (λ row, length row = (2 * Nat.div2 (dim + 1))%nat)
      (emb base dim max_seq_len).
Proof.
  unfold emb, freqs, inv_freq, arange_step2. split.
  - by rewrite !length_fmap, length_seq.
  - apply Forall_fmap, Forall_fmap, Forall_forall. intros t _. cbn.
    rewrite length_app, !length_fmap, length_seq. lia.
Qed.

(** Whatever [dim] is, both tables have one row per position, and every
    row spans [dim] entries when [dim] is even and [dim + 1] entries when
    it is odd: the frequencies of [np.arange(0, dim, 2)], twice over. *)
Lemma table_shape (base : R) (dim max_seq_len : nat) :
  let width := if Nat.even dim then dim else (dim + 1)%nat in
  length (cos_cached base dim max_seq_len) = max_seq_len
  ∧ length (sin_cached base dim max_seq_len) = max_seq_len
  ∧ Forall (λ row, length row = width) (cos_cached base dim max_seq_len)
  ∧ Forall (λ row, length row = width) (sin_cached base dim max_seq_len).
Proof.
  intros width. unfold cos_cached, sin_cached.
  destruct (emb_shape base dim max_seq_len) as [Hlen Hrows].
  assert (Hwidth : (2 * Nat.div2 (dim + 1))%nat = width).
  { unfold width. destruct (Nat.even dim) eqn:He.
    - apply Nat.even_spec in He as [h ->].
      by rewrite div2_double_succ.
    - apply (f_equal negb) in He. rewrite Nat.negb_even in He. cbn in He.
      apply Nat.odd_spec in He as [h ->].
      replace (2 * h + 1 + 1)%nat with (2 * (h + 1))%nat by lia.
      rewrite Nat.div2_double. lia. }
  rewrite Hwidth in Hrows. rewrite !length_fmap.
  assert (Hmap : ∀ (f : R → R) (t : list (list R)),
            Forall (λ row, length row = width) t →
            Forall (λ row, length row = width)
              (fmap (M := list) (fmap (M := list) f) t)).
  { intros f t Ht. apply Forall_fmap. eapply Forall_impl; [exact Ht|].
    intros row Hrow. cbn. by rewrite length_fmap. }
  split; [done|]. split; [done|]. split; by apply Hmap.
Qed.

(** A position outside the table cannot be encoded. *)
Lemma position_out_of_table (base : R) (dim max_seq_len p : nat) (q k : list R) :
  (max_seq_len ≤ p)%nat →
  apply_rotary_pos_emb_index q k (cos_cached base dim max_seq_len)
    (sin_cached base dim max_seq_len) p = None.
Proof.
  intros Hp. unfold apply_rotary_pos_emb_index.
  rewrite (lookup_ge_None_2 (cos_cached base dim max_seq_len)); [done|].
  unfold cos_cached. rewrite length_fmap.
  by rewrite (proj1 (emb_shape base dim max_seq_len)).
Qed.

Lemma rotate_by_unit (q r : list R) :
  length r = length q →
  add (mul q (replicate (length q) 1)) (mul r (replicate (length q) 0)) = q.
Proof.
  unfold add, mul. revert r.
  induction q as [|x q IH]; intros [|y r] Hlen; try discriminate; [done|].
  cbn [length replicate zip_with]. rewrite IH by (by injection Hlen).
  f_equal. lra.
Qed.

(** For a positive [base], position 0 is encoded by the identity. *)
Lemma position_zero_identity (base : R) (h max_seq_len : nat) (q k : list R) :
  0 < base →
  (0 < max_seq_len)%nat →
  length q = (2 * h)%nat →
  length k = (2 * h)%nat →
  apply_rotary_pos_emb_index q k (cos_cached base (2 * h) max_seq_len)
    (sin_cached base (2 * h) max_seq_len) 0 = Some (q, k).
Proof.
  intros _ Hn Hq Hk.
  assert (Hrow : ∀ (f : R → R) (v : R), f 0 = v →
            f <$> (((λ i, INR 0 * theta base (2 * h) i) <$> seq 0 h)
                   ++ ((λ i, INR 0 * theta base (2 * h) i) <$> seq 0 h))
            = replicate (2 * h) v).
  { intros f v Hf. rewrite fmap_app, <- list_fmap_compose.
    replace (2 * h)%nat with (h + h)%nat by lia. rewrite replicate_add.
    assert (Hconst : ∀ (g : nat → R) (l : list nat),
              (∀ i, g i = v) → g <$> l = replicate (length l) v).
    { intros g l Hg. induction l as [|i l IHl]; csimpl; [done|].
      by rewrite Hg, IHl. }
    rewrite (Hconst _ (seq 0 h)), length_seq; [done|].
    intros i. unfold compose. cbn [INR]. by rewrite Rmult_0_l. }
  rewrite (apply_rotary_same_width q k _ _ 0 (replicate (2 * h) 1) (replicate (2 * h) 0)).
  - rewrite <- Hq at 1 2. rewrite rotate_by_unit by apply rotate_half_length.
    rewrite <- Hk. rewrite rotate_by_unit by apply rotate_half_length.
    done.
  - unfold cos_cached. rewrite list_lookup_fmap, emb_lookup by done.
    cbn [fmap option_fmap option_map]. by rewrite (Hrow cos 1 cos_0).
  - unfold sin_cached. rewrite list_lookup_fmap, emb_lookup by done.
    cbn [fmap option_fmap option_map]. by rewrite (Hrow sin 0 sin_0).
  - by rewrite !length_replicate.
  - by rewrite length_replicate.
  - by rewrite length_replicate.
Qed.

Lemma dot_app (a1 a2 b1 b2 : list R) :
  length a1 = length b1 →
  Attention.dot (a1 ++ a2) (b1 ++ b2) = Attention.dot a1 b1 + Attention.dot a2 b2.
Proof.
  intros Hlen. unfold Attention.dot. rewrite zip_with_app by done.
  induction (zip_with Rmult a1 b1) as [|x l IH]; simpl; [lra|]. rewrite IH. lra.
Qed.

(** Rotating two vectors by the same angles leaves their dot product
    unchanged. *)
Lemma rotate_pairs_dot (C S x1 x2 y1 y2 : list R) :
  Forall2 (λ c s, c * c + s * s = 1) C S →
  length x1 = length C → length x2 = length C →
  length y1 = length C → length y2 = length C →
  Attention.dot (add (mul x1 C) (mul (Ropp <$> x2) S))
                (add (mul y1 C) (mul (Ropp <$> y2) S))
  + Attention.dot (add (mul x2 C) (mul x1 S)) (add (mul y2 C) (mul y1 S))
  = Attention.dot x1 y1 + Attention.dot x2 y2.
Proof.
  intros HCS. revert x1 x2 y1 y2.
  induction HCS as [|c s C S Hcs _ IH];
    intros [|a x1] [|b x2] [|a' y1] [|b' y2] H1 H2 H3 H4; try discriminate.
  - unfold Attention.dot. simpl. lra.
  - injection H1 as H1. injection H2 as H2. injection H3 as H3. injection H4 as H4.
    specialize (IH x1 x2 y1 y2 H1 H2 H3 H4).
    unfold Attention.dot, add, mul in *. csimpl in *.
    replace ((a * c + - b * s) * (a' * c + - b' * s))
      with (a * a' * (c * c) + b * b' * (s * s) - (a * b' + b * a') * (c * s)) by ring.
    replace ((b * c + a * s) * (b' * c + a' * s))
      with (b * b' * (c * c) + a * a' * (s * s) + (a * b' + b * a') * (c * s)) by ring.
    replace (s * s) with (1 - c * c) by lra. lra.
Qed.

(** For a positive [base], the score of a query against a key at the same
    position is not changed by the rotary encoding. *)
Lemma same_position_score (base : R) (h max_seq_len p : nat)
    (q k q' k' : list R) :
  0 < base →
  (p < max_seq_len)%nat →
  length q = (2 * h)%nat →
  length k = (2 * h)%nat →
  apply_rotary_pos_emb_index q k (cos_cached base (2 * h) max_seq_len)
    (sin_cached base (2 * h) max_seq_len) p = Some (q', k') →
  Attention.dot q' k' = Attention.dot q k.
Proof.
  intros _ Hp Hq Hk.
  set (A := (λ i, INR p * theta base (2 * h) i) <$> seq 0 h).
  assert (HA : length A = h) by (unfold A; by rewrite length_fmap, length_seq).
  rewrite (apply_rotary_same_width q k _ _ p (cos <$> (A ++ A)) (sin <$> (A ++ A)));
    [| unfold cos_cached; by rewrite list_lookup_fmap, emb_lookup by done
     | unfold sin_cached; by rewrite list_lookup_fmap, emb_lookup by done
     | by rewrite !length_fmap
     | rewrite length_fmap, length_app; lia
     | rewrite length_fmap, length_app; lia].
  intros [= <- <-]. rewrite !fmap_app.
  rewrite <- (take_drop h q), <- (take_drop h k).
  assert (Hq1 : length (take h q) = h) by (rewrite length_take; lia).
  assert (Hq2 : length (drop h q) = h) by (rewrite length_drop; lia).
  assert (Hk1 : length (take h k) = h) by (rewrite length_take; lia).
  assert (Hk2 : length (drop h k) = h) by (rewrite length_drop; lia).
  rewrite !rotate_half_app by congruence.
  unfold add, mul.
  rewrite !(zip_with_app Rmult) by (rewrite ?length_fmap; congruence).
  rewrite !(zip_with_app Rplus) by (rewrite !length_zip_with, ?length_fmap; lia).
  rewrite (dot_app (take h q)) by congruence.
  rewrite dot_app by (rewrite !length_zip_with, ?length_fmap; lia).
  apply (rotate_pairs_dot (cos <$> A) (sin <$> A));
    rewrite ?length_fmap; try congruence.
  apply Forall2_fmap, Forall_Forall2_diag, Forall_forall. intros x _.
  pose proof (sin2_cos2 x) as Hx. unfold Rsqr in Hx. lra.
Qed.

Lemma position_out_of_table_witness :
  apply_rotary_pos_emb_index [1; 0] [0; 1] (cos_cached 10000 2 4)
    (sin_cached 10000 2 4) 4 = None.
Proof. apply (position_out_of_table 10000 2 4 4 [1; 0] [0; 1]). lia. Defined.

Lemma position_zero_identity_witness :
  apply_rotary_pos_emb_index [1; 2] [3; 4] (cos_cached 10000 (2 * 1) 4)
    (sin_cached 10000 (2 * 1) 4) 0 = Some ([1; 2], [3; 4]).
Proof.
  apply (position_zero_identity 10000 1 4 [1; 2] [3; 4]); [lra | lia | done | done].
Defined.

Lemma same_position_score_witness :
  ∃ q' k',
    apply_rotary_pos_emb_index [1; 2] [3; 4] (cos_cached 10000 (2 * 1) 4)
      (sin_cached 10000 (2 * 1) 4) 3 = Some (q', k')
    ∧ Attention.dot q' k' = Attention.dot [1; 2] [3; 4].
Proof.
  eexists _, _. split; [reflexivity|].
  apply (same_position_score 10000 1 4 3 [1; 2] [3; 4]); [lra | lia | done | done |].
  reflexivity.
Defined.

End RotaryFacts.

(** ** The invalid-score processor: shape, idempotence, small vocabularies *)

Module InvalidScoreFacts.

Import PrimFloat.
Import InvalidScore.

Lemma fallback_row_clean (n : nat) :
  existsb is_nan (fallback_row n) = false
  ∧ existsb is_infinity (fallback_row n) = false.
Proof.
  assert (H : Forall (λ x, is_nan x = false ∧ is_infinity x = false) (fallback_row n)).
  { unfold fallback_row. apply Forall_insert; [|done].
    apply Forall_replicate. done. }
  induction H as [|x row [Hn Hi] _ [IHn IHi]]; [done|].
  cbn [existsb]. by rewrite Hn, Hi, IHn, IHi.
Qed.

Lemma fallback_rows_clean (rows : list (list float)) :
  Forall (λ row, ∃ n, row = fallback_row n) rows →
  isnan_any rows || isinf_any rows = false.
Proof.
  intros Hrows. unfold isnan_any, isinf_any.
  induction Hrows as [|row rows [n ->] _ IH]; [done|].
  cbn [existsb]. destruct (fallback_row_clean n) as [-> ->].
  exact IH.
Qed.

(** What the processor returns when it returns: the scores themselves, or
    one fallback row per input row, of the same width, which has to
    exceed 5. *)
Lemma processor_result (input_ids : list (list Z)) (scores out : scores_t) :
  InvalidScoreLogitsProcessor input_ids scores = Some out →
  (isnan_any scores || isinf_any scores = false ∧ out = scores)
  ∨ (isnan_any scores || isinf_any scores = true
     ∧ Forall (λ row, 5 < length row) scores
     ∧ out = (λ row, fallback_row (length row)) <$> scores).
Proof.
  unfold InvalidScoreLogitsProcessor.
  destruct (isnan_any scores || isinf_any scores); [|intros [= <-]; by left].
  intros Hset. right. split; [done|].
  unfold set_last_axis, zeros_like in Hset.
  apply mapM_Some in Hset. apply Forall2_fmap_l in Hset.
  clear -Hset. induction Hset as [|row o scores out Hrow _ [IH1 IH2]]; [done|].
  unfold compose in Hrow. rewrite length_replicate in Hrow.
  destruct (decide (5 < length row)) as [Hw|]; [|discriminate].
  injection Hrow as <-. split; [by constructor|].
  csimpl. by rewrite IH2.
Qed.

(** The processor never changes the shape of the score tensor. *)
Lemma processor_shape (input_ids : list (list Z)) (scores out : scores_t) :
  InvalidScoreLogitsProcessor input_ids scores = Some out →
  Forall2 (λ row o, length o = length row) scores out.
Proof.
  intros [[_ ->] | (_ & _ & ->)]%processor_result.
  - apply Forall_Forall2_diag, Forall_forall. done.
  - apply Forall2_fmap_r, Forall_Forall2_diag, Forall_forall. intros row _.
    unfold compose, fallback_row. by rewrite length_insert, length_replicate.
Qed.

(** Running the processor on its own output changes nothing. *)
Lemma processor_idempotent (input_ids input_ids' : list (list Z))
    (scores out : scores_t) :
  InvalidScoreLogitsProcessor input_ids scores = Some out →
  InvalidScoreLogitsProcessor input_ids' out = Some out.
Proof.
  intros [[Hclean ->] | (_ & _ & ->)]%processor_result;
    unfold InvalidScoreLogitsProcessor.
  - by rewrite Hclean.
  - rewrite fallback_rows_clean; [done|].
    apply Forall_fmap, Forall_forall. intros row _. cbn. eauto.
Qed.

(** With a NaN or Inf among the scores and a vocabulary of at most five
    tokens the assignment to index 5 fails. *)
Lemma small_vocabulary_raises (input_ids : list (list Z)) (scores : scores_t) :
  isnan_any scores || isinf_any scores = true →
  Exists (λ row, length row ≤ 5) scores →
  InvalidScoreLogitsProcessor input_ids scores = None.
Proof.
  intros Hbad Hsmall. unfold InvalidScoreLogitsProcessor. rewrite Hbad.
  unfold set_last_axis, zeros_like. apply mapM_None_2, Exists_fmap.
  eapply Exists_impl; [exact Hsmall|]. intros row Hrow. cbn in Hrow |- *.
  rewrite length_replicate. by rewrite decide_False by lia.
Qed.

Lemma processor_shape_witness :
  Forall2 (λ row o : list float, length o = length row)
    [[nan; 1; 2; 3; 4; 5; 6]%float] [[0; 0; 0; 0; 0; 5e4; 0]%float].
Proof.
  apply (processor_shape [] [[nan; 1; 2; 3; 4; 5; 6]%float]). reflexivity.
Defined.

Lemma processor_idempotent_witness :
  InvalidScoreLogitsProcessor [[1%Z]] [[0; 0; 0; 0; 0; 5e4; 0]%float]
  = Some [[0; 0; 0; 0; 0; 5e4; 0]%float].
Proof.
  apply (processor_idempotent [] [[1%Z]] [[nan; 1; 2; 3; 4; 5; 6]%float]).
  reflexivity.
Defined.

Lemma small_vocabulary_raises_witness :
  InvalidScoreLogitsProcessor [] [[1; infinity; 3]%float] = None.
Proof.
  apply (small_vocabulary_raises [] [[1; infinity; 3]%float]); [reflexivity|].
  apply Exists_cons_hd. simpl. lia.
Defined.

End InvalidScoreFacts.

(** ** The activation of the feed-forward block *)

Module Activation.

Local Open Scope R_scope.

(** [gelu] (lines 389-392), working precision idealised to [R]. *)
Definition gelu (x : R) : R :=
  0.5 * x * (1.0 + tanh (0.7978845608028654 * x * (1.0 + 0.044715 * x * x))).

Lemma tanh_opp (u : R) : tanh (- u) = - tanh u.
Proof.
  unfold tanh, sinh, cosh. rewrite Ropp_involutive.
  pose proof (exp_pos u). pose proof (exp_pos (- u)). field. lra.
Qed.

Lemma tanh_bounds (u : R) : -1 < tanh u < 1.
Proof.
  unfold tanh, sinh, cosh.
  pose proof (exp_pos u) as H1. pose proof (exp_pos (- u)) as H2.
  assert (Hc : 0 < (exp u + exp (- u)) / 2) by lra.
  split.
  - apply (Rmult_lt_reg_r ((exp u + exp (- u)) / 2)); [exact Hc|].
    unfold Rdiv at 2. rewrite Rmult_assoc, Rinv_l by lra. lra.
  - apply (Rmult_lt_reg_r ((exp u + exp (- u)) / 2)); [exact Hc|].
    unfold Rdiv at 1. rewrite Rmult_assoc, Rinv_l by lra. lra.
Qed.

(** [gelu] vanishes at zero, satisfies [gelu(x) - gelu(-x) = x], and its
    value always lies between zero and its argument. *)
Lemma gelu_properties (x : R) :
  gelu 0 = 0
  ∧ gelu x - gelu (- x) = x
  ∧ (0 <= x → 0 <= gelu x <= x)
  ∧ (x <= 0 → x <= gelu x <= 0).
Proof.
  unfold gelu. split; [lra|].
  set (u := 0.7978845608028654 * x * (1.0 + 0.044715 * x * x)).
  replace (0.7978845608028654 * - x * (1.0 + 0.044715 * - x * - x)) with (- u)
    by (unfold u; lra).
  rewrite tanh_opp. pose proof (tanh_bounds u) as [Hlo Hhi].
  split; [lra|]. split; intros Hx; split; nra.
Qed.

Lemma gelu_properties_witness : 0 <= gelu 1 <= 1.
Proof.
  destruct (gelu_properties 1) as (_ & _ & Hpos & _). apply Hpos. lra.
Defined.

End Activation.

(** ** The generation driver: buckets, decode inputs, masks, flags, runs *)

Module GenerationFacts.

Import Generation.

Lemma mapM_ok_inv {A B} (f : A → result B) (l : list A) (ys : list B) :
  mapM f l = Ok ys → Forall2 (λ x y, f x = Ok y) l ys.
Proof.
  revert ys. induction l as [|x l IH]; intros ys; cbn [mapM].
  - intros [= <-]. constructor.
  - destruct (f x) as [y|] eqn:Hy; [|discriminate]. cbn [mbind result_bind].
    destruct (mapM f l) as [k|]; [|discriminate]. cbn.
    intros [= <-]. constructor; [done | by apply IH].
Qed.

(** Destructs the binds of a successful computation in [H]. *)
Ltac invert_binds H :=
  repeat match type of H with
         | context [mbind _ ?m] =>
             let E := fresh "E" in
             destruct m eqn:E; cbn [mbind result_bind] in H; try discriminate H
         end.

(** What a successful preparation says about its result. *)
Lemma prepare_inputs_inv (config : ChatGLMConfig) (ids : list (list Z))
    (kw : model_kwargs) (mi : model_inputs) :
  prepare_inputs_for_generation config ids kw = Ok mi →
  default 512 (kw_bucket_size kw) ≠ 0
  ∧ mi_bucket_size mi
    = (seq_length ids `div` default 512 (kw_bucket_size kw) + 1)
      * default 512 (kw_bucket_size kw)
  ∧ mi_start_pos mi = default 0 (kw_start_pos kw)
  ∧ match kw_start_pos kw with
    | None => mi_input_ids mi = ids
    | Some _ =>
        mapM (λ row, match last row with
                     | Some t => Ok [t]
                     | None => Raise IndexError
                     end) ids = Ok (mi_input_ids mi)
    end.
Proof.
  unfold prepare_inputs_for_generation. intros H.
  destruct (mapM (scan_mask_token config) ids) as [scans|]; [|discriminate].
  cbn [mbind result_bind] in H.
  destruct (decide (default 512 (kw_bucket_size kw) = 0)); [discriminate|].
  split; [done|].
  destruct (kw_start_pos kw) as [start_pos|]; invert_binds H;
    injection H as <-; cbn; done.
Qed.

(** For a positive bucket granularity (512 unless the caller passes
    another one), the bucket handed to the forward pass is a multiple of
    the granularity, lies strictly above the sequence length and exceeds
    it by at most one granule: the padding [bucket_size - seq_len] of the
    prefill mask is never negative, and there is always room for one more
    token. *)
Lemma bucket_size_bounds (config : ChatGLMConfig) (ids : list (list Z))
    (kw : model_kwargs) (mi : model_inputs) :
  0 < default 512 (kw_bucket_size kw) →
  prepare_inputs_for_generation config ids kw = Ok mi →
  seq_length ids < mi_bucket_size mi
  ∧ mi_bucket_size mi ≤ seq_length ids + default 512 (kw_bucket_size kw)
  ∧ mi_bucket_size mi `mod` default 512 (kw_bucket_size kw) = 0.
Proof.
  intros Hpos (Hb & -> & _)%prepare_inputs_inv.
  set (b := default 512 (kw_bucket_size kw)) in *.
  set (s := seq_length ids).
  pose proof (Nat.div_mod s b Hb) as Hdm.
  pose proof (Nat.mod_upper_bound s b Hb) as Hlt.
  split; [nia|]. split; [nia|].
  by apply Nat.Div0.mod_mul.
Qed.

(** A bucket granularity of zero is a division by zero. *)
Lemma bucket_zero_raises (config : ChatGLMConfig) (ids : list (list Z))
    (kw : model_kwargs) :
  kw_bucket_size kw = Some 0 →
  Forall (λ seq, ¬ lacks_mask_token config seq) ids →
  prepare_inputs_for_generation config ids kw = Raise ZeroDivisionError.
Proof.
  intros Hb Hmask. unfold prepare_inputs_for_generation.
  destruct (scan_all_ok config ids Hmask) as (scans & -> & _).
  cbn [mbind result_bind]. by rewrite Hb.
Qed.

Lemma last_of_appended (ids : list (list Z)) (toks : list Z) :
  length toks = length ids →
  mapM (λ row, match last row with
               | Some t => Ok [t]
               | None => Raise IndexError
               end) (append_tokens ids toks)
  = Ok ((λ t, [t]) <$> toks).
Proof.
  revert toks. unfold append_tokens.
  induction ids as [|row ids IH]; intros [|t toks] Hlen; try discriminate; [done|].
  cbn [zip_with mapM]. rewrite last_snoc. cbn [mbind result_bind].
  rewrite IH by (by injection Hlen). done.
Qed.

(** The decode call that follows an iteration is fed exactly the tokens
    that iteration appended, one per batch element, together with the
    recorded [start_pos]. *)
Lemma decode_inputs_are_new_tokens (config : ChatGLMConfig)
    (ids : list (list Z)) (toks : list Z) (kw : model_kwargs)
    (start_pos : nat) (mi : model_inputs) :
  length toks = length ids →
  kw_start_pos kw = Some start_pos →
  prepare_inputs_for_generation config (append_tokens ids toks) kw = Ok mi →
  mi_input_ids mi = (λ t, [t]) <$> toks
  ∧ mi_start_pos mi = start_pos.
Proof.
  intros Hlen Hstart (_ & _ & Hsp & Hin)%prepare_inputs_inv.
  rewrite Hstart in Hsp, Hin. rewrite last_of_appended in Hin by done.
  split; [by injection Hin | exact Hsp].
Qed.

(** *** Incremental updates against rebuilding from scratch *)

Lemma index_ok (x : Z) (row : list Z) (n : nat) :
  index x row = Ok n → x ∈ row ∧ n < length row.
Proof.
  revert n. induction row as [|y row IH]; intros n; [discriminate|].
  simpl. case_decide as Hy.
  - intros [= <-]. subst. split; [apply list_elem_of_here | simpl; lia].
  - destruct (index x row) as [m|]; [|discriminate]. cbn. intros [= <-].
    destruct (IH m eq_refl) as [Hin Hlt].
    split; [by apply list_elem_of_further | simpl; lia].
Qed.

Lemma index_app_l (x : Z) (row l : list Z) :
  x ∈ row → index x (row ++ l) = index x row.
Proof.
  induction row as [|y row IH]; [by intros ?%elem_of_nil|].
  intros Hin. simpl. case_decide as Hy; [done|].
  apply elem_of_cons in Hin as [-> | Hin]; [done|]. by rewrite IH.
Qed.

(** Appending tokens does not move the first [bos]. *)
Lemma context_lengths_appended (config : ChatGLMConfig)
    (ids : list (list Z)) (toks : list Z) (cls : list nat) :
  length toks = length ids →
  mapM (index (bos_token_id config)) ids = Ok cls →
  mapM (index (bos_token_id config)) (append_tokens ids toks) = Ok cls.
Proof.
  unfold append_tokens. revert toks cls.
  induction ids as [|row ids IH]; intros [|t toks] cls Hlen; try discriminate;
    [done|].
  cbn [zip_with mapM].
  destruct (index (bos_token_id config) row) as [cl|] eqn:Hcl; [|discriminate].
  cbn [mbind result_bind].
  destruct (mapM (index (bos_token_id config)) ids) as [cls'|] eqn:Hcls;
    [|discriminate].
  cbn. intros [= <-].
  rewrite index_app_l, Hcl by (by apply index_ok in Hcl as [? _]).
  cbn [mbind result_bind]. rewrite (IH toks cls') by (done || by injection Hlen).
  done.
Qed.

Lemma last_slice_snoc {A} (l : list A) (x : A) : last_slice (l ++ [x]) = [x].
Proof.
  unfold last_slice. rewrite length_app. simpl.
  replace (length l + 1 - 1) with (length l) by lia.
  by rewrite drop_app_length.
Qed.

(** One batch element of [get_masks]: the rows of a sequence of length
    [s] whose first [bos] sits at [cl]. *)
Definition causal_rows (s cl : nat) : list (list bool) :=
  (λ r, (λ c, negb (bool_decide (c ≤ r) || bool_decide (c < cl))) <$> seq 0 s)
    <$> seq 0 s.

Lemma causal_rows_grow (s cl : nat) :
  cl < s →
  (let rows := (λ r, r ++ [true]) <$> causal_rows s cl in
   rows ++ ((λ r, <[length r - 1 := false]> r) <$> last_slice rows))
  = causal_rows (S s) cl.
Proof.
  intros Hcl. cbv zeta. destruct s as [|s']; [lia|].
  set (s := S s') in *.
  assert (Hold : (λ r, r ++ [true]) <$> causal_rows s cl
                 = (λ r, (λ c, negb (bool_decide (c ≤ r) || bool_decide (c < cl)))
                           <$> seq 0 (S s)) <$> seq 0 s).
  { unfold causal_rows. rewrite <- list_fmap_compose.
    apply list_fmap_ext. intros i r [-> Hi]%lookup_seq. unfold compose.
    rewrite (seq_S s 0), fmap_app. f_equal. cbn.
    rewrite bool_decide_eq_false_2, bool_decide_eq_false_2 by lia. done. }
  assert (Hfalse : ∀ n r, n ≤ S r →
            (λ c, negb (bool_decide (c ≤ r) || bool_decide (c < cl))) <$> seq 0 n
            = replicate n false).
  { intros n r Hn. rewrite <- (length_seq n 0) at 2.
    rewrite <- (fmap_replicate (λ _ : nat, false) (length (seq 0 n)) 0).
    assert (Hconst : ∀ (l : list nat), (λ _ : nat, false) <$> l
                       = (λ _ : nat, false) <$> replicate (length l) 0).
    { induction l as [|x l IHl]; csimpl; [done|]. by rewrite IHl. }
    rewrite <- Hconst. apply list_fmap_ext. intros i c [-> Hi]%lookup_seq.
    rewrite bool_decide_eq_true_2 by lia. done. }
  assert (Hlast : last_slice ((λ r, r ++ [true]) <$> causal_rows s cl)
                  = [replicate s false ++ [true]]).
  { unfold causal_rows. rewrite <- list_fmap_compose. unfold s.
    rewrite (seq_S s' 0), fmap_app. cbn [fmap list_fmap].
    rewrite last_slice_snoc. unfold compose. cbn [Nat.add].
    rewrite fmap_app, (Hfalse s' s') by lia. cbn [fmap list_fmap].
    rewrite bool_decide_eq_true_2 by lia. cbn [orb negb].
    replace (S s') with (s' + 1) by lia. by rewrite replicate_add. }
  rewrite Hlast. cbn [fmap list_fmap].
  rewrite length_app, length_replicate. cbn [length].
  replace (s + 1 - 1) with (length (replicate s false) + 0)
    by (rewrite length_replicate; lia).
  rewrite insert_app_r. cbn [insert list_insert].
  rewrite Hold. unfold causal_rows. rewrite (seq_S s 0), fmap_app.
  f_equal. cbn [fmap list_fmap Nat.add]. f_equal.
  rewrite fmap_app, (Hfalse s s) by lia. cbn [fmap list_fmap].
  by rewrite bool_decide_eq_true_2 by lia.
Qed.

(** Updating the mask after a step gives the mask [get_masks] would build
    for the grown sequences. *)
Lemma mask_update_is_rebuild (config : ChatGLMConfig) (s : nat)
    (ids : list (list Z)) (toks : list Z) (m : Mask.mask) :
  Forall (λ row, length row = s) ids →
  length toks = length ids →
  get_masks config ids = Ok m →
  get_masks config (append_tokens ids toks) = Ok (update_attention_mask m).
Proof.
  intros Hrect Hlen. unfold get_masks.
  destruct (mapM (index (bos_token_id config)) ids) as [cls|] eqn:Hcls;
    [|discriminate].
  cbn [mbind result_bind]. intros [= <-].
  rewrite (context_lengths_appended config ids toks cls) by done.
  cbn [mbind result_bind]. f_equal.
  destruct ids as [|row ids].
  { cbn in Hcls. injection Hcls as <-. done. }
  destruct toks as [|t toks]; [discriminate|].
  assert (Hs : seq_length (row :: ids) = s) by (by apply Forall_cons in Hrect as [? _]).
  assert (Hs' : seq_length (append_tokens (row :: ids) (t :: toks)) = S s).
  { cbn. rewrite length_app. cbn. apply Forall_cons in Hrect as [-> _]. lia. }
  rewrite Hs, Hs'. unfold update_attention_mask.
  rewrite <- list_fmap_compose. apply list_fmap_ext.
  intros i cl Hi. unfold compose.
  fold (causal_rows s cl). fold (causal_rows (S s) cl).
  symmetry. apply causal_rows_grow.
  apply mapM_ok_inv in Hcls.
  destruct (Forall2_lookup_r _ _ _ _ _ Hcls Hi) as (r & Hr & Hidx).
  apply index_ok in Hidx as [_ Hlt].
  eapply Forall_lookup_1 in Hrect; [|exact Hr]. cbn in Hrect. lia.
Qed.

(** One batch element of [get_position_ids] in 2-D mode. *)
Definition position_rows (s cl mp : nat) : list nat * list nat :=
  ((λ j, if decide (j < cl) then j else mp) <$> seq 0 s,
   replicate cl 0 ++ (S <$> seq 0 (s - cl))).

Lemma position_rows_grow (s cl mp : nat) :
  cl < s →
  (let '(p, b) := position_rows s cl mp in
   (p ++ last_slice p, b ++ (S <$> last_slice b)))
  = position_rows (S s) cl mp.
Proof.
  intros Hcl. unfold position_rows.
  destruct s as [|s']; [lia|].
  replace (S s' - cl) with (S (s' - cl)) by lia.
  replace (S (S s') - cl) with (S (S (s' - cl))) by lia.
  rewrite (seq_S (S s') 0), (seq_S s' 0), (seq_S (S (s' - cl)) 0), (seq_S (s' - cl) 0).
  rewrite !fmap_app. csimpl. rewrite !app_assoc, !last_slice_snoc. csimpl.
  rewrite !decide_False by lia. by rewrite <- !app_assoc.
Qed.

Lemma position_rows_last (s cl mp : nat) :
  cl < s →
  (let '(p, b) := position_rows s cl mp in (last_slice p, last_slice b))
  = ([mp], [s - cl]).
Proof.
  intros Hcl. unfold position_rows.
  destruct s as [|s']; [lia|].
  replace (S s' - cl) with (S (s' - cl)) by lia.
  rewrite (seq_S s' 0), (seq_S (s' - cl) 0).
  rewrite !fmap_app. csimpl. rewrite !app_assoc, !last_slice_snoc.
  by rewrite decide_False by lia.
Qed.

Lemma context_lengths_bound (config : ChatGLMConfig) (s : nat)
    (ids : list (list Z)) (cls : list nat) :
  Forall (λ row, length row = s) ids →
  mapM (index (bos_token_id config)) ids = Ok cls →
  Forall (λ cl, cl < s) cls.
Proof.
  intros Hrect Hcls%mapM_ok_inv.
  induction Hcls as [|row cl ids cls Hidx _ IH]; [constructor|].
  apply Forall_cons in Hrect as [Hrow Hrect].
  constructor; [|by apply IH].
  apply index_ok in Hidx as [_ Hlt]. lia.
Qed.

Lemma seq_length_appended (s : nat) (ids : list (list Z)) (toks : list Z) :
  ids ≠ [] →
  Forall (λ row, length row = s) ids →
  length toks = length ids →
  seq_length ids = s ∧ seq_length (append_tokens ids toks) = S s.
Proof.
  intros Hne Hrect Hlen.
  destruct ids as [|row ids]; [done|]. destruct toks as [|t toks]; [discriminate|].
  apply Forall_cons in Hrect as [Hrow _]. cbn. rewrite length_app. cbn. lia.
Qed.

(** In 2-D mode, updating the position ids after a step gives the
    position ids [get_position_ids] would build for the grown sequences
    (with the same mask positions). *)
Lemma position_update_is_rebuild (config : ChatGLMConfig) (s : nat)
    (ids : list (list Z)) (toks : list Z)
    (mask_positions : list nat) (use_gmasks : list bool) (p : position_ids_t) :
  position_encoding_2d config = true →
  Forall (λ row, length row = s) ids →
  length toks = length ids →
  get_position_ids config ids mask_positions use_gmasks = Ok p →
  get_position_ids config (append_tokens ids toks) mask_positions use_gmasks
  = update_position_ids p.
Proof.
  intros H2d Hrect Hlen. unfold get_position_ids. rewrite H2d.
  destruct (mapM (index (bos_token_id config)) ids) as [cls|] eqn:Hcls;
    [|discriminate].
  cbn [mbind result_bind]. intros [= <-].
  rewrite (context_lengths_appended config ids toks cls) by done.
  cbn [mbind result_bind update_position_ids]. do 2 f_equal.
  destruct (decide (ids = [])) as [-> | Hne].
  { cbn in Hcls. injection Hcls as <-. done. }
  destruct (seq_length_appended s ids toks Hne Hrect Hlen) as [-> ->].
  pose proof (context_lengths_bound config s ids cls Hrect Hcls) as Hbound.
  clear -Hbound. revert mask_positions.
  induction Hbound as [|cl cls Hcl _ IH]; intros [|mp mps]; try done.
  cbn [zip_with fmap list_fmap]. f_equal; [|apply IH].
  symmetry. apply (position_rows_grow s cl mp Hcl).
Qed.

(** The position ids a successful preparation builds in 2-D mode when
    none are supplied. *)
Lemma prepare_builds_position_ids (config : ChatGLMConfig) (ids : list (list Z))
    (kw : model_kwargs) (mi : model_inputs) :
  position_encoding_2d config = true →
  kw_position_ids kw = None →
  prepare_inputs_for_generation config ids kw = Ok mi →
  ∃ scans cls,
    mapM (scan_mask_token config) ids = Ok scans
    ∧ mapM (index (bos_token_id config)) ids = Ok cls
    ∧ mi_position_ids mi
      = match kw_start_pos kw with
        | None =>
            Pos2D (zip_with (λ cl mp, position_rows (seq_length ids) cl mp)
                     cls (scans.*1))
        | Some _ =>
            Pos2D (zip_with (λ mp cl, ([mp], [seq_length ids - cl]))
                     (scans.*1) cls)
        end.
Proof.
  intros H2d Hpos. unfold prepare_inputs_for_generation. rewrite Hpos. intros H.
  destruct (mapM (scan_mask_token config) ids) as [scans|]; [|discriminate].
  cbn [mbind result_bind] in H.
  destruct (decide (default 512 (kw_bucket_size kw) = 0)); [discriminate|].
  exists scans.
  destruct (kw_start_pos kw) as [start_pos|].
  - rewrite H2d in H.
    destruct (mapM (index (bos_token_id config)) ids) as [cls|];
      invert_binds H; injection H as <-; by exists cls.
  - unfold get_position_ids in H. rewrite H2d in H.
    destruct (mapM (index (bos_token_id config)) ids) as [cls|] eqn:Hcls;
      invert_binds H; injection H as <-; by exists cls.
Qed.

(** [position_ids[..., -1:]], as the preparation takes it of supplied
    position ids. *)
Definition last_column (p : position_ids_t) : position_ids_t :=
  match p with
  | Pos1D ids => Pos1D (last_slice <$> ids)
  | Pos2D ids => Pos2D ((λ '(p, b), (last_slice p, last_slice b)) <$> ids)
  end.

(** In 2-D mode the position ids a decode call builds from scratch are
    the last column of the position ids a prefill call builds for the same
    sequences. *)
Lemma decode_position_ids_last_column (config : ChatGLMConfig) (s : nat)
    (ids : list (list Z)) (kw_prefill kw_decode : model_kwargs)
    (mi_prefill mi_decode : model_inputs) :
  position_encoding_2d config = true →
  Forall (λ row, length row = s) ids →
  kw_position_ids kw_prefill = None → kw_start_pos kw_prefill = None →
  kw_position_ids kw_decode = None → is_Some (kw_start_pos kw_decode) →
  prepare_inputs_for_generation config ids kw_prefill = Ok mi_prefill →
  prepare_inputs_for_generation config ids kw_decode = Ok mi_decode →
  mi_position_ids mi_decode = last_column (mi_position_ids mi_prefill).
Proof.
  intros H2d Hrect Hp1 Hs1 Hp2 [sp Hs2] Hpre Hdec.
  destruct (prepare_builds_position_ids _ _ _ _ H2d Hp1 Hpre)
    as (scans & cls & Hscans & Hcls & ->).
  destruct (prepare_builds_position_ids _ _ _ _ H2d Hp2 Hdec)
    as (scans' & cls' & Hscans' & Hcls' & ->).
  rewrite Hscans in Hscans'. injection Hscans' as <-.
  rewrite Hcls in Hcls'. injection Hcls' as <-.
  rewrite Hs1, Hs2. cbn [last_column]. f_equal.
  destruct (decide (ids = [])) as [-> | Hne].
  { cbn in Hcls. injection Hcls as <-. by destruct (scans.*1). }
  rewrite (seq_length_rect s ids Hne Hrect).
  pose proof (context_lengths_bound config s ids cls Hrect Hcls) as Hbound.
  clear -Hbound. generalize (scans.*1). intros mps. revert mps.
  induction Hbound as [|cl cls Hcl _ IH]; intros [|mp mps]; try done.
  cbn [zip_with fmap list_fmap]. f_equal; [|apply IH].
  symmetry. apply (position_rows_last s cl mp Hcl).
Qed.

(** *** The unfinished flags of a batch under one end-of-sequence id *)

(** With one configured id, flags that are 0 or 1 stay 0 or 1; a flag is
    cleared by the id and otherwise keeps its value, so a finished element
    never becomes unfinished again. *)
Lemma flags_single_id (unfinished next_tokens : list Z) (e : Z) :
  Forall (λ u, u = 0%Z ∨ u = 1%Z) unfinished →
  update_unfinished unfinished next_tokens (eos_ids (EosInt e))
  = zip_with (λ u t, if decide (t = e) then 0%Z else u) unfinished next_tokens
  ∧ Forall (λ u, u = 0%Z ∨ u = 1%Z)
      (update_unfinished unfinished next_tokens (eos_ids (EosInt e))).
Proof.
  intros Hflags. unfold update_unfinished. cbn [eos_ids]. revert next_tokens.
  induction Hflags as [|u unfinished Hu _ IH]; intros [|t toks]; cbn [zip_with];
    try (split; [done | constructor]).
  destruct (IH toks) as [IHeq IHall]. rewrite ne_count_single.
  assert (Hval : wrap64 (u * (if decide (t = e) then 0 else 1))
                 = if decide (t = e) then 0%Z else u).
  { case_decide; destruct Hu as [-> | ->]; reflexivity. }
  rewrite Hval, IHeq. split; [done|].
  constructor; [|by rewrite <- IHeq].
  case_decide; [by left | exact Hu].
Qed.

Lemma flags_single_id_witness :
  update_unfinished [1; 0; 1]%Z [5; 7; 2]%Z (eos_ids (EosInt 2)) = [1; 0; 0]%Z.
Proof.
  apply (flags_single_id [1; 0; 1]%Z [5; 7; 2]%Z 2%Z).
  repeat constructor; by (left + right).
Defined.

(** *** Runs of the generator *)

Section Runs.

Context {Model : Type}.
Variable config : ChatGLMConfig.
Variable max_batch_size : nat.
Variable eos_token_id : list Z.
Variable stopping_criteria : list (list Z) → bool.
Variable run_model : Model → model_inputs → list (list Z) → Model * (nat → Z).


End Runs.

Lemma constant_picks (e : Z) (n : nat) :
  (λ _ : nat, e) <$> seq 0 n = replicate n e.
Proof.
  generalize 0. induction n as [|n IH]; intros j; [done|].
  cbn [seq replicate]. csimpl. by rewrite IH.
Qed.

Lemma append_constant (ids : list (list Z)) (e : Z) :
  append_tokens ids (replicate (length ids) e) = (λ row, row ++ [e]) <$> ids.
Proof.
  unfold append_tokens. by rewrite zip_with_replicate_r_eq.
Qed.

Lemma flags_all_eos (n : nat) (e : Z) :
  update_unfinished (replicate n 1%Z) (replicate n e) [e] = replicate n 0%Z.
Proof.
  unfold update_unfinished. rewrite zip_with_replicate, ne_count_single.
  by rewrite decide_True.
Qed.

Lemma tensor_max_zeros (n : nat) : tensor_max (replicate (S n) 0%Z) = Ok 0%Z.
Proof.
  cbn [replicate tensor_max]. f_equal.
  induction n as [|n IH]; [done|]. cbn [replicate foldr]. rewrite IH. done.
Qed.

(** When the first forward pass answers the single end-of-sequence id for
    every batch element, the generator finishes after that one pass and
    yields nothing: the sequences that end in the id are not handed to the
    consumer. *)
Lemma eos_at_first_step {Model : Type} (config : ChatGLMConfig)
    (stopping_criteria : list (list Z) → bool)
    (run_model : Model → model_inputs → list (list Z) → Model * (nat → Z))
    (m : Model) (prompt : list (list Z)) (kw : model_kwargs) (e : Z) (fuel : nat) :
  prompt ≠ [] →
  Forall (λ seq, ¬ lacks_mask_token config seq) prompt →
  (needs_bos kw = true → Forall (λ seq, ¬ lacks_bos config seq) prompt) →
  default 512 (kw_bucket_size kw) ≠ 0 →
  (∀ ids, kw_position_ids kw ≠ Some (Pos1D ids)) →
  (∀ mi b, (run_model m mi prompt).2 b = e) →
  ∃ final,
    stream_generate config (eos_ids (EosInt e)) stopping_criteria run_model
      (S fuel) m prompt kw
    = ([], Some (Finished final))
    ∧ input_ids final = (λ row, row ++ [e]) <$> prompt
    ∧ forward_calls final = 1.
Proof.
  intros Hne Hmask Hbos Hbucket Hpos Hpick.
  destruct (prepare_inputs_ok config prompt kw Hmask Hbos Hbucket)
    as (mi & Hprep & _).
  unfold stream_generate. cbn [stream_generate_loop]. unfold step.
  cbn [init_state input_ids kwargs model forward_calls unfinished_sequences].
  rewrite Hprep.
  destruct (run_model m mi prompt) as [model' pick] eqn:Hrun.
  assert (Htoks : pick <$> seq 0 (length prompt)
                  = (λ _ : nat, e) <$> seq 0 (length prompt)).
  { apply list_fmap_ext. intros i b _. specialize (Hpick mi b).
    by rewrite Hrun in Hpick. }
  rewrite Htoks, constant_picks, append_constant.
  destruct (update_kwargs_ok (seq_length ((λ row, row ++ [e]) <$> prompt)) kw Hpos)
    as (kw' & -> & _).
  cbn [eos_ids]. rewrite flags_all_eos.
  destruct prompt as [|row prompt]; [done|]. cbn [length].
  rewrite tensor_max_zeros. rewrite bool_decide_eq_true_2 by done. cbn [orb].
  eexists. split; [reflexivity|]. done.
Qed.

Lemma bucket_size_bounds_witness :
  ∃ mi, prepare_inputs_for_generation example_config [[5; 29; 30]%Z] no_kwargs = Ok mi
        ∧ 3 < mi_bucket_size mi ≤ 3 + 512.
Proof.
  destruct (prepare_inputs_ok example_config [[5; 29; 30]%Z] no_kwargs)
    as (mi & Hprep & _).
  - repeat constructor. intros [Hg _]. apply Hg. in_literal.
  - intros _. repeat constructor. intros Hb. apply Hb. in_literal.
  - cbn. lia.
  - exists mi. split; [exact Hprep|].
    destruct (bucket_size_bounds example_config [[5; 29; 30]%Z] no_kwargs mi
                ltac:(cbn; lia) Hprep)
      as (H1 & H2 & _).
    cbn in H1, H2. lia.
Defined.

Lemma bucket_zero_raises_witness :
  prepare_inputs_for_generation example_config [[5; 29; 30]%Z]
    {| kw_attention_mask := None; kw_position_ids := None;
       kw_start_pos := None; kw_bucket_size := Some 0 |}
  = Raise ZeroDivisionError.
Proof.
  apply bucket_zero_raises; [reflexivity|].
  repeat constructor. intros [Hg _]. apply Hg. in_literal.
Defined.

(** Discharges "the rows of this literal prompt contain the token". *)
Ltac prompt_has_tokens :=
  repeat constructor;
  first [ intros [Hg _]; apply Hg; in_literal
        | intros Hb; apply Hb; in_literal ].

Definition decode_kwargs (start_pos : nat) : model_kwargs :=
  {| kw_attention_mask := None; kw_position_ids := None;
     kw_start_pos := Some start_pos; kw_bucket_size := None |}.

Lemma decode_inputs_are_new_tokens_witness :
  ∃ mi,
    prepare_inputs_for_generation example_config
      (append_tokens [[5; 29; 30]%Z] [7%Z]) (decode_kwargs 4) = Ok mi
    ∧ mi_input_ids mi = [[7%Z]]
    ∧ mi_start_pos mi = 4.
Proof.
  destruct (prepare_inputs_ok example_config (append_tokens [[5; 29; 30]%Z] [7%Z])
              (decode_kwargs 4)) as (mi & Hprep & _);
    [prompt_has_tokens | intros _; prompt_has_tokens | cbn; lia |].
  exists mi. split; [exact Hprep|].
  apply (decode_inputs_are_new_tokens example_config [[5; 29; 30]%Z] [7%Z]
           (decode_kwargs 4) 4 mi); [reflexivity | reflexivity | exact Hprep].
Defined.

Lemma mask_update_is_rebuild_witness :
  ∃ m, get_masks example_config [[5; 29; 30]%Z] = Ok m
       ∧ get_masks example_config (append_tokens [[5; 29; 30]%Z] [7%Z])
         = Ok (update_attention_mask m).
Proof.
  eexists. split; [reflexivity|].
  apply (mask_update_is_rebuild example_config 3 [[5; 29; 30]%Z] [7%Z]);
    [repeat constructor | reflexivity | reflexivity].
Defined.

Lemma position_update_is_rebuild_witness :
  ∃ p, get_position_ids example_config [[5; 29; 30]%Z] [1] [true] = Ok p
       ∧ get_position_ids example_config (append_tokens [[5; 29; 30]%Z] [7%Z])
           [1] [true]
         = update_position_ids p.
Proof.
  eexists. split; [reflexivity|].
  apply (position_update_is_rebuild example_config 3 [[5; 29; 30]%Z] [7%Z]);
    [reflexivity | repeat constructor | reflexivity | reflexivity].
Defined.

Lemma decode_position_ids_last_column_witness :
  ∃ mi_prefill mi_decode,
    prepare_inputs_for_generation example_config [[5; 29; 30; 7]%Z] no_kwargs
      = Ok mi_prefill
    ∧ prepare_inputs_for_generation example_config [[5; 29; 30; 7]%Z]
        (decode_kwargs 4) = Ok mi_decode
    ∧ mi_position_ids mi_decode = last_column (mi_position_ids mi_prefill).
Proof.
  destruct (prepare_inputs_ok example_config [[5; 29; 30; 7]%Z] no_kwargs)
    as (mi1 & Hprep1 & _);
    [prompt_has_tokens | intros _; prompt_has_tokens | cbn; lia |].
  destruct (prepare_inputs_ok example_config [[5; 29; 30; 7]%Z] (decode_kwargs 4))
    as (mi2 & Hprep2 & _);
    [prompt_has_tokens | intros _; prompt_has_tokens | cbn; lia |].
  exists mi1, mi2. split; [exact Hprep1|]. split; [exact Hprep2|].
  apply (decode_position_ids_last_column example_config 4 [[5; 29; 30; 7]%Z]
           no_kwargs (decode_kwargs 4) mi1 mi2);
    [reflexivity | repeat constructor | reflexivity | reflexivity | reflexivity
    | by eexists | exact Hprep1 | exact Hprep2].
Defined.


Lemma eos_at_first_step_witness :
  ∃ final,
    stream_generate example_config (eos_ids (EosInt 2)) (MaxLengthCriteria 9)
      (constant_model 2) 3 tt [[29; 30]%Z] no_kwargs
    = ([], Some (Finished final))
    ∧ input_ids final = [[29; 30; 2]%Z].
Proof.
  destruct (eos_at_first_step example_config (MaxLengthCriteria 9) (constant_model 2)
              tt [[29; 30]%Z] no_kwargs 2%Z 2)
    as (final & Hrun & Hids & _);
    [discriminate | prompt_has_tokens | intros _; prompt_has_tokens | cbn; lia
    | intros ids; discriminate | reflexivity |].
  exists final. split; [exact Hrun | exact Hids].
Defined.

End GenerationFacts.

(** ** Reordering a cache for beam search *)

Module ReorderCache.

Section Reorder.

(** The slab stored for one sequence position and one batch element. *)
Context {A : Type}.

(** [t.index_select(1, index)] on a tensor whose first two axes are the
    sequence and the batch: every sequence slot keeps the batch entries
    named by [index], in that order; an index outside the batch raises. *)
Definition index_select_1 (t : list (list A)) (index : list nat)
  : option (list (list A)) :=
  mapM (λ row, mapM (λ i, row !! i) index) t.

(** [_reorder_cache] (lines 918-935). *)
Definition _reorder_cache (past : list (list (list A) * list (list A)))
    (beam_idx : list nat) : option (list (list (list A) * list (list A))) :=
  mapM (λ layer_past,
          k ← index_select_1 layer_past.1 beam_idx;
          v ← index_select_1 layer_past.2 beam_idx;
          Some (k, v)) past.

(** Every tensor of [past] has batch size [b]. *)
Definition batch_of (b : nat) (past : list (list (list A) * list (list A))) : Prop :=
  Forall (λ layer_past,
            Forall (λ row, length row = b) layer_past.1
            ∧ Forall (λ row, length row = b) layer_past.2) past.

Lemma select_all (row : list A) :
  mapM (λ i, row !! i) (seq 0 (length row)) = Some row.
Proof.
  apply mapM_Some, Forall2_same_length_lookup_2.
  - by rewrite length_seq.
  - intros i j x [-> Hi]%lookup_seq Hx. done.
Qed.

Lemma index_select_all (b : nat) (t : list (list A)) :
  Forall (λ row, length row = b) t → index_select_1 t (seq 0 b) = Some t.
Proof.
  intros Hb. unfold index_select_1. apply mapM_Some.
  apply Forall_Forall2_diag. eapply Forall_impl; [exact Hb|].
  intros row <-. apply select_all.
Qed.

(** Reordering by the identity permutation returns the cache. *)
Lemma reorder_identity (b : nat) (past : list (list (list A) * list (list A))) :
  batch_of b past → _reorder_cache past (seq 0 b) = Some past.
Proof.
  intros Hb. unfold _reorder_cache. apply mapM_Some.
  apply Forall_Forall2_diag. eapply Forall_impl; [exact Hb|].
  intros [k v] [Hk Hv]. cbn [fst snd] in *.
  by rewrite (index_select_all b k Hk), (index_select_all b v Hv).
Qed.

Lemma select_select (row r1 : list A) (i1 i2 i12 : list nat) :
  mapM (λ i, row !! i) i1 = Some r1 →
  mapM (λ j, i1 !! j) i2 = Some i12 →
  mapM (λ j, r1 !! j) i2 = mapM (λ i, row !! i) i12.
Proof.
  intros H1%mapM_Some. revert i12.
  induction i2 as [|j i2 IH]; intros i12 H2.
  - cbn in H2. by injection H2 as <-.
  - cbn [mapM] in H2.
    destruct (i1 !! j) as [i|] eqn:Hi; [|discriminate]. cbn in H2.
    destruct (mapM (λ j, i1 !! j) i2) as [i12'|] eqn:H2'; [|discriminate].
    cbn in H2. injection H2 as <-.
    cbn [mapM]. rewrite (IH i12' eq_refl).
    destruct (Forall2_lookup_l _ _ _ _ _ H1 Hi) as (x & Hx & Hrow).
    by rewrite Hx, Hrow.
Qed.

Lemma index_select_select (t t1 : list (list A)) (i1 i2 i12 : list nat) :
  index_select_1 t i1 = Some t1 →
  mapM (λ j, i1 !! j) i2 = Some i12 →
  index_select_1 t1 i2 = index_select_1 t i12.
Proof.
  unfold index_select_1. intros H1%mapM_Some H2.
  induction H1 as [|row r1 t t1 Hrow _ IH]; [done|].
  cbn [mapM]. by rewrite (select_select row r1 i1 i2 i12 Hrow H2), IH.
Qed.

(** Two reorderings in a row are one reordering by the composed index. *)
Lemma reorder_twice (past past1 : list (list (list A) * list (list A)))
    (i1 i2 i12 : list nat) :
  _reorder_cache past i1 = Some past1 →
  mapM (λ j, i1 !! j) i2 = Some i12 →
  _reorder_cache past1 i2 = _reorder_cache past i12.
Proof.
  unfold _reorder_cache. intros H1%mapM_Some H2.
  induction H1 as [|[k v] [k1 v1] past past1 Hlayer _ IH]; [done|].
  cbn [mapM fst snd] in *.
  destruct (index_select_1 k i1) as [k'|] eqn:Hk; [|discriminate]. cbn in Hlayer.
  destruct (index_select_1 v i1) as [v'|] eqn:Hv; [|discriminate]. cbn in Hlayer.
  injection Hlayer as <- <-.
  by rewrite (index_select_select k k' i1 i2 i12 Hk H2),
    (index_select_select v v' i1 i2 i12 Hv H2), IH.
Qed.

(** A reordering keeps the layers and the sequence slots and makes the
    batch as large as the index. *)
Lemma reorder_shape (past past1 : list (list (list A) * list (list A)))
    (beam_idx : list nat) :
  _reorder_cache past beam_idx = Some past1 →
  Forall2 (λ l l1, length l1.1 = length l.1 ∧ length l1.2 = length l.2)
    past past1
  ∧ batch_of (length beam_idx) past1.
Proof.
  unfold _reorder_cache, batch_of. intros H%mapM_Some.
  assert (Hsel : ∀ (t t1 : list (list A)),
            index_select_1 t beam_idx = Some t1 →
            length t1 = length t ∧ Forall (λ row, length row = length beam_idx) t1).
  { intros t t1 Ht%mapM_Some. split; [by apply Forall2_length in Ht|].
    induction Ht as [|row r1 t t1 Hrow _ IHt]; constructor; [|done].
    apply mapM_Some, Forall2_length in Hrow. done. }
  induction H as [|[k v] [k1 v1] past past1 Hlayer _ [IH1 IH2]]; [done|].
  cbn [fst snd] in Hlayer.
  destruct (index_select_1 k beam_idx) as [k'|] eqn:Hk; [|discriminate].
  cbn in Hlayer.
  destruct (index_select_1 v beam_idx) as [v'|] eqn:Hv; [|discriminate].
  cbn in Hlayer. injection Hlayer as <- <-.
  destruct (Hsel k k' Hk) as [Hk1 Hk2]. destruct (Hsel v v' Hv) as [Hv1 Hv2].
  split; constructor; done.
Qed.

(** A beam index outside the batch makes the reordering fail. *)
Lemma reorder_out_of_range (b : nat) (k v : list (list A)) (row : list A)
    (past : list (list (list A) * list (list A))) (beam_idx : list nat) :
  row ∈ k →
  length row = b →
  Exists (λ i, b ≤ i) beam_idx →
  _reorder_cache ((k, v) :: past) beam_idx = None.
Proof.
  intros Hrow Hlen Hbad. unfold _reorder_cache. cbn [mapM fst snd].
  assert (Hk : index_select_1 k beam_idx = None).
  { unfold index_select_1. apply mapM_None_2, Exists_exists.
    exists row. split; [done|]. apply mapM_None_2.
    eapply Exists_impl; [exact Hbad|]. intros i Hi. cbn in Hi |- *.
    apply lookup_ge_None_2. lia. }
  by rewrite Hk.
Qed.

End Reorder.

Lemma reorder_identity_witness :
  _reorder_cache [([[1; 2]; [3; 4]], [[5; 6]; [7; 8]])] (seq 0 2)
  = Some [([[1; 2]; [3; 4]], [[5; 6]; [7; 8]])].
Proof.
  apply (reorder_identity 2 [([[1; 2]; [3; 4]], [[5; 6]; [7; 8]])]).
  repeat constructor.
Defined.

Lemma reorder_twice_witness :
  _reorder_cache [([[2; 1; 2]], [[6; 5; 6]])] [1; 0]
  = _reorder_cache [([[1; 2]], [[5; 6]])] [0; 1].
Proof.
  apply (reorder_twice [([[1; 2]], [[5; 6]])] [([[2; 1; 2]], [[6; 5; 6]])]
           [1; 0; 1] [1; 0] [0; 1]); reflexivity.
Defined.

Lemma reorder_shape_witness :
  batch_of 3 [([[2; 1; 2]], [[6; 5; 6]])].
Proof.
  apply (reorder_shape [([[1; 2]], [[5; 6]])] [([[2; 1; 2]], [[6; 5; 6]])] [1; 0; 1]).
  reflexivity.
Defined.

Lemma reorder_out_of_range_witness :
  _reorder_cache [([[1; 2]], [[5; 6]])] [0; 2] = None.
Proof.
  apply (reorder_out_of_range 2 [[1; 2]] [[5; 6]] [1; 2] [] [0; 2]);
    [apply list_elem_of_here | reflexivity|].
  apply Exists_cons_tl, Exists_cons_hd. lia.
Defined.

End ReorderCache.

(** ** The layer loop of [ChatGLMModel.construct] *)

Module Stack.

Section Layers.

(** Hidden states, and the attention probabilities a layer reports. *)
Context {T P : Type}.

(** One decoder layer called as [layer(hidden_states, ..., layer_id=i,
    ...)]: the remaining arguments are the same for every layer of a
    call. *)
Variable layers : list (nat → T → T * P).
Variable final_layernorm : T → T.
Variable output_hidden_states output_attentions : bool.

(** The state of the loop at lines 723-741: the hidden states and the two
    growing tuples. *)
Definition loop_step (acc : T * list T * list P) (i : nat) (layer : nat → T → T * P)
  : T * list T * list P :=
  let '(hidden_states, all_hidden_states, all_self_attentions) := acc in
  let all_hidden_states :=
    if output_hidden_states then all_hidden_states ++ [hidden_states]
    else all_hidden_states in
  let layer_ret := layer i hidden_states in
  let all_self_attentions :=
    if output_attentions then all_self_attentions ++ [layer_ret.2]
    else all_self_attentions in
  (layer_ret.1, all_hidden_states, all_self_attentions).

Fixpoint loop_from (i : nat) (ls : list (nat → T → T * P)) (acc : T * list T * list P)
  : T * list T * list P :=
  match ls with
  | [] => acc
  | layer :: ls' => loop_from (S i) ls' (loop_step acc i layer)
  end.

(** Lines 720-748, from the embedded input to the returned triple. *)
Definition run_layers (hidden_states : T) : T * list T * list P :=
  let '(hidden_states, all_hidden_states, all_self_attentions) :=
    loop_from 0 layers (hidden_states, [], []) in
  let hidden_states := final_layernorm hidden_states in
  let all_hidden_states :=
    if output_hidden_states then all_hidden_states ++ [hidden_states]
    else all_hidden_states in
  (hidden_states, all_hidden_states, all_self_attentions).

(** The hidden states alone: each layer applied in turn. *)
Fixpoint thread (i : nat) (ls : list (nat → T → T * P)) (h : T) : T :=
  match ls with
  | [] => h
  | layer :: ls' => thread (S i) ls' (layer i h).1
  end.

Lemma loop_from_spec (ls : list (nat → T → T * P)) :
  ∀ (i : nat) (h : T) (hs : list T) (ps : list P),
    ∃ hs' ps',
      loop_from i ls (h, hs, ps) = (thread i ls h, hs ++ hs', ps ++ ps')
      ∧ length hs' = (if output_hidden_states then length ls else 0)
      ∧ length ps' = (if output_attentions then length ls else 0)
      ∧ (output_hidden_states = true → ls ≠ [] → head hs' = Some h).
Proof.
  induction ls as [|layer ls IH]; intros i h hs ps.
  - exists [], []. rewrite !app_nil_r. by destruct output_hidden_states, output_attentions.
  - cbn [loop_from loop_step thread].
    destruct (IH (S i) (layer i h).1
                (if output_hidden_states then hs ++ [h] else hs)
                (if output_attentions then ps ++ [(layer i h).2] else ps))
      as (hs' & ps' & -> & Hh & Hp & _).
    exists (if output_hidden_states then h :: hs' else hs'),
           (if output_attentions then (layer i h).2 :: ps' else ps').
    destruct output_hidden_states, output_attentions;
      rewrite <- ?app_assoc; cbn [length app head]; repeat split; auto; done.
Qed.

(** The stack threads the hidden states through the layers in order and
    normalizes the result, whatever is collected on the way; it collects
    one hidden state per layer plus the final one (starting with its
    input and ending with what it returns) and one attention tensor per
    layer when asked to, and nothing otherwise. *)
Lemma run_layers_spec (x : T) :
  ∃ all_hidden_states all_self_attentions,
    run_layers x
    = (final_layernorm (thread 0 layers x), all_hidden_states, all_self_attentions)
    ∧ length all_hidden_states
      = (if output_hidden_states then S (length layers) else 0)
    ∧ length all_self_attentions
      = (if output_attentions then length layers else 0)
    ∧ (output_hidden_states = true →
       head all_hidden_states = Some (if layers is [] then final_layernorm x else x)
       ∧ last all_hidden_states = Some (final_layernorm (thread 0 layers x))).
Proof.
  unfold run_layers.
  destruct (loop_from_spec layers 0 x [] []) as (hs & ps & -> & Hh & Hp & Hhead).
  cbn [app]. eexists _, _. split; [reflexivity|].
  destruct output_hidden_states.
  - rewrite length_app, Hh. cbn [length]. split; [lia|]. split; [exact Hp|].
    intros _. split; [|by rewrite last_snoc].
    destruct layers as [|layer ls].
    + destruct hs; [done | discriminate].
    + specialize (Hhead eq_refl ltac:(discriminate)).
      destruct hs as [|h hs]; [discriminate|]. cbn in Hhead |- *. done.
  - split; [exact Hh|]. split; [exact Hp|]. done.
Qed.

End Layers.

(** Two layers over integers that add their index plus one and report the
    index, with both collections switched on. *)
Lemma run_layers_spec_witness :
  ∃ all_hidden_states all_self_attentions,
    run_layers [λ i h, (h + i + 1, i); λ i h, (h + i + 1, i)] (λ h, 10 * h) true true 5
    = (80, all_hidden_states, all_self_attentions)
    ∧ length all_hidden_states = 3
    ∧ length all_self_attentions = 2.
Proof.
  destruct (run_layers_spec [λ i h, (h + i + 1, i); λ i h, (h + i + 1, i)]
              (λ h, 10 * h) true true 5)
    as (hs & ps & Hrun & Hhs & Hps & _).
  exists hs, ps. split; [exact Hrun|]. split; [exact Hhs | exact Hps].
Defined.

End Stack.
